(** * maintainerbot: the bot loop, the Congratulator and CLAChecker tasks and
    the spreadsheet-backed contributor list, embedded and verified.

    Go strings are modelled as [string] (sequences of bytes), maps as
    stdpp's [gmap], [int32] issue numbers as [Z].  The GitHub client, the
    maintner corpus, the CSV lexer and the HTTP download are collaborators
    outside the repository: they appear as explicit service records whose
    answers the code under study inspects.  So is the Unicode part of Go's
    package [strings]: [ToLower] and [TrimSpace] are fields of a library
    record, and what is proved of the code holds for every such library,
    or for every library that obeys the stated laws. *)

From Stdlib Require Import ZArith String Ascii List Bool Lia.
From stdpp Require Import gmap strings list fin_maps.

Import ListNotations.
Open Scope string_scope.
Open Scope Z_scope.

(** ** Errors and results *)

(** A Go [error] value is represented by its message. *)
Definition error := string.

Inductive result (A : Type) : Type :=
| Ok (a : A)
| Err (e : error).
Arguments Ok {A} a.
Arguments Err {A} e.

(** ** The fragment of package [strings] that the code calls

    [Contains] compares bytes, as Go's does.  [ToLower] and [TrimSpace]
    depend on the Unicode tables of the Go library, which are not part of
    the repository: they are the fields of [Lib], the library the code is
    linked with.  What is known of them is collected in [Laws]: on a
    string of ASCII bytes [ToLower] folds the letters A to Z and
    [TrimSpace] removes the six ASCII white-space bytes at both ends, and
    both functions leave their own results unchanged.  [ascii] is the
    instance that computes this ASCII behaviour on every string. *)
Module strings.

Definition lower_byte (c : ascii) : ascii :=
  let n := N_of_ascii c in
  if ((65 <=? n) && (n <=? 90))%N then ascii_of_N (n + 32) else c.

Fixpoint lower_ascii (s : string) : string :=
  match s with
  | EmptyString => EmptyString
  | String c s' => String (lower_byte c) (lower_ascii s')
  end.

Fixpoint Contains (s substr : string) : bool :=
  String.prefix substr s ||
  match s with
  | EmptyString => false
  | String _ s' => Contains s' substr
  end.

Definition isSpace (c : ascii) : bool :=
  let n := N_of_ascii c in
  ((n =? 9) || (n =? 10) || (n =? 11) || (n =? 12) || (n =? 13) || (n =? 32))%N.

Fixpoint trim_left (s : string) : string :=
  match s with
  | EmptyString => EmptyString
  | String c s' => if isSpace c then trim_left s' else s
  end.

Fixpoint trim_right (s : string) : string :=
  match s with
  | EmptyString => EmptyString
  | String c s' =>
      match trim_right s' with
      | EmptyString => if isSpace c then EmptyString else String c EmptyString
      | r => String c r
      end
  end.

Definition trim_ascii (s : string) : string := trim_right (trim_left s).

(** Every byte of [s] is below 128. *)
Fixpoint is_ascii (s : string) : bool :=
  match s with
  | EmptyString => true
  | String c s' => (N_of_ascii c <? 128)%N && is_ascii s'
  end.

Record Lib := mkLib {
  ToLower : string -> string;
  TrimSpace : string -> string
}.

Record Laws (L : Lib) : Prop := mkLaws {
  ToLower_ascii : forall s, is_ascii s = true -> ToLower L s = lower_ascii s;
  TrimSpace_ascii : forall s, is_ascii s = true -> TrimSpace L s = trim_ascii s;
  ToLower_idem : forall s, ToLower L (ToLower L s) = ToLower L s;
  TrimSpace_idem : forall s, TrimSpace L (TrimSpace L s) = TrimSpace L s
}.

Definition ascii : Lib := mkLib lower_ascii trim_ascii.

End strings.

(** ** The record-level behaviour of [encoding/csv]

    A file is given as the sequence of outcomes its lexer produces, one per
    record.  [Reader] keeps what [csv.Reader] keeps between calls: the
    unread records and [FieldsPerRecord], which starts at 0, is set from
    the first record and is enforced on all later ones. *)
Module csv.

Inductive line : Type :=
| Fields (fs : list string)
| ParseError (e : error).

Definition file := list line.

Record Reader := mkReader {
  unread : file;
  FieldsPerRecord : Z
}.

Definition NewReader (f : file) : Reader :=
  {| unread := f; FieldsPerRecord := 0 |}.

Definition EOF : error := "EOF".
Definition ErrFieldCount : error := "wrong number of fields".

Definition Read (r : Reader) : result (list string) * Reader :=
  match unread r with
  | [] => (Err EOF, r)
  | ParseError e :: rest => (Err e, mkReader rest (FieldsPerRecord r))
  | Fields fs :: rest =>
      if 0 <? FieldsPerRecord r then
        if Z.of_nat (length fs) =? FieldsPerRecord r
        then (Ok fs, mkReader rest (FieldsPerRecord r))
        else (Err ErrFieldCount, mkReader rest (FieldsPerRecord r))
      else if FieldsPerRecord r =? 0 then
        (Ok fs, mkReader rest (Z.of_nat (length fs)))
      else (Ok fs, mkReader rest (FieldsPerRecord r))
  end.

(** [ReadAll] reads until [EOF]; any other error discards what was read. *)
Fixpoint ReadAll_loop (fuel : nat) (r : Reader) (acc : list (list string))
  : result (list (list string)) * Reader :=
  match fuel with
  | O => (Ok acc, r)
  | S fuel' =>
      match unread r with
      | [] => (Ok acc, r)
      | _ =>
          match Read r with
          | (Ok fs, r') => ReadAll_loop fuel' r' (acc ++ [fs])
          | (Err e, r') => (Err e, r')
          end
      end
  end.

Definition ReadAll (r : Reader) : result (list (list string)) * Reader :=
  ReadAll_loop (length (unread r)) r [].

End csv.

(** ** Spreadsheet fetcher (tasks.go) *)

(** The header scan of [getUsernames]: [column] is the index of the first
    cell whose lower-cased text contains [lowerColumnName], or -1. *)
Fixpoint find_column (L : strings.Lib) (record : list string) (lowerColumnName : string)
    (i : Z) : Z :=
  match record with
  | [] => -1
  | cell :: rest =>
      let lower := strings.ToLower L cell in
      if strings.Contains lower lowerColumnName then i
      else find_column L rest lowerColumnName (i + 1)
  end.

(** The row loop of [getUsernames]; [None] stands for the run-time panic of
    an index out of range in [records[i][column]]. *)
Fixpoint collect_emails (L : strings.Lib) (records : list (list string)) (column : Z)
    (emails : list string) : option (list string) :=
  match records with
  | [] => Some emails
  | rec :: rest =>
      match rec !! Z.to_nat column with
      | None => None
      | Some cell =>
          let email := strings.TrimSpace L cell in
          if String.eqb email EmptyString then collect_emails L rest column emails
          else collect_emails L rest column (emails ++ [email])
      end
  end.

Definition no_column_error (columnName : string) : error :=
  "no column named '" ++ columnName ++ "'; quitting".

Inductive outcome (A : Type) : Type :=
| Returns (r : result A)
| Panics (msg : string).
Arguments Returns {A} r.
Arguments Panics {A} msg.

Definition getUsernames (L : strings.Lib) (file : csv.file) (columnName : string)
  : outcome (list string) :=
  let r := csv.NewReader file in
  match csv.Read r with
  | (Err err, _) => Returns (Err err)
  | (Ok record, r) =>
      let lowerColumnName := strings.ToLower L columnName in
      let column := find_column L record lowerColumnName 0 in
      if column =? -1 then Returns (Err (no_column_error columnName))
      else
        match csv.ReadAll r with
        | (Err err, _) => Returns (Err err)
        | (Ok records, _) =>
            match collect_emails L records column [] with
            | Some emails => Returns (Ok emails)
            | None => Panics "index out of range"
            end
        end
  end.

Record SpreadsheetFetcher := mkSpreadsheetFetcher {
  sheetURL : string;
  ColumnName : string
}.

Definition NewSpreadsheetFetcher (sheetURL : string) : SpreadsheetFetcher :=
  {| sheetURL := sheetURL; ColumnName := "GitHub Username" |}.

(** [downloadCSV] is an HTTP GET; [download] stands for the remote end and
    already yields the lexed body. *)
Definition LoadContributors (L : strings.Lib) (download : string -> result csv.file)
    (s : SpreadsheetFetcher) : outcome (list string) :=
  match download (sheetURL s) with
  | Err err => Returns (Err err)
  | Ok body =>
      let columnName := ColumnName s in
      let columnName := if String.eqb columnName EmptyString then "GitHub Username" else columnName in
      (* the call passes s.ColumnName, not the local columnName *)
      match getUsernames L body (ColumnName s) with
      | Returns (Err err) => Returns (Err err)
      | Returns (Ok usernames) => Returns (Ok usernames)
      | Panics msg => Panics msg
      end
  end.

Definition csvFile : csv.file :=
  [ csv.Fields ["Name"; "Em"; "Address"; "Country"; "Phone Number"; "Github Username"];
    csv.Fields ["Kevin Burke"; "kevin@burke.services"; "123 Main St"; "USA"; "925-555-1234"; "kevinburke"];
    csv.Fields ["Kevin Foo"; "anotheremail@burke.services"; "123 Main St"; "USA"; "925-555-1234"; "kevinburke_test"];
    csv.Fields ["TestUser"; "test@example.com"; "123 Main St"; "USA"; "925-555-1234"; "test"] ].


(** ** The maintner snapshot *)

Record GitHubLabel := mkLabel { label_Name : string }.

Record GitHubIssue := mkIssue {
  Number : Z;
  NotExist : bool;
  PullRequest : bool;
  Closed : bool;
  User_Login : string;
  Labels : list GitHubLabel
}.

Record GithubRepoID := mkRepoID { Owner : string; Repo : string }.

(** [issues] lists the snapshot in the order in which [ForeachIssue]
    visits it (ascending issue number). *)
Record GitHubRepo := mkRepo {
  ID : GithubRepoID;
  issues : list GitHubIssue
}.

(** How a call of [Task.Do], or of a callback, ends. *)
Inductive ending : Type :=
| Nil                    (* returned a nil error *)
| Error (e : error)      (* returned a non-nil error *)
| Fatal (e : error)      (* log.Fatal: the message is logged, the process exits *)
| Panic (msg : string)   (* run-time panic *)
| Blocked.               (* parked on a channel nobody has made ready *)

(** [ForeachIssue] calls [fn] on each issue and stops at the first call
    that does not return nil. *)
Fixpoint ForeachIssue {S : Type} (fn : GitHubIssue -> S -> ending * S)
    (l : list GitHubIssue) (s : S) : ending * S :=
  match l with
  | [] => (Nil, s)
  | gh :: rest =>
      match fn gh s with
      | (Nil, s') => ForeachIssue fn rest s'
      | stop => stop
      end
  end.

(** ** The go-github client *)

Record IssueComment := mkComment { Body : string }.

Record RepoStatus := mkStatus {
  State : option string;
  Context : option string;
  Description : option string;
  TargetURL : option string
}.

Definition GetState (s : RepoStatus) : string := default EmptyString (State s).
Definition GetContext (s : RepoStatus) : string := default EmptyString (Context s).

Record CommitFile := mkCommitFile {
  Filename : string;
  Additions : Z;
  Deletions : Z
}.

(** Of a pull request the code reads only [Head.SHA]; [None] is a nil
    [Head] or a nil [SHA]. *)
Record PullRequest_ := mkPR {
  Head_SHA : option string;
  PR_Title : string
}.

Definition GetSHA (pr : PullRequest_) : string := default EmptyString (Head_SHA pr).

(** One request sent to GitHub. *)
Inductive Call : Type :=
| AddLabelsToIssue (id : GithubRepoID) (number : Z) (labels : list string)
| CreateComment (id : GithubRepoID) (number : Z) (comment : IssueComment)
| Get (id : GithubRepoID) (number : Z)
| ListFiles (id : GithubRepoID) (number : Z)
| ListStatuses (id : GithubRepoID) (ref : string)
| CreateStatus (id : GithubRepoID) (ref : string) (status : RepoStatus).

(** The remote service: every request answers from, and may change, the
    state [W] of the world. *)
Record Client (W : Type) := mkClient {
  Issues_AddLabelsToIssue : GithubRepoID -> Z -> list string -> W -> option error * W;
  Issues_CreateComment : GithubRepoID -> Z -> IssueComment -> W -> option error * W;
  PullRequests_Get : GithubRepoID -> Z -> W -> result PullRequest_ * W;
  PullRequests_ListFiles : GithubRepoID -> Z -> W -> result (list CommitFile) * W;
  Repositories_ListStatuses : GithubRepoID -> string -> W -> result (list RepoStatus) * W;
  Repositories_CreateStatus : GithubRepoID -> string -> RepoStatus -> W -> result RepoStatus * W
}.
Arguments Issues_AddLabelsToIssue {W} _ _ _ _ _.
Arguments Issues_CreateComment {W} _ _ _ _ _.
Arguments PullRequests_Get {W} _ _ _ _.
Arguments PullRequests_ListFiles {W} _ _ _ _.
Arguments Repositories_ListStatuses {W} _ _ _ _.
Arguments Repositories_CreateStatus {W} _ _ _ _ _.

(** The world together with the requests sent so far, oldest first. *)
Definition Net (W : Type) : Type := (W * list Call)%type.

Definition sent {W} (net : Net W) : list Call := snd net.

Definition request {W A} (c : Call) (serve : W -> A * W) (net : Net W) : A * Net W :=
  let '(a, w') := serve (fst net) in (a, (w', (snd net ++ [c])%list)).

(** ** Congratulator (tasks.go) *)

Record CongratsData := mkCongratsData { Username : string }.

Definition has_key {K V} `{Countable K} (m : gmap K V) (k : K) : bool :=
  match m !! k with Some _ => true | None => false end.

(** [m[k]] on a [map[string]bool]: false when the key is absent. *)
Definition bool_at (m : gmap string bool) (k : string) : bool :=
  default false (m !! k).

(** [message] is the parsed template: [Execute] either renders the text or
    fails.  A nil [knownContributors] is the empty map: the only writes to
    it happen after the callback has allocated it. *)
Record Congratulator := mkCongratulator {
  message : CongratsData -> result string;
  knownContributors : gmap string bool
}.

Definition scan_pr (gh : GitHubIssue)
    (s : gmap string bool * gmap string GitHubIssue)
  : ending * (gmap string bool * gmap string GitHubIssue) :=
  let '(known, prs) := s in
  if NotExist gh || negb (PullRequest gh) then (Nil, s)
  else
    let username := User_Login gh in
    if bool_at known username then (Nil, s)
    else if has_key prs username then
      (Nil, (<[username := true]> known, delete username prs))
    else (Nil, (known, <[username := gh]> prs)).

Definition hasNewContributorLabel (gh : GitHubIssue) : bool :=
  existsb (fun label => String.eqb (label_Name label) "new-contributor") (Labels gh).

Section Congratulator_Do.
Context {W : Type} (ghc : Client W).

(** The order in which [range prs] yields the entries of the map: Go
    leaves it unspecified, so it is any enumeration of the map. *)
Variable range_prs : gmap string GitHubIssue -> list (string * GitHubIssue).
Hypothesis range_prs_perm : forall prs, range_prs prs ≡ₚ map_to_list prs.

(** One iteration of the second loop of [Do].  [Nil] is falling through
    to the next iteration (also by [continue]); any other ending leaves
    [Do]. *)
Definition welcome (msg : CongratsData -> result string) (id : GithubRepoID)
    (entry : string * GitHubIssue) (s : gmap string bool * Net W)
  : ending * (gmap string bool * Net W) :=
  let '(username, ghIssue) := entry in
  let '(known, net) := s in
  if Closed ghIssue then (Nil, (<[username := true]> known, net))
  else if hasNewContributorLabel ghIssue then (Nil, (<[username := true]> known, net))
  else
    let cdata := {| Username := User_Login ghIssue |} in
    match msg cdata with
    | Err err => (Error err, s)
    | Ok text =>
        let labels := ["new-contributor"] in
        match request (AddLabelsToIssue id (Number ghIssue) labels)
                (Issues_AddLabelsToIssue ghc id (Number ghIssue) labels) net with
        | (Some err, net1) => (Error err, (known, net1))
        | (None, net1) =>
            let comment := {| Body := text |} in
            match request (CreateComment id (Number ghIssue) comment)
                    (Issues_CreateComment ghc id (Number ghIssue) comment) net1 with
            | (Some err, net2) => (Error err, (known, net2))
            | (None, net2) => (Nil, (<[username := true]> known, net2))
            end
        end
    end.

Fixpoint welcome_all (msg : CongratsData -> result string) (id : GithubRepoID)
    (entries : list (string * GitHubIssue)) (s : gmap string bool * Net W)
  : ending * (gmap string bool * Net W) :=
  match entries with
  | [] => (Nil, s)
  | entry :: rest =>
      match welcome msg id entry s with
      | (Nil, s') => welcome_all msg id rest s'
      | stop => stop
      end
  end.

Definition Congratulator_Do (c : Congratulator) (repo : GitHubRepo) (net : Net W)
  : ending * Congratulator * Net W :=
  let id := ID repo in
  let '(err, (known, prs)) :=
    ForeachIssue scan_pr (issues repo) (knownContributors c, ∅) in
  match welcome_all (message c) id (range_prs prs) (known, net) with
  | (Nil, (known', net')) => (err, mkCongratulator (message c) known', net')
  | (stop, (known', net')) => (stop, mkCongratulator (message c) known', net')
  end.

End Congratulator_Do.

(** ** Channels of [struct{}]

    A channel value is [None] when nil.  Only the number of queued elements
    matters.  An operation that cannot proceed parks its goroutine. *)
Record Chan := mkChan {
  capacity : nat;
  queued : nat;
  is_closed : bool
}.

Definition make_chan (n : nat) : option Chan := Some (mkChan n 0 false).

Inductive chan_step : Type :=
| Proceeds (ch : option Chan)
| Parks
| ChanPanic (msg : string).

Definition chan_recv (ch : option Chan) : chan_step :=
  match ch with
  | None => Parks
  | Some c =>
      match queued c with
      | S n => Proceeds (Some (mkChan (capacity c) n (is_closed c)))
      | O => if is_closed c then Proceeds ch else Parks
      end
  end.

Definition chan_send (ch : option Chan) : chan_step :=
  match ch with
  | None => Parks
  | Some c =>
      if is_closed c then ChanPanic "send on closed channel"
      else if (queued c <? capacity c)%nat
      then Proceeds (Some (mkChan (capacity c) (S (queued c)) false))
      else Parks
  end.

Definition chan_close (ch : option Chan) : chan_step :=
  match ch with
  | None => ChanPanic "close of nil channel"
  | Some c =>
      if is_closed c then ChanPanic "close of closed channel"
      else Proceeds (Some (mkChan (capacity c) (queued c) true))
  end.

(** ** CLAChecker (tasks.go) *)

Record CLAChecker := mkCLAChecker {
  CanSkipCLA : option (PullRequest_ -> list CommitFile -> bool);
  signedCLAPRs : gmap Z bool;
  claURL : string;
  contributorsLoaded : option Chan;
  contributors : gmap string bool
}.

Definition set_signedCLAPRs (m : gmap Z bool) (c : CLAChecker) : CLAChecker :=
  mkCLAChecker (CanSkipCLA c) m (claURL c) (contributorsLoaded c) (contributors c).

Definition set_contributorsLoaded (ch : option Chan) (c : CLAChecker) : CLAChecker :=
  mkCLAChecker (CanSkipCLA c) (signedCLAPRs c) (claURL c) ch (contributors c).

Definition set_contributors (m : gmap string bool) (c : CLAChecker) : CLAChecker :=
  mkCLAChecker (CanSkipCLA c) (signedCLAPRs c) (claURL c) (contributorsLoaded c) m.

Definition NewCLAChecker (claURL : string) : CLAChecker :=
  mkCLAChecker None ∅ claURL None ∅.

Definition nil_dereference : string :=
  "invalid memory address or nil pointer dereference".

Section CLAChecker_Do.
Context {W : Type} (ghc : Client W).

(** The status that [postStatus] builds for [state], if any. *)
Definition build_status (c : CLAChecker) (state : string) : option RepoStatus :=
  let sr := {| State := Some state; Context := Some "cla-bot";
               Description := None; TargetURL := None |} in
  if String.eqb state "failure" then
    Some {| State := State sr; Context := Context sr;
            Description := Some "Contributor has not signed the CLA";
            TargetURL := Some (claURL c) |}
  else if String.eqb state "unnecessary" then
    Some {| State := Some "success"; Context := Context sr;
            Description := Some "Changes do not require CLA submission";
            TargetURL := TargetURL sr |}
  else if String.eqb state "success" then
    Some {| State := State sr; Context := Context sr;
            Description := Some "Contributor has signed the CLA";
            TargetURL := TargetURL sr |}
  else None.

Definition postStatus (c : CLAChecker) (id : GithubRepoID) (sha state : string)
    (net : Net W) : outcome RepoStatus * Net W :=
  match build_status c state with
  | None => (Panics ("unknown state " ++ state), net)
  | Some sr =>
      let '(r, net') :=
        request (CreateStatus id sha sr) (Repositories_CreateStatus ghc id sha sr) net in
      (Returns r, net')
  end.

(** [postStatus(ctx, owner, repoName, *pr.Head.SHA, state)]: the
    dereference comes first and panics on nil. *)
Definition post_at_head (c : CLAChecker) (id : GithubRepoID) (pr : PullRequest_)
    (state : string) (net : Net W) : outcome RepoStatus * Net W :=
  match Head_SHA pr with
  | None => (Panics nil_dereference, net)
  | Some sha => postStatus c id sha state net
  end.

(** The loop over [statuses] in the branch of a signed or exempt author:
    the first status of context "cla-bot" decides; [None] when the loop
    runs to its end. *)
Fixpoint signed_loop (c : CLAChecker) (id : GithubRepoID) (gh : GitHubIssue)
    (pr : PullRequest_) (postStatusState : string) (statuses : list RepoStatus)
    (net : Net W) : option (ending * (CLAChecker * Net W)) :=
  match statuses with
  | [] => None
  | st :: rest =>
      if String.eqb (GetContext st) "cla-bot" then
        let state := GetState st in
        if String.eqb state "success" then
          Some (Nil, (set_signedCLAPRs (<[Number gh := true]> (signedCLAPRs c)) c, net))
        else
          match post_at_head c id pr postStatusState net with
          | (Returns (Err err), net') => Some (Error err, (c, net'))
          | (Returns (Ok _), net') => Some (Nil, (c, net'))
          | (Panics msg, net') => Some (Panic msg, (c, net'))
          end
      else signed_loop c id gh pr postStatusState rest net
  end.

Fixpoint foundStatus (statuses : list RepoStatus) : bool :=
  match statuses with
  | [] => false
  | st :: rest =>
      if String.eqb (GetContext st) "cla-bot" && String.eqb (GetState st) "failure"
      then true
      else foundStatus rest
  end.

(** Lines 261 to 307 of the callback: what is done once the pull request,
    its files and its statuses have been fetched; [ok] tells whether the
    author is in the contributor list. *)
Definition apply_policy (c : CLAChecker) (id : GithubRepoID) (gh : GitHubIssue)
    (ok : bool) (pr : PullRequest_) (files : list CommitFile)
    (statuses : list RepoStatus) (net : Net W)
  : ending * (CLAChecker * Net W) :=
  let canSkipCLA :=
    match CanSkipCLA c with
    | None => false
    | Some can => can pr files
    end in
  if ok || canSkipCLA then
    let postStatusState := if canSkipCLA then "unnecessary" else "success" in
    match signed_loop c id gh pr postStatusState statuses net with
    | Some ret => ret
    | None =>
        match post_at_head c id pr postStatusState net with
        | (Returns (Err err), net') => (Error err, (c, net'))
        | (Returns (Ok _), net') => (Nil, (c, net'))
        | (Panics msg, net') => (Panic msg, (c, net'))
        end
    end
  else if foundStatus statuses then (Nil, (c, net))
  else
    match post_at_head c id pr "failure" net with
    | (Returns (Err err), net') => (Fatal err, (c, net'))
    | (Returns (Ok _), net') => (Nil, (c, net'))
    | (Panics msg, net') => (Panic msg, (c, net'))
    end.

(** The callback that [Do] hands to [ForeachIssue]. *)
Definition check_pr (id : GithubRepoID) (gh : GitHubIssue) (s : CLAChecker * Net W)
  : ending * (CLAChecker * Net W) :=
  let '(c, net) := s in
  if NotExist gh then (Nil, s)
  else if negb (PullRequest gh) then (Nil, s)
  else if Closed gh then (Nil, s)
  else if has_key (signedCLAPRs c) (Number gh) then (Nil, s)
  else
    match chan_recv (contributorsLoaded c) with
    | Parks => (Blocked, s)
    | ChanPanic msg => (Panic msg, s)
    | Proceeds ch =>
        let c := set_contributorsLoaded ch c in
        let ok := has_key (contributors c) (User_Login gh) in
        match request (Get id (Number gh)) (PullRequests_Get ghc id (Number gh)) net with
        | (Err err, net) => (Error err, (c, net))
        | (Ok pr, net) =>
        match request (ListFiles id (Number gh))
                (PullRequests_ListFiles ghc id (Number gh)) net with
        | (Err err, net) => (Error err, (c, net))
        | (Ok files, net) =>
        match request (ListStatuses id (GetSHA pr))
                (Repositories_ListStatuses ghc id (GetSHA pr)) net with
        | (Err err, net) => (Error err, (c, net))
        | (Ok statuses, net) => apply_policy c id gh ok pr files statuses net
        end end end
    end.

Definition CLAChecker_Do (c : CLAChecker) (repo : GitHubRepo) (net : Net W)
  : ending * (CLAChecker * Net W) :=
  ForeachIssue (check_pr (ID repo)) (issues repo) (c, net).

End CLAChecker_Do.

Definition StartFetch (c : CLAChecker) : CLAChecker :=
  set_contributorsLoaded (make_chan 1) c.

(** ** The refresh goroutine and the goroutine of [Do], interleaved

    [loadContributors] runs beside the bot loop.  Its control points and
    those of the part of [Do] that touches the shared fields
    ([contributorsLoaded], [contributors]) are made explicit; a schedule
    picks which goroutine moves next and supplies what the outside world
    answers at that step.  Replacing and reading [contributors] are single
    steps, as [contributorMu] makes them. *)
Inductive loader_pc : Type :=
| LFetch                       (* c.contributorFetcher.LoadContributors(ctx) *)
| LStore (cs : list string)    (* c.contributors = contributorMap *)
| LSend                        (* c.contributorsLoaded <- struct{}{} *)
| LClose                       (* close(c.contributorsLoaded) *)
| LMark                        (* sentContributors = true *)
| LSelect                      (* select on ctx.Done() *)
| LTick                        (* <-ticker.C *)
| LReturned
| LCrashed.

Inductive checker_pc : Type :=
| CRecv                        (* <-c.contributorsLoaded *)
| CRead.                       (* _, ok := c.contributors[gh.User.Login] *)

Inductive Event : Type :=
| Stored (cs : list string)    (* the contributor map was replaced *)
| Signalled                    (* a value was sent on contributorsLoaded *)
| ClosedChan
| Consulted (login : string) (ok : bool).

Record System := mkSystem {
  checker : CLAChecker;
  lpc : loader_pc;
  sentContributors : bool;
  cpc : checker_pc;
  events : list Event
}.

Inductive Choice : Type :=
| Loader (fetched : outcome (list string)) (cancelled : bool)
| Checker (login : string).

Definition contributorMap (cs : list string) : gmap string bool :=
  fold_left (fun m login => <[login := true]> m) cs ∅.

Definition emit (e : Event) (s : System) : list Event := (events s ++ [e])%list.

(** One step of [loadContributors]; [None] when it cannot move. *)
Definition loader_step (fetched : outcome (list string)) (cancelled : bool)
    (s : System) : option System :=
  let c := checker s in
  match lpc s with
  | LFetch =>
      match fetched with
      | Returns (Err _) => Some (mkSystem c LTick (sentContributors s) (cpc s) (events s))
      | Returns (Ok cs) => Some (mkSystem c (LStore cs) (sentContributors s) (cpc s) (events s))
      | Panics _ => Some (mkSystem c LCrashed (sentContributors s) (cpc s) (events s))
      end
  | LStore cs =>
      let c' := set_contributors (contributorMap cs) c in
      Some (mkSystem c' (if sentContributors s then LSelect else LSend)
              (sentContributors s) (cpc s) (emit (Stored cs) s))
  | LSend =>
      match chan_send (contributorsLoaded c) with
      | Proceeds ch =>
          Some (mkSystem (set_contributorsLoaded ch c) LClose
                  (sentContributors s) (cpc s) (emit Signalled s))
      | Parks => None
      | ChanPanic _ => Some (mkSystem c LCrashed (sentContributors s) (cpc s) (events s))
      end
  | LClose =>
      match chan_close (contributorsLoaded c) with
      | Proceeds ch =>
          Some (mkSystem (set_contributorsLoaded ch c) LMark
                  (sentContributors s) (cpc s) (emit ClosedChan s))
      | Parks => None
      | ChanPanic _ => Some (mkSystem c LCrashed (sentContributors s) (cpc s) (events s))
      end
  | LMark => Some (mkSystem c LSelect true (cpc s) (events s))
  | LSelect =>
      Some (mkSystem c (if cancelled then LReturned else LTick)
              (sentContributors s) (cpc s) (events s))
  | LTick => Some (mkSystem c LFetch (sentContributors s) (cpc s) (events s))
  | LReturned => None
  | LCrashed => None
  end.

(** One step of the goroutine inside [Do], for a pull request of [login]. *)
Definition checker_step (login : string) (s : System) : option System :=
  let c := checker s in
  match lpc s with
  | LCrashed => None
  | _ =>
      match cpc s with
      | CRecv =>
          match chan_recv (contributorsLoaded c) with
          | Proceeds ch =>
              Some (mkSystem (set_contributorsLoaded ch c) (lpc s)
                      (sentContributors s) CRead (events s))
          | _ => None
          end
      | CRead =>
          let ok := has_key (contributors c) login in
          Some (mkSystem c (lpc s) (sentContributors s) CRecv (emit (Consulted login ok) s))
      end
  end.

Definition sys_step (ch : Choice) (s : System) : System :=
  match ch with
  | Loader fetched cancelled => default s (loader_step fetched cancelled s)
  | Checker login => default s (checker_step login s)
  end.

Definition sys_run (schedule : list Choice) (s : System) : System :=
  fold_left (fun s ch => sys_step ch s) schedule s.

(** The state right after [NewCLAChecker] and [StartFetch]. *)
Definition sys_init (claURL : string) : System :=
  mkSystem (StartFetch (NewCLAChecker claURL)) LFetch false CRecv [].

(** ** The bot loop (maintainerbot.go) *)

Module maintner.
Definition ErrSplit : error := "maintner: branch split".

(** The corpus as the bot uses it: [Initialize] and [Sync] act on the
    state [S] of the system, [Repo_found] tells whether [Repo] returns a
    non-nil pointer and [Repo_view] gives what that pointer shows. *)
Record Corpus (S : Type) := mkCorpus {
  Initialize : S -> option error * S;
  Repo_found : S -> bool;
  Repo_view : S -> GitHubRepo;
  Sync : S -> option error * S
}.
Arguments Initialize {S} _ _.
Arguments Repo_found {S} _ _.
Arguments Repo_view {S} _ _.
Arguments Sync {S} _ _.
End maintner.

Inductive BotEvent : Type :=
| Did (i : nat)                (* b.tasks[i].Do was called *)
| Logged (msg : string)
| Slept.

Section Bot.
Context {S : Type} (corpus : maintner.Corpus S).

(** [Do(ctx, repo)] of a task, acting on the state of the system. *)
Definition Task : Type := GitHubRepo -> S -> ending * S.

Record Bot := mkBot { tasks : list Task }.

Definition RegisterTask (b : Bot) (t : Task) : Bot :=
  mkBot (tasks b ++ [t])%list.

Fixpoint doTasks_from (i : nat) (ts : list Task) (s : S) (log : list BotEvent)
  : ending * S * list BotEvent :=
  match ts with
  | [] => (Nil, s, log)
  | t :: rest =>
      match t (maintner.Repo_view corpus s) s with
      | (Nil, s') => doTasks_from (Datatypes.S i) rest s' (log ++ [Did i])%list
      | (stop, s') => (stop, s', (log ++ [Did i])%list)
      end
  end.

Definition doTasks (b : Bot) (s : S) (log : list BotEvent)
  : ending * S * list BotEvent :=
  doTasks_from 0 (tasks b) s log.

Definition initCorpus (s : S) (log : list BotEvent) : ending * S * list BotEvent :=
  match maintner.Initialize corpus s with
  | (Some err, s') => (Fatal err, s', (log ++ [Logged err])%list)
  | (None, s') =>
      let log := (log ++ [Logged "Loaded data"])%list in
      if maintner.Repo_found corpus s' then (Nil, s', log)
      else (Fatal "Failed to find repo in Corpus.", s',
            (log ++ [Logged "Failed to find repo in Corpus."])%list)
  end.

(** The inner [for] of [Run]; [None] when [retries] attempts did not
    bring an update. *)
Fixpoint sync_loop (retries : nat) (s : S) (log : list BotEvent)
  : option (ending * S * list BotEvent) :=
  match retries with
  | O => None
  | Datatypes.S retries' =>
      match maintner.Sync corpus s with
      | (None, s') => Some (Nil, s', (log ++ [Logged "got corpus update"])%list)
      | (Some err, s') =>
          if String.eqb err maintner.ErrSplit then
            match initCorpus s' (log ++ [Logged "Corpus out of sync. Re-fetching corpus."])%list with
            | (Nil, s'', log') => Some (Nil, s'', (log' ++ [Logged "got corpus update"])%list)
            | stop => Some stop
            end
          else
            sync_loop retries' s'
              (log ++ [Logged ("corpus.Sync: " ++ err ++ "; sleeping 15s"); Slept])%list
      end
  end.

(** One pass through the body of the outer [for] of [Run]. *)
Definition cycle (retries : nat) (b : Bot) (s : S) (log : list BotEvent)
  : option (ending * S * list BotEvent) :=
  match doTasks b s log with
  | (Nil, s', log') => sync_loop retries s' (log' ++ [Logged "maintainerbot ran"])%list
  | (Error err, s', log') =>
      sync_loop retries s' (log' ++ [Logged err; Logged "maintainerbot ran"])%list
  | stop => Some stop
  end.

Fixpoint cycles (ticks retries : nat) (b : Bot) (s : S) (log : list BotEvent)
  : option (ending * S * list BotEvent) :=
  match ticks with
  | O => Some (Nil, s, log)
  | Datatypes.S ticks' =>
      match cycle retries b s log with
      | Some (Nil, s', log') => cycles ticks' retries b s' log'
      | other => other
      end
  end.

(** [Run], cut after [ticks] passes of its loop, which has no exit. *)
Definition Run (ticks retries : nat) (b : Bot) (s : S)
  : option (ending * S * list BotEvent) :=
  match initCorpus s [] with
  | (Nil, s', log) => cycles ticks retries b s' log
  | stop => Some stop
  end.

End Bot.

(** ** Reference notions for the spreadsheet fetcher *)

(** A header cell matches the configured column name. *)
Definition matches (L : strings.Lib) (columnName cell : string) : bool :=
  strings.Contains (strings.ToLower L cell) (strings.ToLower L columnName).



(** The trimmed, non-empty cells of column [k], in row order. *)
Definition column_values (L : strings.Lib) (k : nat) (rows : list (list string))
  : list string :=
  List.filter (fun e => negb (String.eqb e EmptyString))
    (List.map (fun r => strings.TrimSpace L (nth k r EmptyString)) rows).

(** Every cell of every record of the file is ASCII. *)
Definition file_is_ascii (file : csv.file) : bool :=
  forallb (fun l => match l with
                    | csv.Fields fs => forallb strings.is_ascii fs
                    | csv.ParseError _ => true
                    end) file.

(** ** Sample inputs *)

Definition sheet_with_names : csv.file :=
  [ csv.Fields ["Name"; "GitHub Username"];
    csv.Fields ["Kevin Burke"; "kevinburke"] ].

(** A bot whose first task fails and whose second counts its calls. *)
Definition still_corpus : maintner.Corpus nat :=
  maintner.mkCorpus nat
    (fun s => (None, s)) (fun _ => true)
    (fun _ => mkRepo (mkRepoID "rails" "rails") [])
    (fun s => (None, s)).

Definition failing_task : Task := fun (_ : GitHubRepo) (s : nat) => (Error "boom", s).
Definition counting_task : Task := fun (_ : GitHubRepo) (s : nat) => (Nil, Datatypes.S s).

Definition two_task_bot : Bot :=
  RegisterTask (RegisterTask (mkBot []) failing_task) counting_task.

(** ** Reference notions for the Congratulator *)

(** [gh] is a live (existing) pull request opened by [u]. *)
Definition live_by (u : string) (gh : GitHubIssue) : bool :=
  negb (NotExist gh) && PullRequest gh && String.eqb (User_Login gh) u.

(** The request [c] addresses issue or pull request number [n]. *)
Definition targets (c : Call) (n : Z) : bool :=
  match c with
  | AddLabelsToIssue _ m _ => m =? n
  | CreateComment _ m _ => m =? n
  | Get _ m => m =? n
  | ListFiles _ m => m =? n
  | ListStatuses _ _ => false
  | CreateStatus _ _ _ => false
  end.

(** A repository with one first pull request (alice) and an author with
    two (bob), and a GitHub on which labels can be added while comments
    are refused. *)
Definition rails : GithubRepoID := mkRepoID "rails" "rails".

Definition comments_refused : Client unit :=
  mkClient unit
    (fun _ _ _ w => (None, w))
    (fun _ _ _ w => (Some "comment refused", w))
    (fun _ _ w => (Err "not served", w))
    (fun _ _ w => (Err "not served", w))
    (fun _ _ w => (Err "not served", w))
    (fun _ _ _ w => (Err "not served", w)).

Definition pr_alice : GitHubIssue := mkIssue 7 false true false "alice" [].
Definition pr_bob_1 : GitHubIssue := mkIssue 8 false true false "bob" [].
Definition pr_bob_2 : GitHubIssue := mkIssue 9 false true false "bob" [].

Definition repo_alice_bob : GitHubRepo := mkRepo rails [pr_alice; pr_bob_1; pr_bob_2].

Definition congrats : Congratulator :=
  mkCongratulator (fun d => Ok ("Congrats on your first PR, @" ++ Username d ++ "!")) ∅.

(** ** Reference notions and sample inputs for the CLA checker *)

(** [CanSkipCLA != nil && CanSkipCLA(pr, files)]. *)
Definition exempt (c : CLAChecker) (pr : PullRequest_) (files : list CommitFile) : bool :=
  match CanSkipCLA c with
  | None => false
  | Some can => can pr files
  end.

Definition is_cla_bot (st : RepoStatus) : Prop := GetContext st = "cla-bot".

Definition is_failing_cla_bot (st : RepoStatus) : Prop :=
  GetContext st = "cla-bot" /\ GetState st = "failure".

(** The three requests by which [Do] reads a pull request. *)
Definition reads (id : GithubRepoID) (number : Z) (sha : string) : list Call :=
  [Get id number; ListFiles id number; ListStatuses id sha].

(** A GitHub that keeps the statuses posted on the one head commit of its
    pull requests, newest first. *)
Definition github_statuses : Client (list RepoStatus) :=
  mkClient (list RepoStatus)
    (fun _ _ _ w => (None, w))
    (fun _ _ _ w => (None, w))
    (fun _ _ w => (Ok (mkPR (Some "abc123") "a change"), w))
    (fun _ _ w => (Ok [mkCommitFile "main.go" 100 20], w))
    (fun _ _ w => (Ok w, w))
    (fun _ _ sr w => (Ok sr, sr :: w)).

(** The same, but posting a status is refused. *)
Definition statuses_refused : Client (list RepoStatus) :=
  mkClient (list RepoStatus)
    (fun _ _ _ w => (None, w))
    (fun _ _ _ w => (None, w))
    (fun _ _ w => (Ok (mkPR (Some "abc123") "a change"), w))
    (fun _ _ w => (Ok [mkCommitFile "main.go" 100 20], w))
    (fun _ _ w => (Ok w, w))
    (fun _ _ _ w => (Err "status refused", w)).

(** A checker whose contributor list (alice) has been loaded: the channel
    has been sent on and closed. *)
Definition checker_ready : CLAChecker :=
  mkCLAChecker None ∅ "https://example.com/cla" (Some (mkChan 1 1 true))
    {["alice" := true]}.

Definition pr_mallory : GitHubIssue := mkIssue 11 false true false "mallory" [].

Definition cla_success : RepoStatus :=
  {| State := Some "success"; Context := Some "cla-bot";
     Description := Some "Contributor has signed the CLA"; TargetURL := None |}.

Definition cla_failure (c : CLAChecker) : RepoStatus :=
  {| State := Some "failure"; Context := Some "cla-bot";
     Description := Some "Contributor has not signed the CLA";
     TargetURL := Some (claURL c) |}.

(** ** Reference notions for the readiness signal *)

Definition is_signal (e : Event) : bool :=
  match e with Signalled => true | _ => false end.

(** Number of values sent on [contributorsLoaded]. *)
Definition signals (es : list Event) : nat := length (List.filter is_signal es).

(** Every send on [contributorsLoaded] comes when the contributor map has
    been stored exactly once; [stored] counts the stores so far. *)
Fixpoint signalled_on_first_load (stored : nat) (es : list Event) : bool :=
  match es with
  | [] => true
  | Stored _ :: rest => signalled_on_first_load (Datatypes.S stored) rest
  | Signalled :: rest => (stored =? 1)%nat && signalled_on_first_load stored rest
  | _ :: rest => signalled_on_first_load stored rest
  end.

(** Every lookup in the contributor map comes after a store and after the
    send; [ready] tells whether both have happened. *)
Fixpoint consulted_when_ready (stored sent_ : bool) (es : list Event) : bool :=
  match es with
  | [] => true
  | Stored _ :: rest => consulted_when_ready true sent_ rest
  | Signalled :: rest => consulted_when_ready stored true rest
  | Consulted _ _ :: rest => stored && sent_ && consulted_when_ready stored sent_ rest
  | ClosedChan :: rest => consulted_when_ready stored sent_ rest
  end.

(** The four stages the two goroutines go through, as an invariant of
    every reachable state. *)
Definition signalled_once (s : System) : Prop :=
  exists cs rest,
    events s = Stored cs :: Signalled :: rest /\
    Forall (fun e => is_signal e = false) rest.

Definition loader_idle (pc : loader_pc) : Prop :=
  match pc with
  | LSend | LClose | LMark => False
  | _ => True
  end.

Definition stage_loading (s : System) : Prop :=
  events s = [] /\
  contributorsLoaded (checker s) = Some (mkChan 1 0 false) /\
  cpc s = CRecv /\ sentContributors s = false /\ loader_idle (lpc s) /\
  lpc s <> LSelect /\ lpc s <> LReturned.

Definition stage_stored (s : System) : Prop :=
  (exists cs, events s = [Stored cs]) /\
  contributorsLoaded (checker s) = Some (mkChan 1 0 false) /\
  cpc s = CRecv /\ sentContributors s = false /\ lpc s = LSend.

Definition stage_sent (s : System) : Prop :=
  signalled_once s /\
  (exists q, contributorsLoaded (checker s) = Some (mkChan 1 q false)) /\
  sentContributors s = false /\ lpc s = LClose.

Definition stage_closed (s : System) : Prop :=
  signalled_once s /\
  (exists q, contributorsLoaded (checker s) = Some (mkChan 1 q true)) /\
  ((sentContributors s = false /\ lpc s = LMark) \/
   (sentContributors s = true /\ loader_idle (lpc s))).

Definition reachable_shape (s : System) : Prop :=
  stage_loading s \/ stage_stored s \/ stage_sent s \/ stage_closed s.

(** ** Invariants of the first loop of the Congratulator *)

(** What the first loop of [Do] keeps true of the cache and of [prs]:
    every entry of [prs] is a pull request of the snapshot filed under its
    author, and that author is not in the cache. *)
Definition scan_ok (seen : list GitHubIssue) (s : gmap string bool * gmap string GitHubIssue) : Prop :=
  forall k gh, s.2 !! k = Some gh ->
    bool_at s.1 k = false /\ User_Login gh = k /\ In gh seen.

(** An author already in the cache stays there and stays out of [prs]. *)
Definition settled (u : string) (s : gmap string bool * gmap string GitHubIssue) : Prop :=
  bool_at s.1 u = true /\ s.2 !! u = None.

(** ** Reference notions for the further properties *)

(** [s] is empty or begins with a byte that is not white space. *)
Definition starts_unspaced (s : string) : Prop :=
  match s with
  | EmptyString => True
  | String c _ => strings.isSpace c = false
  end.

Definition fields_of (l : csv.line) : list string :=
  match l with
  | csv.Fields fs => fs
  | csv.ParseError _ => []
  end.

Definition is_Did (e : BotEvent) : bool :=
  match e with Did _ => true | _ => false end.

(** The calls of tasks recorded in a log of the bot. *)
Definition calls_of (log : list BotEvent) : list BotEvent := List.filter is_Did log.

(** A corpus whose update always fails with an error other than
    [ErrSplit]. *)
Definition offline_corpus : maintner.Corpus nat :=
  maintner.mkCorpus nat
    (fun s => (None, s)) (fun _ => true)
    (fun _ => mkRepo (mkRepoID "rails" "rails") [])
    (fun s => (Some "connection refused", Datatypes.S s)).

(** A corpus that does not know the repository. *)
Definition empty_corpus : maintner.Corpus nat :=
  maintner.mkCorpus nat
    (fun s => (None, s)) (fun _ => false)
    (fun _ => mkRepo (mkRepoID "rails" "rails") [])
    (fun s => (None, s)).

(** The requests that one iteration of the second loop of
    [Congratulator.Do] sends when nothing fails. *)
Definition welcome_requests (msg : CongratsData -> result string) (id : GithubRepoID)
    (entry : string * GitHubIssue) : list Call :=
  let gh := entry.2 in
  if Closed gh || hasNewContributorLabel gh then []
  else
    match msg {| Username := User_Login gh |} with
    | Ok text =>
        [AddLabelsToIssue id (Number gh) ["new-contributor"];
         CreateComment id (Number gh) {| Body := text |}]
    | Err _ => []
    end.

(** The cache and the candidates after the first loop of
    [Congratulator.Do]. *)
Definition scanned (c : Congratulator) (repo : GitHubRepo)
  : gmap string bool * gmap string GitHubIssue :=
  (ForeachIssue scan_pr (issues repo) (knownContributors c, ∅)).2.

Definition is_live_pr (gh : GitHubIssue) : bool :=
  negb (NotExist gh) && PullRequest gh.

(** A GitHub that accepts every request. *)
Definition github_accepts : Client unit :=
  mkClient unit
    (fun _ _ _ w => (None, w))
    (fun _ _ _ w => (None, w))
    (fun _ _ w => (Err "not served", w))
    (fun _ _ w => (Err "not served", w))
    (fun _ _ w => (Err "not served", w))
    (fun _ _ _ w => (Err "not served", w)).

(** [Do] goes past the first four tests of its callback for [gh]: the pull
    request exists, is open and is not in the signed-CLA cache. *)
Definition to_check (c : CLAChecker) (gh : GitHubIssue) : bool :=
  negb (NotExist gh) && PullRequest gh && negb (Closed gh)
  && negb (has_key (signedCLAPRs c) (Number gh)).

Definition open_live_pr (gh : GitHubIssue) : bool :=
  negb (NotExist gh) && PullRequest gh && negb (Closed gh).

(** A status as [postStatus] builds them: context "cla-bot", and either
    "success" without a target or "failure" with the CLA URL as target. *)
Definition cla_status (c : CLAChecker) (sr : RepoStatus) : Prop :=
  Context sr = Some "cla-bot" /\
  ((State sr = Some "success" /\ TargetURL sr = None) \/
   (State sr = Some "failure" /\ TargetURL sr = Some (claURL c))).

(** The requests of one visit of [Do] to [gh]: none; or, for a pull
    request that exists and is open, the reads of the pull request, of its
    files and of the statuses of a commit, in this order and cut after
    the first that fails, followed by at most one status, posted on that
    same commit. *)
Definition visit_requests (c : CLAChecker) (id : GithubRepoID) (gh : GitHubIssue)
    (seg : list Call) : Prop :=
  seg = [] \/
  (open_live_pr gh = true /\
   (seg = [Get id (Number gh)] \/
    seg = [Get id (Number gh); ListFiles id (Number gh)] \/
    exists sha,
      seg = [Get id (Number gh); ListFiles id (Number gh); ListStatuses id sha] \/
      exists sr,
        cla_status c sr /\
        seg = [Get id (Number gh); ListFiles id (Number gh); ListStatuses id sha;
               CreateStatus id sha sr])).

Definition cla_unnecessary : RepoStatus :=
  {| State := Some "success"; Context := Some "cla-bot";
     Description := Some "Changes do not require CLA submission"; TargetURL := None |}.

(** A GitHub on which reading a pull request fails. *)
Definition github_down : Client (list RepoStatus) :=
  mkClient (list RepoStatus)
    (fun _ _ _ w => (None, w))
    (fun _ _ _ w => (None, w))
    (fun _ _ w => (Err "502 Bad Gateway", w))
    (fun _ _ w => (Ok [mkCommitFile "main.go" 100 20], w))
    (fun _ _ w => (Ok w, w))
    (fun _ _ sr w => (Ok sr, sr :: w)).

(** A checker like [checker_ready] for which every change is exempt. *)
Definition checker_lenient : CLAChecker :=
  mkCLAChecker (Some (fun _ _ => true)) ∅ "https://example.com/cla"
    (Some (mkChan 1 1 true)) {["alice" := true]}.

Definition in_list (login : string) (cs : list string) : bool :=
  existsb (String.eqb login) cs.

(** Replays a trace: the list stored last, and whether every lookup so
    far answered membership in the list stored last before it. *)
Definition audit_step (st : list string * bool) (e : Event) : list string * bool :=
  match e with
  | Stored cs => (cs, st.2)
  | Consulted login ok => (st.1, st.2 && Bool.eqb ok (in_list login st.1))
  | _ => st
  end.

Definition lookup_audit (es : list Event) : list string * bool :=
  fold_left audit_step es ([], true).

Definition fetch_panics (ch : Choice) : bool :=
  match ch with
  | Loader (Panics _) _ => true
  | _ => false
  end.

(** ** The sgbot command (examples/sgbot)

    Two more functions of package [strings], as the command calls them:
    [HasSuffix], and [SplitN] with a count of 2 and a separator that is not
    empty (the string is cut at the first occurrence of the separator). *)
Fixpoint HasSuffix (s suffix : string) : bool :=
  String.eqb s suffix ||
  match s with
  | EmptyString => false
  | String _ s' => HasSuffix s' suffix
  end.

Fixpoint string_drop (n : nat) (s : string) : string :=
  match n, s with
  | O, _ => s
  | Datatypes.S n', String _ s' => string_drop n' s'
  | Datatypes.S _, EmptyString => EmptyString
  end.

Fixpoint split_first (s sep : string) : option (string * string) :=
  if String.prefix sep s then Some (EmptyString, string_drop (String.length sep) s)
  else
    match s with
    | EmptyString => None
    | String c s' =>
        match split_first s' sep with
        | Some (a, b) => Some (String c a, b)
        | None => None
        end
    end.

Definition SplitN_2 (s sep : string) : list string :=
  match split_first s sep with
  | Some (a, b) => [a; b]
  | None => [s]
  end.

(** [getGithubToken]: [env] is what [os.LookupEnv] finds for GITHUB_TOKEN,
    [file] what [os.ReadFile] gives for the token file, [quote] the
    rendering of [%q]. *)
Definition getGithubToken (L : strings.Lib) (env : option string) (file : result string)
    (quote : string -> string) : result string :=
  match env with
  | Some token => Ok token
  | None =>
      match file with
      | Err err => Err err
      | Ok slurp =>
          let f := SplitN_2 (strings.TrimSpace L slurp) ":" in
          match f with
          | [f0; f1] =>
              if String.eqb f0 EmptyString || String.eqb f1 EmptyString
              then Err ("Expected token " ++ quote slurp
                        ++ " to be of form <username>:<token>")
              else Ok f1
          | _ => Err ("Expected token " ++ quote slurp
                      ++ " to be of form <username>:<token>")
          end
      end
  end.

(** The test of the [-repo] flag in [main]: [Err] stands for the call of
    [log.Fatalf]. *)
Definition split_repo (githubRepo : string) : result (string * string) :=
  let splits := SplitN_2 githubRepo "/" in
  match splits with
  | [owner; name] =>
      if String.eqb name EmptyString
      then Err ("Invalid github repo: " ++ githubRepo ++ ". Should be 'owner/repo'")
      else Ok (owner, name)
  | _ => Err ("Invalid github repo: " ++ githubRepo ++ ". Should be 'owner/repo'")
  end.

(** Go's [int] on the 64-bit targets. *)
Definition wrap_int (z : Z) : Z := (z + 2 ^ 63) mod 2 ^ 64 - 2 ^ 63.

Fixpoint hasOnlyMarkdownFiles (files : list CommitFile) : bool :=
  match files with
  | [] => true
  | f :: rest =>
      if negb (HasSuffix (Filename f) ".md") then false
      else hasOnlyMarkdownFiles rest
  end.

(** A call of a Go function that either returns a value or panics. *)
Inductive call (A : Type) : Type :=
| Value (a : A)
| Panicked (msg : string).
Arguments Value {A} a.
Arguments Panicked {A} msg.

(** The predicate [main] installs as [CanSkipCLA].  [pr] is a pointer and
    [files] a slice: [None] is nil, [Some []] the empty slice that is not
    nil.  An element of [files] is given by what [GetFilename] returns for
    it.  [GetAdditions] and [GetDeletions] are the accessors of go-github
    for the line counts of the pull request; their sum is taken in [int],
    where it wraps around. *)
Definition sgbot_CanSkipCLA (GetAdditions GetDeletions : PullRequest_ -> Z)
    (pr : option PullRequest_) (files : option (list CommitFile)) : call bool :=
  match pr, files with
  | Some pr, Some files =>
      if wrap_int (GetAdditions pr + GetDeletions pr) <=? 15 then Value true
      else Value (hasOnlyMarkdownFiles files)
  | _, _ => Panicked "nil PR or nil files in CanSkipCLA check; can't compare"
  end.

Definition has_byte (ch : ascii) (s : string) : Prop :=
  In ch (list_ascii_of_string s).

(** * Theorems *)

(** ** Spreadsheet fetcher *)

(** The ASCII instance of the library satisfies the laws. *)
Lemma trim_left_starts s : starts_unspaced (strings.trim_left s).
Proof.
  induction s as [|c s IH]; simpl; [exact I|].
  destruct (strings.isSpace c) eqn:E; [exact IH|]. simpl. exact E.
Qed.

Lemma trim_left_id s : starts_unspaced s -> strings.trim_left s = s.
Proof. destruct s as [|c s]; simpl; [reflexivity|]. by intros ->. Qed.

Lemma trim_right_idem s : strings.trim_right (strings.trim_right s) = strings.trim_right s.
Proof.
  induction s as [|c s IH]; simpl; [reflexivity|].
  destruct (strings.trim_right s) as [|c' r] eqn:E.
  - destruct (strings.isSpace c) eqn:Ec; simpl; [reflexivity|]. by rewrite Ec.
  - change (strings.trim_right (String c (String c' r))) with
      (match strings.trim_right (String c' r) with
       | EmptyString => if strings.isSpace c then EmptyString else String c EmptyString
       | r0 => String c r0
       end).
    by rewrite IH.
Qed.

Lemma trim_right_starts s : starts_unspaced s -> starts_unspaced (strings.trim_right s).
Proof.
  destruct s as [|c s]; simpl; [done|]. intros Hc.
  destruct (strings.trim_right s); [rewrite Hc|]; simpl; exact Hc.
Qed.

Lemma trim_ascii_idem s : strings.trim_ascii (strings.trim_ascii s) = strings.trim_ascii s.
Proof.
  unfold strings.trim_ascii.
  rewrite (trim_left_id (strings.trim_right (strings.trim_left s))).
  - apply trim_right_idem.
  - apply trim_right_starts, trim_left_starts.
Qed.

Lemma lower_byte_idem c : strings.lower_byte (strings.lower_byte c) = strings.lower_byte c.
Proof. destruct c as [[] [] [] [] [] [] [] []]; vm_compute; reflexivity. Qed.

Lemma lower_ascii_idem s : strings.lower_ascii (strings.lower_ascii s) = strings.lower_ascii s.
Proof. induction s as [|c s IH]; simpl; [reflexivity|]. by rewrite lower_byte_idem, IH. Qed.

Lemma ascii_laws : strings.Laws strings.ascii.
Proof.
  split; simpl; [done|done|apply lower_ascii_idem|apply trim_ascii_idem].
Qed.

(** What [ReadAll] returns on a reader whose field count is fixed: the
    records are exactly the unread lines, none is a parse error, and each
    has the fixed number of fields. *)
Lemma ReadAll_loop_ok lines n acc recs r' :
  0 < n ->
  csv.ReadAll_loop (length lines) (csv.mkReader lines n) acc = (Ok recs, r') ->
  exists new, recs = (acc ++ new)%list /\ lines = List.map csv.Fields new /\
              Forall (fun rec => Z.of_nat (length rec) = n) new.
Proof.
  intros Hn. revert acc. induction lines as [|l lines IH]; intros acc H.
  - simpl in H. injection H as <- _. exists []. by rewrite app_nil_r.
  - cbn [length csv.ReadAll_loop csv.unread] in H. unfold csv.Read in H.
    cbn [csv.unread csv.FieldsPerRecord] in H.
    destruct l as [fs|e]; [|discriminate H].
    destruct (0 <? n) eqn:E0; [|lia].
    destruct (Z.of_nat (length fs) =? n) eqn:El; [|discriminate H].
    apply IH in H as (new & -> & -> & Hall).
    exists (fs :: new). rewrite <- app_assoc. split_and!; [done|done|].
    constructor; [lia|done].
Qed.




Section Spreadsheet_facts.
Context (L : strings.Lib).



Lemma find_column_none record lcn i :
  0 <= i ->
  find_column L record lcn i = -1 ->
  forall cell, In cell record -> strings.Contains (strings.ToLower L cell) lcn = false.
Proof.
  revert i. induction record as [|c rest IH]; intros i Hi Hf cell Hin.
  - destruct Hin.
  - simpl in Hf. destruct (strings.Contains (strings.ToLower L c) lcn) eqn:E.
    + lia.
    + destruct Hin as [<-|Hin]; [exact E|].
      apply (IH (i + 1)); [lia|exact Hf|exact Hin].
Qed.

Lemma find_column_some record lcn i :
  0 <= i ->
  find_column L record lcn i <> -1 ->
  exists k cell,
    find_column L record lcn i = i + Z.of_nat k /\
    record !! k = Some cell /\
    strings.Contains (strings.ToLower L cell) lcn = true /\
    forall j c, (j < k)%nat -> record !! j = Some c ->
                strings.Contains (strings.ToLower L c) lcn = false.
Proof.
  revert i. induction record as [|c rest IH]; intros i Hi Hf.
  - simpl in Hf. congruence.
  - simpl in Hf |- *. destruct (strings.Contains (strings.ToLower L c) lcn) eqn:E.
    + exists 0%nat, c. repeat split; [lia|exact E|intros; lia].
    + destruct (IH (i + 1)) as (k & cell & Hk & Hl & Hc & Hmin); [lia|exact Hf|].
      exists (Datatypes.S k), cell. repeat split; [lia|exact Hl|exact Hc|].
      intros [|j] c' Hj Hl'; simpl in Hl'.
      * congruence.
      * apply (Hmin j); [lia|exact Hl'].
Qed.

Lemma collect_emails_values k rows acc :
  Forall (fun r => (k < length r)%nat) rows ->
  collect_emails L rows (Z.of_nat k) acc = Some (acc ++ column_values L k rows)%list.
Proof.
  revert acc. induction rows as [|r rows IH]; intros acc Hall.
  - simpl. by rewrite app_nil_r.
  - inversion Hall as [|? ? Hr Hrest]; subst. simpl.
    rewrite Nat2Z.id.
    destruct (lookup_lt_is_Some_2 r k Hr) as [cell Hcell].
    rewrite Hcell.
    assert (nth k r EmptyString = cell) as Hnth.
    { apply nth_lookup_Some with (d := EmptyString) in Hcell. exact Hcell. }
    unfold column_values. simpl. rewrite Hnth.
    destruct (String.eqb (strings.TrimSpace L cell) EmptyString) eqn:E; simpl.
    + apply IH. exact Hrest.
    + rewrite IH by exact Hrest. unfold column_values. by rewrite <- app_assoc.
Qed.



Hypothesis HL : strings.Laws L.

Lemma find_column_ascii record lcn i :
  forallb strings.is_ascii record = true ->
  find_column L record lcn i = find_column strings.ascii record lcn i.
Proof.
  revert i. induction record as [|c rest IH]; intros i H; simpl in *; [done|].
  apply andb_prop in H as [Hc Hrest].
  rewrite (strings.ToLower_ascii L HL c Hc). by rewrite IH.
Qed.

Lemma collect_emails_ascii records column acc :
  Forall (fun r => forallb strings.is_ascii r = true) records ->
  collect_emails L records column acc = collect_emails strings.ascii records column acc.
Proof.
  intros H. revert acc. induction H as [|r records Hr _ IH]; intros acc; simpl; [done|].
  destruct (r !! Z.to_nat column) as [cell|] eqn:Ec; [|done].
  assert (strings.is_ascii cell = true) as Hcell.
  { rewrite forallb_forall in Hr. apply Hr.
    apply list_elem_of_In. by apply list_elem_of_lookup_2 in Ec. }
  rewrite (strings.TrimSpace_ascii L HL cell Hcell). simpl. by rewrite !IH.
Qed.

(** On a file and a column name of ASCII bytes, [getUsernames] computes
    what it computes with the ASCII instance. *)
Lemma getUsernames_ascii file columnName :
  file_is_ascii file = true -> strings.is_ascii columnName = true ->
  getUsernames L file columnName = getUsernames strings.ascii file columnName.
Proof.
  intros Hfile Hname. unfold getUsernames, csv.NewReader, csv.Read.
  cbn [csv.unread csv.FieldsPerRecord].
  unfold file_is_ascii in Hfile. rewrite forallb_forall in Hfile.
  destruct file as [|[header|e] lines]; try reflexivity.
  cbn [Z.ltb Z.compare Z.eqb].
  pose proof (Hfile (csv.Fields header) (or_introl eq_refl)) as Hh.
  rewrite (strings.ToLower_ascii L HL columnName Hname).
  rewrite (find_column_ascii header _ 0 Hh).
  change (strings.ToLower strings.ascii columnName) with (strings.lower_ascii columnName).
  destruct (find_column strings.ascii header (strings.lower_ascii columnName) 0 =? -1) eqn:E;
    [reflexivity|].
  assert (find_column strings.ascii header (strings.lower_ascii columnName) 0 <> -1)
    as Hne by lia.
  assert (0 < Z.of_nat (length header)) as Hpos.
  { destruct header; [simpl in Hne; congruence|simpl; lia]. }
  unfold csv.ReadAll. cbn [csv.unread].
  destruct (csv.ReadAll_loop (length lines) _ []) as [[recs|e] r'] eqn:ER; [|reflexivity].
  apply ReadAll_loop_ok in ER as (rows & -> & -> & _); [|done].
  simpl app. rewrite collect_emails_ascii; [reflexivity|].
  apply Forall_forall. intros r Hr. apply list_elem_of_In in Hr.
  apply (Hfile (csv.Fields r)). right. by apply in_map.
Qed.
End Spreadsheet_facts.

Example TestGetUsernames (L : strings.Lib) (HL : strings.Laws L) :
  getUsernames L csvFile "github username"
  = Returns (Ok ["kevinburke"; "kevinburke_test"; "test"]).
Proof. rewrite (getUsernames_ascii L HL) by reflexivity. vm_compute. reflexivity. Qed.


(** C4: with an empty [ColumnName], [LoadContributors] computes the default
    name and then hands the empty name to [getUsernames], which matches the
    first header cell: the first column is returned, not the column named
    "GitHub Username". *)
Theorem LoadContributors_empty_ColumnName (L : strings.Lib) :
  strings.Laws L ->
  let s := {| sheetURL := "https://sheet"; ColumnName := EmptyString |} in
  LoadContributors L (fun _ => Ok sheet_with_names) s = Returns (Ok ["Kevin Burke"])
  /\ getUsernames L sheet_with_names "GitHub Username" = Returns (Ok ["kevinburke"]).
Proof.
  intros HL s. unfold LoadContributors. simpl.
  rewrite !(getUsernames_ascii L HL) by reflexivity.
  split; vm_compute; reflexivity.
Qed.

Lemma LoadContributors_empty_ColumnName_witness :
  LoadContributors strings.ascii (fun _ => Ok sheet_with_names)
    {| sheetURL := "https://sheet"; ColumnName := EmptyString |}
  = Returns (Ok ["Kevin Burke"])
  /\ getUsernames strings.ascii sheet_with_names "GitHub Username"
     = Returns (Ok ["kevinburke"]).
Proof.
  exact (LoadContributors_empty_ColumnName strings.ascii ascii_laws).
Defined.

(** ** Bot loop *)

Section Bot_facts.
Context {S : Type} (corpus : maintner.Corpus S).

Lemma doTasks_from_all_nil i (ts : list (@Task S)) s log s1 log1 :
  doTasks_from corpus i ts s log = (Nil, s1, log1) ->
  log1 = (log ++ List.map Did (seq i (length ts)))%list.
Proof.
  revert i s log. induction ts as [|t ts IH]; intros i s log H; simpl in H.
  - injection H as _ <-. simpl. by rewrite app_nil_r.
  - destruct (t (maintner.Repo_view corpus s) s) as [e s'] eqn:Et.
    destruct e; try discriminate H.
    apply IH in H. subst log1. simpl. by rewrite <- app_assoc.
Qed.

Lemma doTasks_from_app i (pre rest : list (@Task S)) s log s1 log1 :
  doTasks_from corpus i pre s log = (Nil, s1, log1) ->
  doTasks_from corpus i (pre ++ rest) s log
  = doTasks_from corpus (i + length pre) rest s1 log1.
Proof.
  revert i s log. induction pre as [|t pre IH]; intros i s log H; simpl in H.
  - injection H as <- <-. simpl. by rewrite Nat.add_0_r.
  - simpl. destruct (t (maintner.Repo_view corpus s) s) as [e s'] eqn:Et.
    destruct e; try discriminate H.
    rewrite (IH _ _ _ H). f_equal. lia.
Qed.

(** C1, as the code has it: [doTasks] calls the tasks in registration
    order up to the first one that returns an error, returns that error
    at once and calls none of the later tasks in that pass; [Run] logs
    the error and goes on to the corpus update. *)
Theorem doTasks_stops_at_first_error (b : Bot) (pre post : list Task) (t : Task)
    (s s1 s2 : S) (log1 : list BotEvent) (e : error) :
  tasks b = (pre ++ t :: post)%list ->
  doTasks corpus (mkBot pre) s [] = (Nil, s1, log1) ->
  t (maintner.Repo_view corpus s1) s1 = (Error e, s2) ->
  doTasks corpus b s [] = (Error e, s2, List.map Did (seq 0 (Datatypes.S (length pre))))
  /\ forall retries,
      cycle corpus retries b s []
      = sync_loop corpus retries s2
          (List.map Did (seq 0 (Datatypes.S (length pre)))
           ++ [Logged e; Logged "maintainerbot ran"])%list.
Proof.
  intros Htasks Hpre Ht.
  assert (doTasks corpus b s []
          = (Error e, s2, List.map Did (seq 0 (Datatypes.S (length pre))))) as Hdo.
  { unfold doTasks in *. simpl in Hpre. rewrite Htasks.
    rewrite (doTasks_from_app _ _ _ _ _ _ _ Hpre).
    rewrite seq_S, map_app. cbn [doTasks_from]. rewrite Ht.
    apply doTasks_from_all_nil in Hpre. subst log1. reflexivity. }
  split; [exact Hdo|].
  intros retries. unfold cycle. rewrite Hdo. reflexivity.
Qed.

End Bot_facts.

Lemma doTasks_stops_at_first_error_witness :
  doTasks still_corpus two_task_bot 0%nat [] = (Error "boom", 0%nat, [Did 0]).
Proof.
  apply (doTasks_stops_at_first_error still_corpus two_task_bot [] [counting_task]
           failing_task 0%nat 0%nat 0%nat [] "boom");
    reflexivity.
Defined.

(** C1 as stated fails: the second task is registered after a task that
    returns an error and is not called in that pass. *)
Lemma doTasks_skips_later_tasks :
  exists s log,
    cycle still_corpus 1 two_task_bot 0%nat [] = Some (Nil, s, log)
    /\ In (Did 0) log /\ In (Logged "boom") log /\ ~ In (Did 1) log /\ s = 0%nat.
Proof.
  eexists _, _. split; [vm_compute; reflexivity|].
  simpl. repeat split; try tauto.
  intros H. repeat (destruct H as [H|H]; [discriminate H|]). exact H.
Qed.

(** ** Congratulator *)

Lemma bool_at_insert_true (m : gmap string bool) k k' :
  bool_at m k' = true -> bool_at (<[k := true]> m) k' = true.
Proof.
  unfold bool_at. intros H. destruct (decide (k = k')) as [->|Hne].
  - by rewrite lookup_insert_eq.
  - by rewrite lookup_insert_ne.
Qed.

Lemma bool_at_insert_ne (m : gmap string bool) k k' b :
  k <> k' -> bool_at (<[k := b]> m) k' = bool_at m k'.
Proof. unfold bool_at. intros H. by rewrite lookup_insert_ne. Qed.

Lemma bool_at_insert_eq (m : gmap string bool) k b :
  bool_at (<[k := b]> m) k = b.
Proof. unfold bool_at. by rewrite lookup_insert_eq. Qed.

Lemma scan_pr_nil gh s : (scan_pr gh s).1 = Nil.
Proof.
  destruct s as [known prs]. unfold scan_pr.
  repeat match goal with |- context [if ?b then _ else _] => destruct b end; reflexivity.
Qed.

Lemma ForeachIssue_scan_nil l s : (ForeachIssue scan_pr l s).1 = Nil.
Proof.
  revert s. induction l as [|gh l IH]; intros s; simpl; [reflexivity|].
  pose proof (scan_pr_nil gh s) as H.
  destruct (scan_pr gh s) as [e s']. simpl in H. subst e. apply IH.
Qed.

Lemma scan_pr_ok seen gh s :
  scan_ok seen s -> scan_ok (seen ++ [gh]) (scan_pr gh s).2.
Proof.
  destruct s as [known prs]. intros Hok.
  assert (scan_ok (seen ++ [gh]) (known, prs)) as Hok'.
  { intros k g Hk. destruct (Hok k g Hk) as (? & ? & ?).
    repeat split; [done|done|]. apply in_or_app. by left. }
  unfold scan_pr.
  destruct (NotExist gh || negb (PullRequest gh)); [exact Hok'|].
  destruct (bool_at known (User_Login gh)) eqn:Ek; [exact Hok'|].
  unfold has_key. destruct (prs !! User_Login gh) as [old|] eqn:Ep; simpl.
  - intros k g Hk. simpl in Hk.
    destruct (decide (User_Login gh = k)) as [<-|Hne].
    + by rewrite lookup_delete_eq in Hk.
    + rewrite lookup_delete_ne in Hk by done.
      destruct (Hok' k g Hk) as (? & ? & ?). simpl in *.
      repeat split; [|done|done]. by rewrite bool_at_insert_ne.
  - intros k g Hk. simpl in Hk.
    destruct (decide (User_Login gh = k)) as [<-|Hne].
    + rewrite lookup_insert_eq in Hk. injection Hk as <-.
      repeat split; [done|]. apply in_or_app. right. by left.
    + rewrite lookup_insert_ne in Hk by done. exact (Hok' k g Hk).
Qed.

Lemma ForeachIssue_scan_ok l seen s :
  scan_ok seen s -> scan_ok (seen ++ l) (ForeachIssue scan_pr l s).2.
Proof.
  revert seen s. induction l as [|gh l IH]; intros seen s Hok; simpl.
  - by rewrite app_nil_r.
  - pose proof (scan_pr_nil gh s) as Hn.
    pose proof (scan_pr_ok seen gh s Hok) as Hs.
    destruct (scan_pr gh s) as [e s']. simpl in Hn, Hs. subst e.
    replace (seen ++ gh :: l)%list with ((seen ++ [gh]) ++ l)%list
      by (by rewrite <- app_assoc).
    by apply IH.
Qed.

Lemma scan_pr_other u gh s :
  live_by u gh = false ->
  bool_at (scan_pr gh s).2.1 u = bool_at s.1 u /\ (scan_pr gh s).2.2 !! u = s.2 !! u.
Proof.
  destruct s as [known prs]. unfold live_by, scan_pr. intros Hl.
  destruct (NotExist gh || negb (PullRequest gh)) eqn:E; [done|].
  assert (User_Login gh <> u) as Hne.
  { intros <-. rewrite String.eqb_refl in Hl.
    destruct (NotExist gh), (PullRequest gh); simpl in *; discriminate. }
  destruct (bool_at known (User_Login gh)); [done|].
  destruct (has_key prs (User_Login gh)); simpl.
  - by rewrite bool_at_insert_ne, lookup_delete_ne.
  - by rewrite lookup_insert_ne.
Qed.

Lemma scan_pr_live u gh s :
  live_by u gh = true ->
  let s' := (scan_pr gh s).2 in
  (bool_at s.1 u = true -> s' = s) /\
  (bool_at s.1 u = false -> is_Some (s.2 !! u) -> settled u s') /\
  (bool_at s.1 u = false -> s.2 !! u = None ->
     bool_at s'.1 u = false /\ is_Some (s'.2 !! u)).
Proof.
  destruct s as [known prs]. unfold live_by, scan_pr. intros Hl.
  apply andb_prop in Hl as [Hl Hu]. apply andb_prop in Hl as [Hn Hp].
  apply String.eqb_eq in Hu. subst u.
  destruct (NotExist gh); [discriminate|]. rewrite Hp. simpl.
  split; [|split].
  - intros ->. reflexivity.
  - intros Hk [g Hg]. rewrite Hk. unfold has_key. rewrite Hg. simpl. split.
    + apply bool_at_insert_eq.
    + apply lookup_delete_eq.
  - intros Hk Hg. rewrite Hk. unfold has_key. rewrite Hg. simpl. split.
    + exact Hk.
    + rewrite lookup_insert_eq. eauto.
Qed.

(** Two live pull requests of one author settle that author: the second
    one puts the author in the cache and takes the first out of [prs]. *)
Lemma ForeachIssue_scan_settles u l s :
  (bool_at s.1 u = true -> s.2 !! u = None) ->
  let s' := (ForeachIssue scan_pr l s).2 in
  (bool_at s.1 u = true -> settled u s') /\
  (is_Some (s.2 !! u) -> (1 <= length (List.filter (live_by u) l))%nat -> settled u s') /\
  ((2 <= length (List.filter (live_by u) l))%nat -> settled u s').
Proof.
  revert s. induction l as [|gh l IH]; intros s HJ; simpl.
  - split; [|split].
    + intros Hk. split; [exact Hk|by apply HJ].
    + intros _ Hlen. lia.
    + intros Hlen. lia.
  - pose proof (scan_pr_nil gh s) as Hn.
    destruct (live_by u gh) eqn:El.
    + pose proof (scan_pr_live u gh s El) as (Hk1 & Hk2 & Hk3).
      destruct (scan_pr gh s) as [e s1]. simpl in Hn, Hk1, Hk2, Hk3. subst e.
      destruct (Bool.bool_dec (bool_at s.1 u) true) as [Ek|Ek].
      * rewrite (Hk1 Ek).
        destruct (IH s HJ) as (IH1 & _ & _).
        specialize (IH1 Ek). repeat split; intros; apply IH1.
      * apply not_true_is_false in Ek.
        simpl. destruct (s.2 !! u) as [g|] eqn:Eg.
        -- assert (settled u s1) as [Hs1 Hs2] by (apply Hk2; eauto).
           destruct (IH s1 (fun _ => Hs2)) as (IH1 & _ & _).
           specialize (IH1 Hs1). repeat split; intros; apply IH1.
        -- destruct (Hk3 Ek eq_refl) as [Hs1 Hs2].
           assert (bool_at s1.1 u = true -> s1.2 !! u = None) as HJ1
             by (rewrite Hs1; discriminate).
           destruct (IH s1 HJ1) as (_ & IH2 & _).
           split; [congruence|]. split.
           ++ intros [? ?]; discriminate.
           ++ intros Hlen. apply IH2; [exact Hs2|lia].
    + pose proof (scan_pr_other u gh s El) as [Ho1 Ho2].
      destruct (scan_pr gh s) as [e s1]. simpl in Hn, Ho1, Ho2. subst e.
      assert (bool_at s1.1 u = true -> s1.2 !! u = None) as HJ1.
      { rewrite Ho1, Ho2. exact HJ. }
      destruct (IH s1 HJ1) as (IH1 & IH2 & IH3).
      rewrite Ho1 in IH1. rewrite Ho2 in IH2. exact (conj IH1 (conj IH2 IH3)).
Qed.

Lemma NoDup_map_eq {A B} (f : A -> B) (l : list A) x y :
  NoDup (List.map f l) -> In x l -> In y l -> f x = f y -> x = y.
Proof.
  induction l as [|a l IH]; intros Hnd Hx Hy Hf; [destruct Hx|].
  simpl in Hnd. apply NoDup_cons in Hnd as [Hna Hnd].
  destruct Hx as [<-|Hx], Hy as [<-|Hy].
  - reflexivity.
  - exfalso. apply Hna. rewrite Hf. apply list_elem_of_In, in_map, Hy.
  - exfalso. apply Hna. rewrite <- Hf. apply list_elem_of_In, in_map, Hx.
  - by apply IH.
Qed.

Lemma targets_same c n m : targets c n = true -> targets c m = true -> n = m.
Proof. destruct c; simpl; intros; try discriminate; lia. Qed.

Lemma scan_pr_mono gh s u :
  bool_at s.1 u = true -> bool_at (scan_pr gh s).2.1 u = true.
Proof.
  destruct s as [known prs]. unfold scan_pr. intros H.
  destruct (NotExist gh || negb (PullRequest gh)); [done|].
  destruct (bool_at known (User_Login gh)); [done|].
  destruct (has_key prs (User_Login gh)); simpl; [|done]. by apply bool_at_insert_true.
Qed.

Lemma ForeachIssue_scan_mono l s u :
  bool_at s.1 u = true -> bool_at (ForeachIssue scan_pr l s).2.1 u = true.
Proof.
  revert s. induction l as [|gh l IH]; intros s H; simpl; [done|].
  pose proof (scan_pr_nil gh s) as Hn. pose proof (scan_pr_mono gh s u H) as Hm.
  destruct (scan_pr gh s) as [e s1]. simpl in Hn, Hm. subst e. by apply IH.
Qed.

(** Every entry of [prs] is a live pull request. *)
Lemma ForeachIssue_scan_live l s :
  (forall k gh, s.2 !! k = Some gh -> is_live_pr gh = true) ->
  forall k gh, (ForeachIssue scan_pr l s).2.2 !! k = Some gh -> is_live_pr gh = true.
Proof.
  revert s. induction l as [|g l IH]; intros s Hs; simpl; [exact Hs|].
  pose proof (scan_pr_nil g s) as Hn.
  assert (forall k gh, (scan_pr g s).2.2 !! k = Some gh -> is_live_pr gh = true) as Hs1.
  { destruct s as [known prs]. unfold scan_pr, is_live_pr in *.
    destruct (NotExist g) eqn:En; simpl; [exact Hs|].
    destruct (PullRequest g) eqn:Ep; simpl; [|exact Hs].
    destruct (bool_at known (User_Login g)); [exact Hs|].
    destruct (has_key prs (User_Login g)); simpl; intros k gh Hk.
    - apply lookup_delete_Some in Hk as [_ Hk]. by apply (Hs k).
    - apply lookup_insert_Some in Hk as [[_ <-]|[_ Hk]]; [by rewrite En, Ep|by apply (Hs k)]. }
  destruct (scan_pr g s) as [e s1]. simpl in Hn, Hs1. subst e. by apply IH.
Qed.

(** After the first loop the author of every live pull request seen is in
    the cache or has an entry in [prs]. *)
Lemma ForeachIssue_scan_covers l seen s :
  (forall gh, In gh seen -> is_live_pr gh = true ->
     bool_at s.1 (User_Login gh) = true \/ is_Some (s.2 !! User_Login gh)) ->
  forall gh, In gh (seen ++ l) -> is_live_pr gh = true ->
    let s' := (ForeachIssue scan_pr l s).2 in
    bool_at s'.1 (User_Login gh) = true \/ is_Some (s'.2 !! User_Login gh).
Proof.
  revert seen s. induction l as [|g l IH]; intros seen s Hs; simpl.
  - rewrite app_nil_r. exact Hs.
  - pose proof (scan_pr_nil g s) as Hn.
    assert (forall gh, In gh (seen ++ [g]) -> is_live_pr gh = true ->
              bool_at (scan_pr g s).2.1 (User_Login gh) = true \/
              is_Some ((scan_pr g s).2.2 !! User_Login gh)) as Hs1.
    { intros gh Hin Hlive.
      assert (bool_at s.1 (User_Login gh) = true \/ is_Some (s.2 !! User_Login gh) \/ gh = g)
        as Hcase.
      { apply in_app_or in Hin as [Hin|[ <- |[]]]; [|tauto].
        destruct (Hs gh Hin Hlive); tauto. }
      destruct Hcase as [Hk|[Hp| -> ]].
      - left. by apply scan_pr_mono.
      - destruct s as [known prs]. unfold scan_pr. simpl in *.
        destruct (NotExist g || negb (PullRequest g)); [by right|].
        destruct (bool_at known (User_Login g)); [by right|].
        destruct (decide (User_Login g = User_Login gh)) as [Heq|Hne].
        + rewrite Heq. unfold has_key. destruct Hp as [x ->]. simpl. left.
          apply bool_at_insert_eq.
        + destruct (has_key prs (User_Login g)); simpl; right.
          * by rewrite lookup_delete_ne.
          * by rewrite lookup_insert_ne.
      - destruct s as [known prs]. unfold scan_pr, is_live_pr in *. simpl in *.
        apply andb_prop in Hlive as [Hne Hpr]. rewrite Hpr.
        destruct (NotExist g); [discriminate|]. simpl.
        destruct (bool_at known (User_Login g)) eqn:Ek; [by left|].
        unfold has_key. destruct (prs !! User_Login g) eqn:Ep; simpl.
        + left. apply bool_at_insert_eq.
        + right. rewrite lookup_insert_eq. eauto. }
    destruct (scan_pr g s) as [e s1]. simpl in Hn, Hs1. subst e.
    intros gh Hin. apply (IH (seen ++ [g])%list s1 Hs1).
    by rewrite <- app_assoc.
Qed.

Section Congratulator_facts.
Context {W : Type} (ghc : Client W).
Variable range_prs : gmap string GitHubIssue -> list (string * GitHubIssue).
Hypothesis range_prs_perm : forall prs, range_prs prs ≡ₚ map_to_list prs.

Lemma request_sent {A} (c : Call) (serve : W -> A * W) (net : Net W) a net' :
  request c serve net = (a, net') ->
  sent net' = (sent net ++ [c])%list /\ serve net.1 = (a, net'.1).
Proof.
  unfold request, sent. destruct (serve net.1) as [a0 w']. intros H.
  injection H as <- <-. split; reflexivity.
Qed.

(** One iteration only adds to the cache, only under its own key, and
    only sends requests that address its own pull request. *)
Lemma welcome_effect msg id k gh known net e known' net' :
  welcome ghc msg id (k, gh) (known, net) = (e, (known', net')) ->
  (forall u, bool_at known u = true -> bool_at known' u = true) /\
  (forall u, u <> k -> bool_at known' u = bool_at known u) /\
  exists extra, sent net' = (sent net ++ extra)%list /\
    forall call, In call extra -> targets call (Number gh) = true.
Proof.
  unfold welcome. intros H.
  assert (forall kn, kn = known \/ kn = <[k := true]> known ->
            (forall u, bool_at known u = true -> bool_at kn u = true) /\
            (forall u, u <> k -> bool_at kn u = bool_at known u)) as Hkn.
  { intros kn [->| ->]; split; intros u Hu; try done.
    - by apply bool_at_insert_true.
    - by apply bool_at_insert_ne. }
  assert (forall (n1 n2 : Net W) l, sent n2 = (sent n1 ++ l)%list ->
            (forall call, In call l -> targets call (Number gh) = true) ->
            exists extra, sent n2 = (sent n1 ++ extra)%list /\
              forall call, In call extra -> targets call (Number gh) = true) as Hex
    by (intros; eauto).
  destruct (Closed gh).
  { injection H as <- <- <-. destruct (Hkn _ (or_intror eq_refl)) as [? ?].
    split; [done|split; [done|]]. apply (Hex _ _ []); [by rewrite app_nil_r|intros ? []]. }
  destruct (hasNewContributorLabel gh).
  { injection H as <- <- <-. destruct (Hkn _ (or_intror eq_refl)) as [? ?].
    split; [done|split; [done|]]. apply (Hex _ _ []); [by rewrite app_nil_r|intros ? []]. }
  destruct (msg _) as [text|err].
  2:{ injection H as <- <- <-. destruct (Hkn _ (or_introl eq_refl)) as [? ?].
      split; [done|split; [done|]]. apply (Hex _ _ []); [by rewrite app_nil_r|intros ? []]. }
  destruct (request (AddLabelsToIssue _ _ _) _ net) as [r1 net1] eqn:E1.
  apply request_sent in E1 as [E1 _].
  destruct r1 as [err|].
  { injection H as <- <- <-. destruct (Hkn _ (or_introl eq_refl)) as [? ?].
    split; [done|split; [done|]]. apply (Hex _ _ _ E1).
    intros call [<-|[]]. simpl. apply Z.eqb_refl. }
  destruct (request (CreateComment _ _ _) _ net1) as [r2 net2] eqn:E2.
  apply request_sent in E2 as [E2 _]. rewrite E1, <- app_assoc in E2.
  assert (forall call, In call [AddLabelsToIssue id (Number gh) ["new-contributor"];
                                 CreateComment id (Number gh) {| Body := text |}] ->
                       targets call (Number gh) = true) as Ht.
  { intros call [<-|[<-|[]]]; simpl; apply Z.eqb_refl. }
  destruct r2 as [err|]; injection H as <- <- <-.
  - destruct (Hkn _ (or_introl eq_refl)) as [? ?].
    split; [done|split; [done|]]. exact (Hex _ _ _ E2 Ht).
  - destruct (Hkn _ (or_intror eq_refl)) as [? ?].
    split; [done|split; [done|]]. exact (Hex _ _ _ E2 Ht).
Qed.

Lemma welcome_all_effect msg id entries known net e known' net' :
  welcome_all ghc msg id entries (known, net) = (e, (known', net')) ->
  (forall u, bool_at known u = true -> bool_at known' u = true) /\
  (forall u, ~ In u (List.map fst entries) -> bool_at known' u = bool_at known u) /\
  exists extra, sent net' = (sent net ++ extra)%list /\
    forall call, In call extra ->
      exists k gh, In (k, gh) entries /\ targets call (Number gh) = true.
Proof.
  revert known net. induction entries as [|[k gh] entries IH]; intros known net H.
  - simpl in H. injection H as <- <- <-. split; [done|split; [done|]].
    exists []. split; [by rewrite app_nil_r|intros ? []].
  - cbn [welcome_all] in H.
    destruct (welcome ghc msg id (k, gh) (known, net)) as [e1 [known1 net1]] eqn:E1.
    apply welcome_effect in E1 as (Hm1 & Ho1 & extra1 & Hs1 & Ht1).
    assert ((e, (known', net')) = (e1, (known1, net1)) ->
            (forall u, bool_at known u = true -> bool_at known' u = true) /\
            (forall u, ~ In u (List.map fst ((k, gh) :: entries)) ->
                       bool_at known' u = bool_at known u) /\
            exists extra, sent net' = (sent net ++ extra)%list /\
              forall call, In call extra ->
                exists k0 gh0, In (k0, gh0) ((k, gh) :: entries)
                               /\ targets call (Number gh0) = true) as Hstop.
    { intros Heq. injection Heq as -> -> ->. split; [done|split].
      - intros u Hu. apply Ho1. intros ->. apply Hu. by left.
      - exists extra1. split; [done|]. intros call Hc. exists k, gh.
        split; [by left|by apply Ht1]. }
    destruct e1; try (apply Hstop; by rewrite H).
    apply IH in H as (Hm2 & Ho2 & extra2 & Hs2 & Ht2).
    split; [|split].
    + intros u Hu. by apply Hm2, Hm1.
    + intros u Hu. rewrite Ho2, Ho1; [done| |].
      * intros ->. apply Hu. by left.
      * intros Hin. apply Hu. by right.
    + exists (extra1 ++ extra2)%list. split.
      * by rewrite Hs2, Hs1, <- app_assoc.
      * intros call Hc. apply in_app_or in Hc as [Hc|Hc].
        -- exists k, gh. split; [by left|by apply Ht1].
        -- destruct (Ht2 call Hc) as (k0 & gh0 & Hin & Ht). exists k0, gh0.
           split; [by right|done].
Qed.

Lemma welcome_all_app msg id pre rest s s1 :
  welcome_all ghc msg id pre s = (Nil, s1) ->
  welcome_all ghc msg id (pre ++ rest) s = welcome_all ghc msg id rest s1.
Proof.
  revert s. induction pre as [|entry pre IH]; intros s H; cbn [welcome_all app] in H |- *.
  - by injection H as <-.
  - destruct (welcome ghc msg id entry s) as [e s'].
    destruct e; try discriminate H. by apply IH.
Qed.

(** What one iteration, and the whole second loop, send and record. *)
Lemma welcome_sent msg id entry known (net : Net W) e known' net' :
  welcome ghc msg id entry (known, net) = (e, (known', net')) ->
  exists extra rest,
    sent net' = (sent net ++ extra)%list /\
    welcome_requests msg id entry = (extra ++ rest)%list /\
    (e = Nil -> rest = [] /\ bool_at known' entry.1 = true).
Proof.
  destruct entry as [k gh]. unfold welcome, welcome_requests. simpl.
  destruct (Closed gh); simpl.
  { intros [= <- <- <-]. exists [], []. rewrite app_nil_r.
    split_and!; try done. intros _. split; [done|apply bool_at_insert_eq]. }
  destruct (hasNewContributorLabel gh); simpl.
  { intros [= <- <- <-]. exists [], []. rewrite app_nil_r.
    split_and!; try done. intros _. split; [done|apply bool_at_insert_eq]. }
  destruct (msg _) as [text|err].
  2:{ intros [= <- <- <-]. exists [], []. rewrite app_nil_r. by split_and!. }
  destruct (request (AddLabelsToIssue _ _ _) _ net) as [r1 net1] eqn:E1.
  apply request_sent in E1 as [E1 _].
  destruct r1 as [err|].
  { intros [= <- <- <-]. eexists [_], [_]. by split_and!. }
  destruct (request (CreateComment _ _ _) _ net1) as [r2 net2] eqn:E2.
  apply request_sent in E2 as [E2 _]. rewrite E1, <- app_assoc in E2.
  destruct r2 as [err|]; intros [= <- <- <-]; eexists [_; _], [];
    (split_and!; [exact E2|reflexivity|]).
  - discriminate.
  - intros _. split; [done|apply bool_at_insert_eq].
Qed.

Lemma welcome_all_sent msg id entries known (net : Net W) e known' net' :
  welcome_all ghc msg id entries (known, net) = (e, (known', net')) ->
  exists extra rest,
    sent net' = (sent net ++ extra)%list /\
    flat_map (welcome_requests msg id) entries = (extra ++ rest)%list /\
    (e = Nil -> rest = [] /\ forall k, In k (List.map fst entries) -> bool_at known' k = true).
Proof.
  revert known net. induction entries as [|entry entries IH]; intros known net H.
  - simpl in H. injection H as <- <- <-. exists [], []. rewrite app_nil_r.
    split_and!; try done; intros _; split; try done; intros k [].
  - cbn [welcome_all] in H.
    destruct (welcome ghc msg id entry (known, net)) as [e1 [known1 net1]] eqn:E1.
    apply welcome_sent in E1 as (extra1 & rest1 & Hs1 & Hr1 & Hn1).
    assert (e1 <> Nil -> (e, (known', net')) = (e1, (known1, net1)) ->
            exists extra rest,
              sent net' = (sent net ++ extra)%list /\
              flat_map (welcome_requests msg id) (entry :: entries) = (extra ++ rest)%list /\
              (e = Nil -> rest = [] /\
                 forall k, In k (List.map fst (entry :: entries)) -> bool_at known' k = true))
      as Hstop.
    { intros Hne [= -> -> ->].
      exists extra1, (rest1 ++ flat_map (welcome_requests msg id) entries)%list.
      split_and!; [done| |done]. simpl. rewrite Hr1. by rewrite <- app_assoc. }
    destruct e1; try (apply Hstop; [discriminate|by rewrite H]).
    destruct (Hn1 eq_refl) as [-> Hk1]. rewrite app_nil_r in Hr1.
    pose proof (welcome_all_effect _ _ _ _ _ _ _ _ H) as (Hmono & _).
    apply IH in H as (extra2 & rest2 & Hs2 & Hr2 & Hn2).
    exists (extra1 ++ extra2)%list, rest2. split_and!.
    + by rewrite Hs2, Hs1, <- app_assoc.
    + simpl. by rewrite Hr1, Hr2, <- app_assoc.
    + intros He. destruct (Hn2 He) as [-> Hk2]. split; [done|].
      intros k [ <- |Hin]; [by apply Hmono|by apply Hk2].
Qed.

(** C8: an author with two or more live pull requests in the snapshot is
    in the known-contributors cache when [Do] ends, however it ends, and
    none of the requests [Do] sent addresses an issue of that author. *)
Theorem Congratulator_skips_repeat_author (c : Congratulator) (repo : GitHubRepo)
    (net : Net W) (u : string) :
  NoDup (List.map Number (issues repo)) ->
  (2 <= length (List.filter (live_by u) (issues repo)))%nat ->
  forall e c' net',
    Congratulator_Do ghc range_prs c repo net = (e, c', net') ->
    bool_at (knownContributors c') u = true /\
    exists extra, sent net' = (sent net ++ extra)%list /\
      forall call gh, In call extra -> In gh (issues repo) -> User_Login gh = u ->
        targets call (Number gh) = false.
Proof.
  intros Hnd Htwo e c' net' HDo. unfold Congratulator_Do in HDo.
  pose proof (ForeachIssue_scan_settles u (issues repo) (knownContributors c, ∅)
                (fun _ => lookup_empty u)) as (_ & _ & Hset).
  specialize (Hset Htwo).
  pose proof (ForeachIssue_scan_ok (issues repo) [] (knownContributors c, ∅)) as Hok.
  simpl in Hok, Hset.
  destruct (ForeachIssue scan_pr (issues repo) (knownContributors c, ∅))
    as [err [known prs]].
  destruct Hset as [Hku Hpu]. simpl in Hku, Hpu.
  assert (scan_ok (issues repo) (known, prs)) as Hok'.
  { apply Hok. intros k gh Hk. simpl in Hk. by rewrite lookup_empty in Hk. }
  clear Hok.
  destruct (welcome_all ghc (message c) (ID repo) (range_prs prs) (known, net))
    as [e2 [known2 net2]] eqn:Ew.
  apply welcome_all_effect in Ew as (Hm & _ & extra & Hs & Ht).
  assert (c' = mkCongratulator (message c) known2 /\ net' = net2) as [-> ->].
  { destruct e2; injection HDo as <- <- <-; done. }
  simpl. split; [by apply Hm|].
  exists extra. split; [done|].
  intros call gh Hc Hgh Hlogin.
  destruct (targets call (Number gh)) eqn:Etg; [exfalso|done].
  destruct (Ht call Hc) as (k & gh' & Hin & Htg').
  apply list_elem_of_In in Hin. rewrite range_prs_perm in Hin.
  apply elem_of_map_to_list in Hin.
  destruct (Hok' k gh' Hin) as (_ & Hk & Hin').
  assert (gh = gh') as <-.
  { apply (NoDup_map_eq Number (issues repo)); [done|done|done|].
    by apply (targets_same call). }
  simpl in Hku, Hpu. congruence.
Qed.
End Congratulator_facts.

Lemma Congratulator_skips_repeat_author_witness :
  let r := Congratulator_Do comments_refused map_to_list congrats repo_alice_bob (tt, []) in
  bool_at (knownContributors r.1.2) "bob" = true.
Proof.
  intros r.
  refine (proj1 (Congratulator_skips_repeat_author comments_refused map_to_list
                   (fun _ => reflexivity _) congrats repo_alice_bob (tt, []) "bob"
                   _ _ r.1.1 r.1.2 r.2 _)).
  - apply (bool_decide_unpack _). vm_compute. exact I.
  - vm_compute. lia.
  - unfold r. destruct (Congratulator_Do _ _ _ _ _) as [[? ?] ?]. reflexivity.
Defined.

Section Congratulator_comment_failure.
Context {W : Type} (ghc : Client W).
Variable range_prs : gmap string GitHubIssue -> list (string * GitHubIssue).
Hypothesis range_prs_perm : forall prs, range_prs prs ≡ₚ map_to_list prs.

(** C3, as the code has it: when the label is added and the comment is
    refused, [Do] returns the error of the comment and leaves the author
    out of the known-contributors cache.  What stops a later pass from
    welcoming again is the label: in any later call of [Do], with whatever
    cache, on a snapshot that shows "new-contributor" on a live pull
    request of the author, no request of that call addresses that pull
    request, and the author is in the cache whenever that call returns
    nil. *)
Theorem Congratulator_comment_failure (c : Congratulator) (repo : GitHubRepo)
    (net net1 : Net W) (u : string) (gh : GitHubIssue)
    (pre post : list (string * GitHubIssue)) (known1 : gmap string bool)
    (text : string) (w2 w3 : W) (err : error) :
  let s0 := (ForeachIssue scan_pr (issues repo) (knownContributors c, ∅)).2 in
  range_prs s0.2 = (pre ++ (u, gh) :: post)%list ->
  welcome_all ghc (message c) (ID repo) pre (s0.1, net) = (Nil, (known1, net1)) ->
  Closed gh = false ->
  hasNewContributorLabel gh = false ->
  message c {| Username := User_Login gh |} = Ok text ->
  Issues_AddLabelsToIssue ghc (ID repo) (Number gh) ["new-contributor"] net1.1 = (None, w2) ->
  Issues_CreateComment ghc (ID repo) (Number gh) {| Body := text |} w2 = (Some err, w3) ->
  (exists c' net',
     Congratulator_Do ghc range_prs c repo net = (Error err, c', net') /\
     bool_at (knownContributors c') u = false /\
     sent net' = (sent net1 ++ [AddLabelsToIssue (ID repo) (Number gh) ["new-contributor"];
                                CreateComment (ID repo) (Number gh) {| Body := text |}])%list)
  /\
  (forall (c2 : Congratulator) (repo2 : GitHubRepo) (net2 : Net W) (labelled : GitHubIssue),
     NoDup (List.map Number (issues repo2)) ->
     In labelled (issues repo2) ->
     live_by u labelled = true ->
     hasNewContributorLabel labelled = true ->
     exists e c3 net3 extra,
       Congratulator_Do ghc range_prs c2 repo2 net2 = (e, c3, net3) /\
       sent net3 = (sent net2 ++ extra)%list /\
       (forall call, In call extra -> targets call (Number labelled) = false) /\
       (e = Nil -> bool_at (knownContributors c3) u = true)).
Proof.
  intros s0 Hrange Hpre Hopen Hlabel Hmsg Hadd Hcomment. split.
  2:{ clear dependent c. clear dependent gh. clear dependent pre.
    intros c2 repo2 net2 labelled Hnd Hin Hlive Hlab.
    destruct (Congratulator_Do ghc range_prs c2 repo2 net2) as [[e c3] net3] eqn:HDo.
    unfold Congratulator_Do in HDo.
    pose proof (ForeachIssue_scan_ok (issues repo2) [] (knownContributors c2, ∅)) as Hok.
    pose proof (ForeachIssue_scan_covers (issues repo2) [] (knownContributors c2, ∅)) as Hcov.
    destruct (ForeachIssue scan_pr (issues repo2) (knownContributors c2, ∅))
      as [e0 [known prs]]. simpl in Hok, Hcov.
    assert (scan_ok (issues repo2) (known, prs)) as Hok'.
    { apply Hok. intros k g Hk. simpl in Hk. by rewrite lookup_empty in Hk. }
    clear Hok.
    destruct (welcome_all ghc (message c2) (ID repo2) (range_prs prs) (known, net2))
      as [e2 [known2 net2']] eqn:Ew.
    pose proof (welcome_all_effect ghc _ _ _ _ _ _ _ _ Ew) as (Hmono & _).
    apply welcome_all_sent in Ew as (extra & rest & Hs & Hr & Hn).
    assert (c3 = mkCongratulator (message c2) known2 /\ net3 = net2' /\
            (e = Nil -> e2 = Nil)) as (-> & -> & He).
    { destruct e2; injection HDo as <- <- <-; done. }
    exists e, (mkCongratulator (message c2) known2), net2', extra.
    split_and!; [done|done| |].
    - intros call Hc.
      destruct (targets call (Number labelled)) eqn:Etg; [exfalso|done].
      assert (In call (flat_map (welcome_requests (message c2) (ID repo2)) (range_prs prs)))
        as Hcall.
      { rewrite Hr. apply in_or_app. by left. }
      apply in_flat_map in Hcall as ([k g] & Hentry & Hcall).
      apply list_elem_of_In in Hentry. rewrite range_prs_perm in Hentry.
      apply elem_of_map_to_list in Hentry.
      destruct (Hok' k g Hentry) as (_ & _ & Hsnap). simpl in Hsnap.
      unfold welcome_requests in Hcall. simpl in Hcall.
      destruct (Closed g) eqn:Ec; [destruct Hcall|].
      destruct (hasNewContributorLabel g) eqn:El; [destruct Hcall|]. simpl in Hcall.
      assert (targets call (Number g) = true) as Htg.
      { destruct (message c2 _); [|destruct Hcall].
        destruct Hcall as [ <- |[ <- |[]]]; simpl; apply Z.eqb_refl. }
      assert (labelled = g) as <-.
      { apply (NoDup_map_eq Number (issues repo2)); [done|done|done|].
        by apply (targets_same call). }
      congruence.
    - intros HNil. destruct (Hn (He HNil)) as [_ Hkeys]. simpl.
      assert (is_live_pr labelled = true /\ User_Login labelled = u) as [Hl <-].
      { unfold live_by in Hlive. apply andb_prop in Hlive as [Hl Hu].
        by apply String.eqb_eq in Hu. }
      destruct (Hcov ltac:(intros ? []) labelled Hin Hl) as [Hk|[g Hg]]; [by apply Hmono|].
      apply Hkeys. apply elem_of_map_to_list in Hg. rewrite <- range_prs_perm in Hg.
      apply list_elem_of_In in Hg. apply in_map_iff. by exists (User_Login labelled, g). }
  pose proof (ForeachIssue_scan_ok (issues repo) [] (knownContributors c, ∅)) as Hok.
  pose proof (ForeachIssue_scan_nil (issues repo) (knownContributors c, ∅)) as Hnil.
  unfold Congratulator_Do. fold s0 in Hok. subst s0.
  destruct (ForeachIssue scan_pr (issues repo) (knownContributors c, ∅))
    as [e0 [known prs]].
  simpl in *. subst e0.
  assert (scan_ok (issues repo) (known, prs)) as Hok'.
  { apply Hok. intros k g Hk. simpl in Hk. by rewrite lookup_empty in Hk. }
  clear Hok.
  (* the author is a key of prs, hence not in the cache after the scan *)
  assert (prs !! u = Some gh) as Hu.
  { apply elem_of_map_to_list. rewrite <- range_prs_perm, Hrange.
    apply list_elem_of_In, in_or_app. right. by left. }
  destruct (Hok' u gh Hu) as (Hnot & _ & _). simpl in Hnot.
  (* the entries before it have other keys *)
  assert (~ In u (List.map fst pre)) as Hfresh.
  { pose proof (NoDup_fst_map_to_list prs) as Hnd.
    rewrite <- range_prs_perm, Hrange in Hnd.
    rewrite fmap_app in Hnd. apply NoDup_app in Hnd as (_ & Hdisj & _).
    intros Hin. apply (Hdisj u).
    - apply list_elem_of_In. exact Hin.
    - simpl. apply list_elem_of_here. }
  pose proof (welcome_all_effect ghc _ _ _ _ _ _ _ _ Hpre) as (_ & Hsame & _).
  rewrite Hrange, (welcome_all_app ghc _ _ _ _ _ _ Hpre).
  cbn [welcome_all]. unfold welcome. rewrite Hopen, Hlabel, Hmsg.
  unfold request. rewrite Hadd. simpl. rewrite Hcomment.
  eexists _, _. split; [reflexivity|]. simpl. split.
  - rewrite Hsame; done.
  - unfold sent. simpl. by rewrite <- app_assoc.
Qed.
End Congratulator_comment_failure.

Lemma Congratulator_comment_failure_witness :
  exists c' net',
    Congratulator_Do comments_refused map_to_list congrats repo_alice_bob (tt, [])
    = (Error "comment refused", c', net')
    /\ bool_at (knownContributors c') "alice" = false.
Proof.
  destruct (Congratulator_comment_failure comments_refused map_to_list
              (fun _ => reflexivity _) congrats repo_alice_bob (tt, []) (tt, [])
              "alice" pr_alice [] [] {["bob" := true]}
              "Congrats on your first PR, @alice!" tt tt "comment refused")
    as [(c' & net' & HDo & Hknown & _) _]; try reflexivity.
  exists c', net'. split; [exact HDo|exact Hknown].
Defined.

(** C3 as stated fails: the label is added, the comment is refused, [Do]
    returns the error and alice is not in the cache; a second pass over the
    same snapshot sends both requests for her pull request again. *)
Lemma Congratulator_forgets_author_on_comment_failure :
  let r1 := Congratulator_Do comments_refused map_to_list congrats repo_alice_bob (tt, []) in
  let r2 := Congratulator_Do comments_refused map_to_list r1.1.2 repo_alice_bob r1.2 in
  r1.1.1 = Error "comment refused"
  /\ bool_at (knownContributors r1.1.2) "alice" = false
  /\ sent r1.2 = [AddLabelsToIssue rails 7 ["new-contributor"];
                  CreateComment rails 7 {| Body := "Congrats on your first PR, @alice!" |}]
  /\ sent r2.2 = (sent r1.2 ++ sent r1.2)%list.
Proof. vm_compute. repeat split; reflexivity. Qed.

(** ** CLA checker *)

Lemma ForeachIssue_app {S : Type} (fn : GitHubIssue -> S -> ending * S) before rest s s1 :
  ForeachIssue fn before s = (Nil, s1) ->
  ForeachIssue fn (before ++ rest) s = ForeachIssue fn rest s1.
Proof.
  revert s. induction before as [|gh before IH]; intros s H; simpl in H |- *.
  - by injection H as <-.
  - destruct (fn gh s) as [e s']. destruct e; try discriminate H. by apply IH.
Qed.

Lemma foundStatus_spec statuses :
  foundStatus statuses = true <-> exists st, In st statuses /\ is_failing_cla_bot st.
Proof.
  unfold is_failing_cla_bot. induction statuses as [|st rest IH]; simpl.
  - split; [discriminate|]. intros (? & [] & _).
  - destruct (String.eqb (GetContext st) "cla-bot") eqn:Ec;
      destruct (String.eqb (GetState st) "failure") eqn:Es; simpl.
    + apply String.eqb_eq in Ec, Es. split; [|done]. intros _. exists st. tauto.
    + apply String.eqb_neq in Es. rewrite IH. split.
      * intros (x & Hx & Hf). exists x. tauto.
      * intros (x & [<-|Hx] & Hc & Hs); [congruence|]. exists x. tauto.
    + apply String.eqb_neq in Ec. rewrite IH. split.
      * intros (x & Hx & Hf). exists x. tauto.
      * intros (x & [<-|Hx] & Hc & Hs); [congruence|]. exists x. tauto.
    + apply String.eqb_neq in Ec. rewrite IH. split.
      * intros (x & Hx & Hf). exists x. tauto.
      * intros (x & [<-|Hx] & Hc & Hs); [congruence|]. exists x. tauto.
Qed.

Section CLAChecker_facts.
Context {W : Type} (ghc : Client W).

Lemma signed_loop_skips c id gh pr state before rest net :
  Forall (fun st => ~ is_cla_bot st) before ->
  signed_loop ghc c id gh pr state (before ++ rest) net
  = signed_loop ghc c id gh pr state rest net.
Proof.
  induction 1 as [|st before Hst _ IH]; simpl; [reflexivity|].
  apply String.eqb_neq in Hst. unfold is_cla_bot in *. by rewrite Hst.
Qed.

Lemma signed_loop_none c id gh pr state statuses net :
  Forall (fun st => ~ is_cla_bot st) statuses ->
  signed_loop ghc c id gh pr state statuses net = None.
Proof.
  intros H. rewrite <- (app_nil_r statuses). by rewrite signed_loop_skips.
Qed.

(** The status that [postStatus] sends for each of the three states. *)
Lemma postStatus_sends c id sha state net :
  state = "success" \/ state = "unnecessary" \/ state = "failure" ->
  exists sr r w',
    build_status c state = Some sr /\
    Repositories_CreateStatus ghc id sha sr net.1 = (r, w') /\
    postStatus ghc c id sha state net
    = (Returns r, (w', (sent net ++ [CreateStatus id sha sr])%list)) /\
    Context sr = Some "cla-bot" /\
    State sr = Some (if String.eqb state "failure" then "failure" else "success").
Proof.
  intros Hstate. unfold postStatus, request.
  destruct Hstate as [-> | [-> | ->]]; simpl;
    match goal with
    | |- context [Repositories_CreateStatus ghc id sha ?sr net.1] =>
        destruct (Repositories_CreateStatus ghc id sha sr net.1) as [r w'] eqn:E;
        exists sr, r, w'
    end; repeat split; try reflexivity; exact E.
Qed.
End CLAChecker_facts.

Section CLAChecker_visit.
Context {W : Type} (ghc : Client W).

(** When the pull request is live, open and not in the signed-CLA cache,
    the channel lets [Do] through and the three reads succeed, the visit
    comes down to the policy applied to what was read. *)
Lemma check_pr_fetches c id gh (net : Net W) ch pr files statuses w1 w2 w3 :
  NotExist gh = false -> PullRequest gh = true -> Closed gh = false ->
  has_key (signedCLAPRs c) (Number gh) = false ->
  chan_recv (contributorsLoaded c) = Proceeds ch ->
  PullRequests_Get ghc id (Number gh) net.1 = (Ok pr, w1) ->
  PullRequests_ListFiles ghc id (Number gh) w1 = (Ok files, w2) ->
  Repositories_ListStatuses ghc id (GetSHA pr) w2 = (Ok statuses, w3) ->
  check_pr ghc id gh (c, net)
  = apply_policy ghc (set_contributorsLoaded ch c) id gh
      (has_key (contributors c) (User_Login gh)) pr files statuses
      (w3, (sent net ++ reads id (Number gh) (GetSHA pr))%list).
Proof.
  intros Hne Hpr Hcl Hsig Hch Hget Hfiles Hst.
  unfold check_pr, request. rewrite Hne, Hpr, Hcl, Hsig, Hch. simpl.
  rewrite Hget. simpl. rewrite Hfiles. simpl. rewrite Hst.
  unfold sent, reads. simpl. by rewrite <- !app_assoc.
Qed.

(** C6, as the code has it.  The visit of [Do] to an open pull request
    that is not yet in the signed-CLA cache, whose author is in the
    contributor list and which has no status of context "cla-bot", sends
    the three reads and then one status of state "success".  A later
    visit that finds the first "cla-bot" status reading "success" sends
    the three reads and no status, and records the number in the cache.
    From then on a visit sends nothing at all. *)
Theorem CLAChecker_signed_author c id gh (net : Net W) ch pr sha files statuses w1 w2 w3 :
  NotExist gh = false -> PullRequest gh = true -> Closed gh = false ->
  chan_recv (contributorsLoaded c) = Proceeds ch ->
  has_key (contributors c) (User_Login gh) = true ->
  PullRequests_Get ghc id (Number gh) net.1 = (Ok pr, w1) ->
  Head_SHA pr = Some sha ->
  PullRequests_ListFiles ghc id (Number gh) w1 = (Ok files, w2) ->
  Repositories_ListStatuses ghc id sha w2 = (Ok statuses, w3) ->
  (has_key (signedCLAPRs c) (Number gh) = false ->
   Forall (fun st => ~ is_cla_bot st) statuses ->
   exists e c' net' sr,
     check_pr ghc id gh (c, net) = (e, (c', net')) /\
     sent net' = (sent net ++ reads id (Number gh) sha ++ [CreateStatus id sha sr])%list /\
     State sr = Some "success" /\ Context sr = Some "cla-bot" /\
     signedCLAPRs c' = signedCLAPRs c)
  /\
  (has_key (signedCLAPRs c) (Number gh) = false ->
   forall before st rest,
     statuses = (before ++ st :: rest)%list ->
     Forall (fun st => ~ is_cla_bot st) before ->
     is_cla_bot st -> GetState st = "success" ->
     exists c' net',
       check_pr ghc id gh (c, net) = (Nil, (c', net')) /\
       sent net' = (sent net ++ reads id (Number gh) sha)%list /\
       has_key (signedCLAPRs c') (Number gh) = true)
  /\
  (has_key (signedCLAPRs c) (Number gh) = true ->
   check_pr ghc id gh (c, net) = (Nil, (c, net))).
Proof.
  intros Hne Hpr Hcl Hch Hok Hget Hsha Hfiles Hst.
  assert (GetSHA pr = sha) as Hgs by (unfold GetSHA; by rewrite Hsha).
  rewrite <- Hgs in Hst.
  split; [|split].
  - intros Hsig Hnone.
    rewrite (check_pr_fetches _ _ _ _ _ _ _ _ _ _ _ Hne Hpr Hcl Hsig Hch Hget Hfiles Hst).
    unfold apply_policy. rewrite Hok. simpl.
    rewrite signed_loop_none by exact Hnone.
    unfold post_at_head. rewrite Hsha, Hgs.
    set (state := if match CanSkipCLA _ with None => false | Some can => can pr files end
                  then "unnecessary" else "success").
    assert (state = "success" \/ state = "unnecessary" \/ state = "failure") as Hstate.
    { unfold state. destruct (match CanSkipCLA _ with None => _ | Some _ => _ end); tauto. }
    assert (String.eqb state "failure" = false) as Hnf.
    { unfold state. destruct (match CanSkipCLA _ with None => _ | Some _ => _ end); reflexivity. }
    destruct (postStatus_sends ghc (set_contributorsLoaded ch c) id sha state
                (w3, (sent net ++ reads id (Number gh) sha)%list) Hstate)
      as (sr & r & w' & _ & _ & Hpost & Hctx & Hstate').
    rewrite Hpost. rewrite Hnf in Hstate'.
    destruct r as [posted|err]; eexists _, _, _, sr;
      (split; [reflexivity|]); unfold sent; simpl; rewrite <- app_assoc; done.
  - intros Hsig before st rest -> Hbefore Hctx Hstate.
    rewrite (check_pr_fetches _ _ _ _ _ _ _ _ _ _ _ Hne Hpr Hcl Hsig Hch Hget Hfiles Hst).
    unfold apply_policy. rewrite Hok. simpl.
    rewrite signed_loop_skips by exact Hbefore. simpl.
    unfold is_cla_bot in Hctx. rewrite Hctx, Hstate. simpl.
    eexists _, _. split; [reflexivity|]. rewrite Hgs. split; [reflexivity|].
    unfold has_key. simpl. by rewrite lookup_insert_eq.
  - intros Hsig. unfold check_pr. rewrite Hne, Hpr, Hcl, Hsig. reflexivity.
Qed.

(** C7, as the code has it.  The visit of [Do] to an open pull request
    that is not in the signed-CLA cache, whose author is neither in the
    contributor list nor exempt, sends the three reads and then, when no
    status of context "cla-bot" and state "failure" is listed, exactly
    one status of state "failure" whose target URL is the CLA URL; when
    such a status is listed it sends the reads only. *)
Theorem CLAChecker_unsigned_author c id gh (net : Net W) ch pr sha files statuses w1 w2 w3 :
  NotExist gh = false -> PullRequest gh = true -> Closed gh = false ->
  has_key (signedCLAPRs c) (Number gh) = false ->
  chan_recv (contributorsLoaded c) = Proceeds ch ->
  has_key (contributors c) (User_Login gh) = false ->
  PullRequests_Get ghc id (Number gh) net.1 = (Ok pr, w1) ->
  Head_SHA pr = Some sha ->
  PullRequests_ListFiles ghc id (Number gh) w1 = (Ok files, w2) ->
  Repositories_ListStatuses ghc id sha w2 = (Ok statuses, w3) ->
  exempt c pr files = false ->
  ((forall st, In st statuses -> ~ is_failing_cla_bot st) ->
   exists e c' net',
     check_pr ghc id gh (c, net) = (e, (c', net')) /\
     sent net' = (sent net ++ reads id (Number gh) sha
                  ++ [CreateStatus id sha (cla_failure c)])%list)
  /\
  ((exists st, In st statuses /\ is_failing_cla_bot st) ->
   exists c' net',
     check_pr ghc id gh (c, net) = (Nil, (c', net')) /\
     sent net' = (sent net ++ reads id (Number gh) sha)%list).
Proof.
  intros Hne Hpr Hcl Hsig Hch Hok Hget Hsha Hfiles Hst Hex.
  assert (GetSHA pr = sha) as Hgs by (unfold GetSHA; by rewrite Hsha).
  rewrite <- Hgs in Hst.
  rewrite (check_pr_fetches _ _ _ _ _ _ _ _ _ _ _ Hne Hpr Hcl Hsig Hch Hget Hfiles Hst).
  unfold apply_policy. rewrite Hok. unfold exempt in Hex. simpl.
  change (CanSkipCLA (set_contributorsLoaded ch c)) with (CanSkipCLA c).
  rewrite Hex. rewrite Hgs. split.
  - intros Hnone.
    assert (foundStatus statuses = false) as ->.
    { destruct (foundStatus statuses) eqn:E; [|reflexivity].
      apply foundStatus_spec in E as (st & Hin & Hf). by destruct (Hnone st Hin). }
    unfold post_at_head, postStatus, request. rewrite Hsha. simpl.
    change (claURL (set_contributorsLoaded ch c)) with (claURL c).
    fold (cla_failure c).
    destruct (Repositories_CreateStatus ghc id sha (cla_failure c) w3) as [r w'].
    destruct r as [posted|err]; eexists _, _, _;
      (split; [reflexivity|]); unfold sent; simpl; by rewrite <- app_assoc.
  - intros Hsome. apply foundStatus_spec in Hsome. rewrite Hsome.
    eexists _, _. split; reflexivity.
Qed.
End CLAChecker_visit.

Lemma CLAChecker_signed_author_witness :
  exists e c' net',
    check_pr github_statuses rails pr_alice (checker_ready, ([], []))
    = (e, (c', net')) /\
    sent net' = (reads rails 7 "abc123" ++ [CreateStatus rails "abc123" cla_success])%list.
Proof.
  destruct (CLAChecker_signed_author github_statuses checker_ready rails pr_alice
              ([], []) (Some (mkChan 1 0 true)) (mkPR (Some "abc123") "a change") "abc123"
              [mkCommitFile "main.go" 100 20] [] [] [] [])
    as [Hfirst _]; try reflexivity.
  destruct Hfirst as (e & c' & net' & sr & Hvisit & Hsent & _); [reflexivity|constructor|].
  exists e, c', net'. split; [exact Hvisit|].
  vm_compute in Hvisit. injection Hvisit as <- <- <-.
  reflexivity.
Defined.

(** C6 as stated fails in its last part: in the pass that finds the status
    reading "success" and records pull request 7 in the cache, three
    requests are sent for it.  It also fails for a pull request that is
    already in the cache: when its head has no "cla-bot" status (a new
    commit was pushed), the pass sends nothing, hence no status. *)
Lemma CLAChecker_reads_before_caching :
  let repo := mkRepo rails [pr_alice] in
  let r1 := CLAChecker_Do github_statuses checker_ready repo ([], []) in
  let r2 := CLAChecker_Do github_statuses r1.2.1 repo r1.2.2 in
  let cached := set_signedCLAPRs {[7 := true]} checker_ready in
  r1.1 = Nil
  /\ sent r1.2.2 = (reads rails 7 "abc123" ++ [CreateStatus rails "abc123" cla_success])%list
  /\ has_key (signedCLAPRs r1.2.1) 7 = false
  /\ r2.1 = Nil
  /\ has_key (signedCLAPRs r2.2.1) 7 = true
  /\ sent r2.2.2 = (sent r1.2.2 ++ reads rails 7 "abc123")%list
  /\ sent r2.2.2 <> sent r1.2.2
  /\ CLAChecker_Do github_statuses cached repo ([], []) = (Nil, (cached, ([], []))).
Proof. vm_compute. repeat split; try reflexivity. discriminate. Qed.

Lemma CLAChecker_unsigned_author_witness :
  exists e c' net',
    check_pr github_statuses rails pr_mallory (checker_ready, ([], []))
    = (e, (c', net')) /\
    sent net' = (reads rails 11 "abc123"
                 ++ [CreateStatus rails "abc123" (cla_failure checker_ready)])%list.
Proof.
  destruct (CLAChecker_unsigned_author github_statuses checker_ready rails pr_mallory
              ([], []) (Some (mkChan 1 0 true)) (mkPR (Some "abc123") "a change") "abc123"
              [mkCommitFile "main.go" 100 20] [] [] [] [])
    as [Hnone _]; try reflexivity.
  apply Hnone. intros st [].
Defined.

(** C7 as stated fails for a pull request recorded in the signed-CLA cache:
    once mallory has left the contributor list, her cached pull request 11,
    which has no failing status, is passed over and gets no status. *)
Lemma CLAChecker_cached_pr_not_flagged :
  let c := set_signedCLAPRs {[11 := true]} (set_contributors ∅ checker_ready) in
  let repo := mkRepo rails [pr_mallory] in
  has_key (contributors c) "mallory" = false
  /\ exempt c (mkPR (Some "abc123") "a change") [mkCommitFile "main.go" 100 20] = false
  /\ foundStatus [cla_success] = false
  /\ CLAChecker_Do github_statuses c repo ([cla_success], [])
     = (Nil, (c, ([cla_success], []))).
Proof. vm_compute. repeat split; reflexivity. Qed.

(** C2: when posting the failing status is refused, [Do] does not return:
    [log.Fatal] ends the process; the same refusal on the path of a signed
    author is returned as the error of [Do]. *)
Theorem CLAChecker_Do_fatal_on_refused_failure_status :
  (CLAChecker_Do statuses_refused checker_ready (mkRepo rails [pr_mallory]) ([], [])).1
  = Fatal "status refused"
  /\ (CLAChecker_Do statuses_refused checker_ready (mkRepo rails [pr_alice]) ([], [])).1
     = Error "status refused".
Proof. split; vm_compute; reflexivity. Qed.

Section CLAChecker_panics.
Context {W : Type} (ghc : Client W).

Lemma post_at_head_panic c id pr state (net : Net W) msg net' :
  state = "success" \/ state = "unnecessary" \/ state = "failure" ->
  post_at_head ghc c id pr state net = (Panics msg, net') ->
  msg = nil_dereference.
Proof.
  intros Hstate. unfold post_at_head. destruct (Head_SHA pr) as [sha|].
  - destruct (postStatus_sends ghc c id sha state net Hstate)
      as (sr & r & w' & _ & _ & -> & _). discriminate.
  - by intros [= <- <-].
Qed.

Lemma signed_loop_panic c id gh pr state statuses (net : Net W) msg s' :
  state = "success" \/ state = "unnecessary" \/ state = "failure" ->
  signed_loop ghc c id gh pr state statuses net = Some (Panic msg, s') ->
  msg = nil_dereference.
Proof.
  intros Hstate. induction statuses as [|st rest IH]; simpl; [discriminate|].
  destruct (String.eqb (GetContext st) "cla-bot"); [|exact IH].
  destruct (String.eqb (GetState st) "success"); [discriminate|].
  destruct (post_at_head ghc c id pr state net) as [[[posted|err]|m] net'] eqn:E;
    try discriminate.
  intros [= <- <-]. by apply post_at_head_panic in E.
Qed.

Lemma apply_policy_panic c id gh ok pr files statuses (net : Net W) msg :
  (apply_policy ghc c id gh ok pr files statuses net).1 = Panic msg ->
  msg = nil_dereference.
Proof.
  unfold apply_policy.
  set (canSkipCLA := match CanSkipCLA c with None => false | Some can => can pr files end).
  set (state := if canSkipCLA then "unnecessary" else "success").
  assert (state = "success" \/ state = "unnecessary" \/ state = "failure") as Hstate.
  { unfold state. destruct canSkipCLA; tauto. }
  destruct (ok || canSkipCLA).
  - destruct (signed_loop ghc c id gh pr state statuses net) as [[e s']|] eqn:El.
    + simpl. intros ->. by apply signed_loop_panic in El.
    + destruct (post_at_head ghc c id pr state net) as [[[posted|err]|m] net'] eqn:E;
        simpl; try discriminate.
      intros [= <-]. by apply post_at_head_panic in E.
  - destruct (foundStatus statuses); simpl; [discriminate|].
    destruct (post_at_head ghc c id pr "failure" net) as [[[posted|err]|m] net'] eqn:E;
      simpl; try discriminate.
    intros [= <-]. apply post_at_head_panic in E; tauto.
Qed.

Lemma check_pr_panic id gh (s : CLAChecker * Net W) msg :
  (check_pr ghc id gh s).1 = Panic msg -> msg = nil_dereference.
Proof.
  destruct s as [c net]. unfold check_pr.
  destruct (NotExist gh); [discriminate|].
  destruct (negb (PullRequest gh)); [discriminate|].
  destruct (Closed gh); [discriminate|].
  destruct (has_key (signedCLAPRs c) (Number gh)); [discriminate|].
  destruct (chan_recv (contributorsLoaded c)) as [ch| |m] eqn:Ech.
  - destruct (request (Get _ _) _ net) as [[pr|err] net1]; [|discriminate].
    destruct (request (ListFiles _ _) _ net1) as [[files|err] net2]; [|discriminate].
    destruct (request (ListStatuses _ _) _ net2) as [[statuses|err] net3]; [|discriminate].
    apply apply_policy_panic.
  - discriminate.
  - exfalso. unfold chan_recv in Ech.
    destruct (contributorsLoaded c) as [[cap [|q] cl]|]; simpl in Ech;
      try discriminate. destruct cl; discriminate.
Qed.

Lemma ForeachIssue_ending {S : Type} (fn : GitHubIssue -> S -> ending * S)
    (P : ending -> Prop) l s :
  P Nil -> (forall gh s0, P (fn gh s0).1) -> P (ForeachIssue fn l s).1.
Proof.
  intros Hnil Hfn. revert s. induction l as [|gh l IH]; intros s; simpl; [exact Hnil|].
  specialize (Hfn gh s). destruct (fn gh s) as [e s']. simpl in Hfn.
  destruct e; simpl; try exact Hfn. apply IH.
Qed.

(** C10: [postStatus] builds and sends a status for each of "success",
    "unnecessary" and "failure" and panics on every other state; [Do]
    never ends in that panic, so every state it passes is one of the
    three. *)
Theorem postStatus_unknown_state_unreachable :
  (forall c id sha state (net : Net W),
     state = "success" \/ state = "unnecessary" \/ state = "failure" ->
     exists sr r w',
       postStatus ghc c id sha state net
       = (Returns r, (w', (sent net ++ [CreateStatus id sha sr])%list)))
  /\
  (forall c id sha state (net : Net W),
     state <> "success" -> state <> "unnecessary" -> state <> "failure" ->
     postStatus ghc c id sha state net = (Panics ("unknown state " ++ state), net))
  /\
  (forall c repo (net : Net W) state,
     (CLAChecker_Do ghc c repo net).1 <> Panic ("unknown state " ++ state)).
Proof.
  split; [|split].
  - intros c id sha state net Hstate.
    destruct (postStatus_sends ghc c id sha state net Hstate)
      as (sr & r & w' & _ & _ & Hpost & _).
    by exists sr, r, w'.
  - intros c id sha state net H1 H2 H3. unfold postStatus, build_status.
    apply String.eqb_neq in H1, H2, H3. by rewrite H1, H2, H3.
  - intros c repo net state. unfold CLAChecker_Do.
    apply (ForeachIssue_ending (check_pr ghc (ID repo))
             (fun e => e <> Panic ("unknown state " ++ state))).
    + discriminate.
    + intros gh s0 Hp. apply check_pr_panic in Hp. discriminate Hp.
Qed.
End CLAChecker_panics.

(** ** The readiness signal *)

Lemma signalled_once_emit s e c l b p :
  signalled_once s -> is_signal e = false ->
  signalled_once (mkSystem c l b p (emit e s)).
Proof.
  intros (cs & rest & Hev & Hrest) He. exists cs, (rest ++ [e])%list.
  unfold emit. simpl. rewrite Hev. split; [reflexivity|].
  apply Forall_app. split; [exact Hrest|]. by constructor.
Qed.

Lemma signalled_once_keep s c l b p :
  signalled_once s -> signalled_once (mkSystem c l b p (events s)).
Proof. intros (cs & rest & Hev & Hrest). by exists cs, rest. Qed.

Lemma loader_step_shape fetched cancelled s s' :
  reachable_shape s -> loader_step fetched cancelled s = Some s' -> reachable_shape s'.
Proof.
  intros Hs Hstep. unfold loader_step in Hstep.
  destruct Hs as [HA | [HB | [HC | HD]]].
  - destruct HA as (Hev & Hch & Hcp & Hsent & Hidle & Hnsel & Hnret).
    destruct (lpc s) as [ |cs| | | | | | | ] eqn:El; simpl in Hidle; try done.
    + destruct fetched as [[cs|err]|msg]; injection Hstep as <-; left;
        repeat split; simpl; try done.
    + injection Hstep as <-. rewrite Hsent. right. left.
      repeat split; simpl; try done. exists cs. unfold emit. by rewrite Hev.
    + injection Hstep as <-. left. repeat split; simpl; done.
  - destruct HB as ((cs & Hev) & Hch & Hcp & Hsent & Hl).
    rewrite Hl, Hch in Hstep. simpl in Hstep. injection Hstep as <-.
    right. right. left. repeat split; simpl; try done.
    + exists cs, []. unfold emit. rewrite Hev. split; [reflexivity|constructor].
    + by exists 1%nat.
  - destruct HC as (Hso & (q & Hch) & Hsent & Hl).
    rewrite Hl, Hch in Hstep. simpl in Hstep. injection Hstep as <-.
    right. right. right. repeat split; simpl.
    + by apply signalled_once_emit.
    + by exists q.
    + left. done.
  - destruct HD as (Hso & (q & Hch) & [[Hsent Hl] | [Hsent Hidle]]).
    + rewrite Hl in Hstep. injection Hstep as <-.
      right. right. right. repeat split; simpl.
      * by apply signalled_once_keep.
      * by exists q.
      * right. done.
    + assert (forall l', loader_idle l' ->
                reachable_shape (mkSystem (checker s) l' (sentContributors s) (cpc s) (events s)))
        as Hkeep.
      { intros l' Hl'. right. right. right. repeat split; simpl.
        - by apply signalled_once_keep.
        - by exists q.
        - right. done. }
      destruct (lpc s) as [ |cs| | | | | | | ] eqn:El; simpl in Hidle; try done.
      * destruct fetched as [[cs|err]|msg]; injection Hstep as <-; by apply Hkeep.
      * injection Hstep as <-. rewrite Hsent.
        right. right. right. repeat split; simpl.
        -- by apply signalled_once_emit.
        -- by exists q.
        -- right. done.
      * injection Hstep as <-. apply Hkeep. by destruct cancelled.
      * injection Hstep as <-. by apply Hkeep.
Qed.

Lemma checker_step_shape login s s' :
  reachable_shape s -> checker_step login s = Some s' -> reachable_shape s'.
Proof.
  intros Hs Hstep. unfold checker_step in Hstep.
  assert (match cpc s with
          | CRecv =>
              match chan_recv (contributorsLoaded (checker s)) with
              | Proceeds ch =>
                  Some (mkSystem (set_contributorsLoaded ch (checker s)) (lpc s)
                          (sentContributors s) CRead (events s))
              | _ => None
              end
          | CRead =>
              Some (mkSystem (checker s) (lpc s) (sentContributors s) CRecv
                      (emit (Consulted login (has_key (contributors (checker s)) login)) s))
          end = Some s') as Hstep'.
  { destruct (lpc s); try exact Hstep. discriminate Hstep. }
  clear Hstep.
  destruct Hs as [HA | [HB | [HC | HD]]].
  - destruct HA as (Hev & Hch & Hcp & _). rewrite Hcp, Hch in Hstep'. discriminate.
  - destruct HB as (_ & Hch & Hcp & _). rewrite Hcp, Hch in Hstep'. discriminate.
  - destruct HC as (Hso & (q & Hch) & Hsent & Hl).
    right. right. left.
    destruct (cpc s).
    + rewrite Hch in Hstep'. destruct q as [|q]; simpl in Hstep'; [discriminate|].
      injection Hstep' as <-.
      split_and!; simpl; [by apply signalled_once_keep|by exists q|done|done].
    + injection Hstep' as <-.
      split_and!; simpl; [by apply signalled_once_emit|by exists q|done|done].
  - destruct HD as (Hso & (q & Hch) & Hl).
    right. right. right.
    destruct (cpc s).
    + rewrite Hch in Hstep'. destruct q as [|q]; simpl in Hstep';
        injection Hstep' as <-;
        (split_and!; simpl; [by apply signalled_once_keep|eauto|done]).
    + injection Hstep' as <-.
      split_and!; simpl; [by apply signalled_once_emit|by exists q|done].
Qed.

Lemma sys_run_shape schedule s :
  reachable_shape s -> reachable_shape (sys_run schedule s).
Proof.
  revert s. induction schedule as [|ch schedule IH]; intros s Hs; [exact Hs|].
  unfold sys_run in *. simpl. apply IH.
  destruct ch as [fetched cancelled|login]; simpl.
  - destruct (loader_step fetched cancelled s) as [s'|] eqn:E; [|exact Hs].
    by apply (loader_step_shape fetched cancelled s).
  - destruct (checker_step login s) as [s'|] eqn:E; [|exact Hs].
    by apply (checker_step_shape login s).
Qed.

Lemma sys_init_shape claURL : reachable_shape (sys_init claURL).
Proof. left. repeat split; simpl; done. Qed.

Lemma signals_none rest :
  Forall (fun e => is_signal e = false) rest -> signals rest = 0%nat.
Proof.
  unfold signals. induction 1 as [|e rest He _ IH]; simpl; [reflexivity|].
  by rewrite He.
Qed.

Lemma signalled_on_first_load_quiet n rest :
  Forall (fun e => is_signal e = false) rest -> signalled_on_first_load n rest = true.
Proof.
  intros H. revert n. induction H as [|e rest He _ IH]; intros n; simpl; [reflexivity|].
  destruct e; simpl in He; try discriminate; apply IH.
Qed.

Lemma consulted_when_ready_after rest : consulted_when_ready true true rest = true.
Proof. induction rest as [|e rest IH]; simpl; [reflexivity|]. by destruct e. Qed.

Lemma sys_run_app a b s : sys_run (a ++ b)%list s = sys_run b (sys_run a s).
Proof. unfold sys_run. apply fold_left_app. Qed.

(** While the channel is empty and open, the receive of [Do] parks. *)
Lemma checkers_park ls s :
  contributorsLoaded (checker s) = Some (mkChan 1 0 false) -> cpc s = CRecv ->
  sys_run (List.map Checker ls) s = s.
Proof.
  intros Hch Hcp. induction ls as [|l ls IH]; [done|].
  cbn [List.map sys_run fold_left sys_step].
  assert (checker_step l s = None) as ->.
  { unfold checker_step. rewrite Hcp, Hch. by destruct (lpc s). }
  exact IH.
Qed.

(** Before anything is stored, a successful fetch is stored and signalled
    by the next two moves of the loop, whatever [Do] attempts meanwhile. *)
Lemma first_load_signals s cs c1 f2 c2 f3 c3 ls1 ls2 :
  stage_loading s -> lpc s = LFetch ->
  let s' := sys_run (Loader (Returns (Ok cs)) c1 :: List.map Checker ls1
                       ++ Loader f2 c2 :: List.map Checker ls2
                       ++ [Loader f3 c3])%list s in
  events s' = [Stored cs; Signalled]
  /\ contributors (checker s') = contributorMap cs
  /\ forall login,
       events (sys_run [Checker login; Checker login] s')
       = [Stored cs; Signalled; Consulted login (has_key (contributorMap cs) login)].
Proof.
  intros (Hev & Hch & Hcp & Hsent & _) Hl.
  destruct s as [c l sc cp ev]. simpl in *. subst.
  destruct c as [can signed url chn contribs]. simpl in *. subst.
  change (sys_run (?x :: ?r) ?s) with (sys_run r (sys_step x s)).
  cbn [sys_step loader_step lpc default checker sentContributors cpc events].
  rewrite sys_run_app, checkers_park by done.
  change (sys_run (?x :: ?r) ?s) with (sys_run r (sys_step x s)).
  cbn [sys_step loader_step lpc default checker sentContributors cpc events].
  rewrite sys_run_app, checkers_park by done.
  done.
Qed.

(** The refresh loop can always move, until it returns or crashes. *)
Lemma loader_step_moves fetched cancelled s :
  reachable_shape s -> lpc s <> LReturned -> lpc s <> LCrashed ->
  exists s', loader_step fetched cancelled s = Some s'.
Proof.
  intros Hs Hr Hc. unfold loader_step.
  destruct (lpc s) as [ |cs| | | | | | | ] eqn:El; try done; try (eexists; reflexivity).
  - destruct fetched as [[cs|err]|msg]; eexists; reflexivity.
  - destruct Hs as [HA | [HB | [HC | HD]]].
    + destruct HA as (_ & _ & _ & _ & Hidle & _). rewrite El in Hidle. destruct Hidle.
    + destruct HB as (_ & Hch & _). rewrite Hch. eexists; reflexivity.
    + destruct HC as (_ & _ & _ & Hl). congruence.
    + destruct HD as (_ & _ & [[_ Hl] | [_ Hidle]]); [congruence|].
      rewrite El in Hidle. destruct Hidle.
  - destruct Hs as [HA | [HB | [HC | HD]]].
    + destruct HA as (_ & _ & _ & _ & Hidle & _). rewrite El in Hidle. destruct Hidle.
    + destruct HB as (_ & _ & _ & _ & Hl). congruence.
    + destruct HC as (_ & (q & Hch) & _). rewrite Hch. eexists; reflexivity.
    + destruct HD as (_ & _ & [[_ Hl] | [_ Hidle]]); [congruence|].
      rewrite El in Hidle. destruct Hidle.
Qed.

(** C9: in every interleaving of the refresh goroutine and the goroutine
    of [Do], started from the state [StartFetch] leaves, at most one value
    is ever sent on [contributorsLoaded]; it is sent when the contributor
    map has been stored for the first time, the send never parks or panics,
    and once [sentContributors] is set exactly one value has been sent;
    every lookup of [Do] in the contributor map comes after that store and
    that send.  The refresh loop always has a next move until it returns
    or crashes.  And while nothing has been stored, a fetch that succeeds
    is stored and signalled by the next two moves of the loop, whatever
    [Do] attempts in between; the receive of [Do] then proceeds and its
    lookup reads the list just stored. *)
Theorem readiness_signalled_once (claURL : string) (schedule : list Choice) :
  let s := sys_run schedule (sys_init claURL) in
  (signals (events s) <= 1)%nat
  /\ (sentContributors s = true -> signals (events s) = 1%nat)
  /\ (events s <> [] -> lpc s = LSend \/ signals (events s) = 1%nat)
  /\ (lpc s = LSend ->
      exists ch, chan_send (contributorsLoaded (checker s)) = Proceeds ch)
  /\ signalled_on_first_load 0 (events s) = true
  /\ consulted_when_ready false false (events s) = true
  /\ (forall fetched cancelled,
        lpc s <> LReturned -> lpc s <> LCrashed ->
        exists s', loader_step fetched cancelled s = Some s')
  /\ (forall cs c1 f2 c2 f3 c3 ls1 ls2,
        lpc s = LFetch -> events s = [] ->
        let s' := sys_run (Loader (Returns (Ok cs)) c1 :: List.map Checker ls1
                             ++ Loader f2 c2 :: List.map Checker ls2
                             ++ [Loader f3 c3])%list s in
        events s' = [Stored cs; Signalled]
        /\ contributors (checker s') = contributorMap cs
        /\ forall login,
             events (sys_run [Checker login; Checker login] s')
             = [Stored cs; Signalled;
                Consulted login (has_key (contributorMap cs) login)]).
Proof.
  intros s.
  pose proof (sys_run_shape schedule _ (sys_init_shape claURL)) as Hshape.
  fold s in Hshape.
  assert (signalled_once s ->
          signals (events s) = 1%nat /\
          signalled_on_first_load 0 (events s) = true /\
          consulted_when_ready false false (events s) = true) as Honce.
  { intros (cs & rest & -> & Hrest). unfold signals. simpl.
    fold (signals rest). rewrite (signals_none rest Hrest).
    rewrite (signalled_on_first_load_quiet 1 rest Hrest).
    by rewrite consulted_when_ready_after. }
  assert (forall fetched cancelled,
            lpc s <> LReturned -> lpc s <> LCrashed ->
            exists s', loader_step fetched cancelled s = Some s') as Hmoves.
  { intros fetched cancelled. by apply loader_step_moves. }
  assert (lpc s = LFetch -> events s = [] -> stage_loading s) as Hloading.
  { intros _ Hnil. destruct Hshape as [HA | [HB | [HC | HD]]]; [done| | |].
    - destruct HB as ((cs & Hev) & _). congruence.
    - destruct HC as ((cs & rest & Hev & _) & _). congruence.
    - destruct HD as ((cs & rest & Hev & _) & _). congruence. }
  assert (forall cs c1 f2 c2 f3 c3 ls1 ls2,
        lpc s = LFetch -> events s = [] ->
        let s' := sys_run (Loader (Returns (Ok cs)) c1 :: List.map Checker ls1
                             ++ Loader f2 c2 :: List.map Checker ls2
                             ++ [Loader f3 c3])%list s in
        events s' = [Stored cs; Signalled]
        /\ contributors (checker s') = contributorMap cs
        /\ forall login,
             events (sys_run [Checker login; Checker login] s')
             = [Stored cs; Signalled;
                Consulted login (has_key (contributorMap cs) login)]) as Hlive.
  { intros cs c1 f2 c2 f3 c3 ls1 ls2 Hl Hnil.
    apply first_load_signals; [by apply Hloading|done]. }
  clear Hloading.
  destruct Hshape as [HA | [HB | [HC | HD]]].
  - destruct HA as (Hev & Hch & _ & Hsent & Hidle & _).
    split_and!; [| | | | | |exact Hmoves|exact Hlive]; clear Hmoves Hlive;
      rewrite ?Hev, ?Hsent; unfold signals; simpl; try done; try lia.
    intros Hl. rewrite Hl in Hidle. destruct Hidle.
  - destruct HB as ((cs & Hev) & Hch & _ & Hsent & Hl).
    split_and!; [| | | | | |exact Hmoves|exact Hlive]; clear Hmoves Hlive;
      rewrite ?Hev, ?Hsent, ?Hch; unfold signals; simpl; try done; try lia; intros _;
      [by left|eexists; reflexivity].
  - destruct HC as (Hso & _ & Hsent & Hl).
    destruct (Honce Hso) as (H1 & H2 & H3).
    split_and!; [| | | | | |exact Hmoves|exact Hlive]; clear Hmoves Hlive;
      rewrite ?H1, ?Hl; try done; try lia; try (intros _; by right); intros ?; discriminate.
  - destruct HD as (Hso & _ & Hl).
    destruct (Honce Hso) as (H1 & H2 & H3).
    split_and!; [| | | | | |exact Hmoves|exact Hlive]; clear Hmoves Hlive;
      rewrite ?H1; try done; try lia; try (intros _; by right).
    intros Hsend. destruct Hl as [[_ Hl] | [_ Hl]]; rewrite Hsend in Hl;
      [discriminate|destruct Hl].
Qed.

Example readiness_run :
  events (sys_run [Checker "alice";
                   Loader (Returns (Err "timeout")) false;
                   Loader (Returns (Ok [])) false;
                   Loader (Returns (Ok ["alice"])) false;
                   Checker "alice";
                   Loader (Returns (Ok [])) false;
                   Loader (Returns (Ok [])) false;
                   Checker "alice";
                   Loader (Returns (Ok [])) false;
                   Checker "alice";
                   Checker "bob"; Checker "bob"]
            (sys_init "https://example.com/cla"))
  = [Stored ["alice"]; Signalled; ClosedChan;
     Consulted "alice" true; Consulted "bob" false].
Proof. vm_compute. reflexivity. Qed.

(** * Further properties *)

(** ** Spreadsheet fetcher, continued *)

Lemma ReadAll_loop_ragged rows n acc :
  0 < n ->
  Exists (fun r => length r <> Z.to_nat n) rows ->
  (csv.ReadAll_loop (length rows) (csv.mkReader (List.map csv.Fields rows) n) acc).1
  = Err csv.ErrFieldCount.
Proof.
  intros Hn Hex. revert acc. induction rows as [|r rows IH]; intros acc.
  - inversion Hex.
  - cbn [length List.map csv.ReadAll_loop csv.unread]. unfold csv.Read.
    cbn [csv.unread csv.FieldsPerRecord].
    destruct (0 <? n) eqn:E0; [|lia].
    destruct (Z.of_nat (length r) =? n) eqn:El; [|reflexivity].
    apply IH. inversion Hex as [? ? Hbad|? ? Hrest]; subst; [|done].
    exfalso. apply Hbad. lia.
Qed.

Section Spreadsheet_more.
Context (L : strings.Lib).

(** The shape of every successful call of [getUsernames]. *)
Lemma getUsernames_ok file columnName us :
  getUsernames L file columnName = Returns (Ok us) ->
  exists header rows k cell,
    file = csv.Fields header :: List.map csv.Fields rows /\
    header !! k = Some cell /\ matches L columnName cell = true /\
    Forall (fun r => length r = length header) rows /\
    us = column_values L k rows.
Proof.
  unfold getUsernames, csv.NewReader, csv.Read. cbn [csv.unread csv.FieldsPerRecord].
  destruct file as [|[header|e] lines]; try discriminate.
  cbn [Z.ltb Z.compare Z.eqb].
  destruct (find_column L header (strings.ToLower L columnName) 0 =? -1) eqn:E; [discriminate|].
  assert (find_column L header (strings.ToLower L columnName) 0 <> -1) as Hne by lia.
  destruct (find_column_some L _ _ 0 ltac:(lia) Hne) as (k & cell & Hk & Hl & Hc & _).
  rewrite Z.add_0_l in Hk. rewrite Hk.
  assert (0 < Z.of_nat (length header)) as Hpos.
  { apply lookup_lt_Some in Hl. lia. }
  unfold csv.ReadAll. cbn [csv.unread].
  destruct (csv.ReadAll_loop (length lines) _ []) as [[recs|e] r'] eqn:ER; [|discriminate].
  apply ReadAll_loop_ok in ER as (rows & -> & -> & Hall); [|done].
  simpl app.
  assert (Forall (fun r => length r = length header) rows) as Hall'.
  { eapply Forall_impl; [exact Hall|]. simpl. intros; lia. }
  rewrite collect_emails_values.
  - intros [= <-]. exists header, rows, k, cell. done.
  - apply lookup_lt_Some in Hl. eapply Forall_impl; [exact Hall'|]. simpl. intros; lia.
Qed.

(** X1: [getUsernames] never panics: whatever the file and the column
    name, the index into a row is in range, because the reader has
    rejected every row whose length differs from the header's. *)
Theorem getUsernames_never_panics (file : csv.file) (columnName : string) :
  exists r, getUsernames L file columnName = Returns r.
Proof.
  unfold getUsernames, csv.NewReader, csv.Read. cbn [csv.unread csv.FieldsPerRecord].
  destruct file as [|[header|e] lines]; try (eexists; reflexivity).
  cbn [Z.ltb Z.compare Z.eqb].
  destruct (find_column L header (strings.ToLower L columnName) 0 =? -1) eqn:E;
    [eexists; reflexivity|].
  assert (find_column L header (strings.ToLower L columnName) 0 <> -1) as Hne by lia.
  destruct (find_column_some L _ _ 0 ltac:(lia) Hne) as (k & cell & Hk & Hl & _).
  rewrite Z.add_0_l in Hk. rewrite Hk. apply lookup_lt_Some in Hl.
  unfold csv.ReadAll. cbn [csv.unread].
  destruct (csv.ReadAll_loop (length lines) _ []) as [[recs|e] r'] eqn:ER;
    [|eexists; reflexivity].
  apply ReadAll_loop_ok in ER as (rows & -> & -> & Hall); [|lia].
  simpl app. rewrite collect_emails_values; [eexists; reflexivity|].
  eapply Forall_impl; [exact Hall|]. simpl. intros; lia.
Qed.

(** X3: a row whose number of fields differs from the header's makes
    [getUsernames] fail with the field-count error of the reader; no name
    of the rows before it is returned. *)
Theorem getUsernames_ragged_row (header : list string) (rows : list (list string))
    (columnName : string) :
  (exists cell, In cell header /\ matches L columnName cell = true) ->
  Exists (fun r => length r <> length header) rows ->
  getUsernames L (csv.Fields header :: List.map csv.Fields rows) columnName
  = Returns (Err csv.ErrFieldCount).
Proof.
  intros (cell0 & Hin0 & Hm0) Hex.
  assert (find_column L header (strings.ToLower L columnName) 0 <> -1) as Hne.
  { intros Hf. pose proof (find_column_none L _ _ 0 ltac:(lia) Hf cell0 Hin0) as Hc.
    unfold matches in Hm0. congruence. }
  destruct (find_column_some L _ _ 0 ltac:(lia) Hne) as (k & cell & Hk & Hl & _).
  rewrite Z.add_0_l in Hk. apply lookup_lt_Some in Hl.
  unfold getUsernames, csv.NewReader, csv.Read. cbn [csv.unread csv.FieldsPerRecord].
  cbn [Z.ltb Z.compare Z.eqb]. rewrite Hk.
  destruct (Z.of_nat k =? -1) eqn:E; [lia|].
  unfold csv.ReadAll. cbn [csv.unread]. rewrite length_map.
  pose proof (ReadAll_loop_ragged rows (Z.of_nat (length header)) [] ltac:(lia)) as HR.
  rewrite Nat2Z.id in HR. specialize (HR Hex).
  destruct (csv.ReadAll_loop (length rows) _ []) as [res rd]. simpl in HR. by rewrite HR.
Qed.

Hypothesis HL : strings.Laws L.

(** X2: every name that [getUsernames] returns is non-empty and carries no
    white space at either end ([TrimSpace] leaves it as it is), and there
    are at most as many names as rows after the header. *)
Theorem getUsernames_names_trimmed (file : csv.file) (columnName : string)
    (us : list string) :
  getUsernames L file columnName = Returns (Ok us) ->
  (forall u, In u us -> u <> EmptyString /\ strings.TrimSpace L u = u)
  /\ (length us < length file)%nat.
Proof.
  intros H. apply getUsernames_ok in H as (header & rows & k & cell & -> & _ & _ & _ & ->).
  unfold column_values. split.
  - intros u Hu. apply filter_In in Hu as [Hu Hne].
    apply in_map_iff in Hu as (r & <- & _). split.
    + intros Heq. rewrite Heq in Hne. discriminate.
    + apply (strings.TrimSpace_idem L HL).
  - simpl. rewrite length_map.
    pose proof (filter_length_le (fun e => negb (String.eqb e EmptyString))
                  (List.map (fun r => strings.TrimSpace L (nth k r EmptyString)) rows)) as Hle.
    rewrite length_map in Hle. lia.
Qed.

(** X4: the column name is matched without regard to the case of letters:
    two names with the same lower-case form, such as a name and its
    lower-case form, give the same list of names. *)
Theorem getUsernames_case_insensitive (file : csv.file) (name1 name2 : string)
    (us : list string) :
  strings.ToLower L name1 = strings.ToLower L name2 ->
  getUsernames L file name1 = Returns (Ok us) ->
  getUsernames L file name2 = Returns (Ok us)
  /\ getUsernames L file (strings.ToLower L name1) = Returns (Ok us).
Proof.
  intros Heq H.
  assert (forall n, strings.ToLower L n = strings.ToLower L name1 ->
                    getUsernames L file n = Returns (Ok us)) as Hany.
  { intros n Hn. unfold getUsernames in *. rewrite Hn.
    destruct (csv.Read (csv.NewReader file)) as [[record|e] r]; [|discriminate H].
    destruct (find_column L record (strings.ToLower L name1) 0 =? -1); [discriminate H|].
    exact H. }
  split; apply Hany; [done|apply (strings.ToLower_idem L HL)].
Qed.
End Spreadsheet_more.

Lemma getUsernames_names_trimmed_witness :
  (length ["kevinburke"; "kevinburke_test"; "test"] < length csvFile)%nat.
Proof.
  exact (proj2 (getUsernames_names_trimmed strings.ascii ascii_laws csvFile "github username"
                  ["kevinburke"; "kevinburke_test"; "test"] eq_refl)).
Defined.

Lemma getUsernames_ragged_row_witness :
  getUsernames strings.ascii
    [csv.Fields ["Name"; "GitHub Username"]; csv.Fields ["Kevin Burke"; "kevinburke"];
     csv.Fields ["lonely"]] "github username"
  = Returns (Err csv.ErrFieldCount).
Proof.
  apply (getUsernames_ragged_row strings.ascii ["Name"; "GitHub Username"]
           [["Kevin Burke"; "kevinburke"]; ["lonely"]] "github username").
  - exists "GitHub Username". split; [simpl; tauto|vm_compute; reflexivity].
  - apply Exists_cons_tl, Exists_cons_hd. simpl. lia.
Defined.

Lemma getUsernames_case_insensitive_witness :
  getUsernames strings.ascii csvFile "GITHUB USERNAME"
  = Returns (Ok ["kevinburke"; "kevinburke_test"; "test"]).
Proof.
  exact (proj1 (getUsernames_case_insensitive strings.ascii ascii_laws csvFile
                  "github username" "GITHUB USERNAME"
                  ["kevinburke"; "kevinburke_test"; "test"] eq_refl eq_refl)).
Defined.

(** ** Bot loop, continued *)

Section Bot_more.
Context {S : Type} (corpus : maintner.Corpus S).

Lemma doTasks_from_calls i (ts : list (@Task S)) s log e s' log' :
  doTasks_from corpus i ts s log = (e, s', log') ->
  exists k, (k <= length ts)%nat /\
            log' = (log ++ List.map Did (seq i k))%list /\
            (e = Nil -> k = length ts) /\
            (e <> Nil -> (1 <= k)%nat).
Proof.
  revert i s log. induction ts as [|t ts IH]; intros i s log H; simpl in H.
  - injection H as <- <- <-. exists 0%nat. simpl. rewrite app_nil_r. by split_and!.
  - destruct (t (maintner.Repo_view corpus s) s) as [e1 s1] eqn:Et.
    assert (e1 <> Nil -> (e, s', log') = (e1, s1, (log ++ [Did i])%list) ->
            exists k, (k <= length (t :: ts))%nat /\
                      log' = (log ++ List.map Did (seq i k))%list /\
                      (e = Nil -> k = length (t :: ts)) /\ (e <> Nil -> (1 <= k)%nat)) as Hstop.
    { intros Hne [= -> -> ->]. exists 1%nat. simpl. split_and!; [lia|done|done|lia]. }
    destruct e1; try (apply Hstop; [discriminate|by rewrite H]).
    apply IH in H as (k & Hk & -> & Hnil & Hpos).
    exists (Datatypes.S k). simpl. rewrite <- app_assoc. split_and!; [lia|done| |lia].
    intros He. by rewrite (Hnil He).
Qed.

Lemma doTasks_from_app_stop i (pre rest : list (@Task S)) s log e s1 log1 :
  doTasks_from corpus i pre s log = (e, s1, log1) -> e <> Nil ->
  doTasks_from corpus i (pre ++ rest) s log = (e, s1, log1).
Proof.
  revert i s log. induction pre as [|t pre IH]; intros i s log H Hne; simpl in H.
  - injection H as <- _ _. done.
  - simpl. destruct (t (maintner.Repo_view corpus s) s) as [e1 s'] eqn:Et.
    destruct e1; try exact H. by apply IH.
Qed.

(** X5: in one call of [doTasks] the tasks are called in registration
    order, without gaps and each at most once: the calls are those of the
    first [k] tasks for some [k]; all tasks have been called when [doTasks]
    returns nil, and at least one when it does not. *)
Theorem doTasks_calls_in_order (b : Bot) (s : S) :
  exists k, (k <= length (tasks b))%nat /\
            (doTasks corpus b s []).2 = List.map Did (seq 0 k) /\
            ((doTasks corpus b s []).1.1 = Nil -> k = length (tasks b)) /\
            ((doTasks corpus b s []).1.1 <> Nil -> (1 <= k)%nat).
Proof.
  unfold doTasks. destruct (doTasks_from corpus 0 (tasks b) s []) as [[e s'] log'] eqn:E.
  apply doTasks_from_calls in E as (k & Hk & -> & Hnil & Hpos).
  exists k. simpl. by split_and!.
Qed.

(** X6: a task registered last runs after all the tasks registered before
    it, on the state they leave, and only when every one of them returned
    nil; otherwise the pass ends as it would have without the new task. *)
Theorem RegisterTask_runs_last (b : Bot) (t : Task) (s : S) :
  doTasks corpus (RegisterTask b t) s []
  = match doTasks corpus b s [] with
    | (Nil, s1, log1) =>
        let '(e, s2) := t (maintner.Repo_view corpus s1) s1 in
        (e, s2, (log1 ++ [Did (length (tasks b))])%list)
    | stop => stop
    end.
Proof.
  unfold doTasks, RegisterTask. simpl.
  destruct (doTasks_from corpus 0 (tasks b) s []) as [[e s1] log1] eqn:E.
  assert (e <> Nil -> doTasks_from corpus 0 (tasks b ++ [t]) s [] = (e, s1, log1)) as Hstop
    by (intros; by apply doTasks_from_app_stop).
  destruct e; try (apply Hstop; discriminate).
  rewrite (doTasks_from_app corpus _ _ _ _ _ _ _ E). simpl.
  destruct (t (maintner.Repo_view corpus s1) s1) as [e2 s2]. by destruct e2.
Qed.

Lemma initCorpus_calls s log e s' log' :
  initCorpus corpus s log = (e, s', log') -> calls_of log' = calls_of log.
Proof.
  unfold initCorpus, calls_of.
  destruct (maintner.Initialize corpus s) as [[err|] s1].
  - intros [= <- <- <-]. rewrite List.filter_app. simpl. by rewrite app_nil_r.
  - destruct (maintner.Repo_found corpus s1); intros [= <- <- <-];
      rewrite !List.filter_app; simpl; by rewrite ?app_nil_r.
Qed.

Lemma sync_loop_calls retries s log e s' log' :
  sync_loop corpus retries s log = Some (e, s', log') -> calls_of log' = calls_of log.
Proof.
  revert s log. induction retries as [|retries IH]; intros s log H; simpl in H; [discriminate|].
  destruct (maintner.Sync corpus s) as [[err|] s1].
  - destruct (String.eqb err maintner.ErrSplit).
    + destruct (initCorpus corpus s1 _) as [[e1 s2] log2] eqn:Ei.
      apply initCorpus_calls in Ei.
      assert (calls_of log2 = calls_of log) as Hlog.
      { rewrite Ei. unfold calls_of. rewrite List.filter_app. simpl. by rewrite app_nil_r. }
      destruct e1; injection H as <- <- <-; try exact Hlog.
      unfold calls_of in *. rewrite List.filter_app. simpl. by rewrite app_nil_r.
    + apply IH in H. rewrite H. unfold calls_of. rewrite List.filter_app. simpl.
      by rewrite app_nil_r.
  - injection H as <- <- <-. unfold calls_of. rewrite List.filter_app. simpl.
    by rewrite app_nil_r.
Qed.

Lemma calls_of_Did (l : list nat) : calls_of (List.map Did l) = List.map Did l.
Proof. unfold calls_of. induction l as [|i l IH]; simpl; [done|]. by rewrite IH. Qed.

(** X7: one pass through the loop of [Run] calls no task twice, however
    often the corpus update is retried and even when the corpus is rebuilt:
    the calls in the log of a pass are those of the first [k] tasks. *)
Theorem cycle_calls_each_task_once (retries : nat) (b : Bot) (s : S) e s' log :
  cycle corpus retries b s [] = Some (e, s', log) ->
  exists k, (k <= length (tasks b))%nat /\ calls_of log = List.map Did (seq 0 k).
Proof.
  unfold cycle, doTasks. intros H.
  destruct (doTasks_from corpus 0 (tasks b) s []) as [[e1 s1] log1] eqn:E.
  apply doTasks_from_calls in E as (k & Hk & -> & _).
  exists k. split; [exact Hk|]. simpl in H.
  destruct e1; try (injection H as <- <- <-; apply calls_of_Did);
    apply sync_loop_calls in H; rewrite H; unfold calls_of; rewrite List.filter_app; simpl;
    rewrite app_nil_r; apply calls_of_Did.
Qed.

(** X8: when the corpus cannot be initialised, or does not contain the
    repository, [Run] ends the process with a fatal error before any task
    is called. *)
Theorem Run_fatal_without_repo (ticks retries : nat) (b : Bot) (s : S) :
  (exists err, (maintner.Initialize corpus s).1 = Some err) \/
  maintner.Repo_found corpus (maintner.Initialize corpus s).2 = false ->
  exists err s' log,
    Run corpus ticks retries b s = Some (Fatal err, s', log) /\ calls_of log = [].
Proof.
  intros H. unfold Run, initCorpus.
  destruct (maintner.Initialize corpus s) as [[err|] s1]; simpl in H.
  - by eexists _, _, _.
  - destruct H as [[err H]|H]; [discriminate|]. rewrite H. by eexists _, _, _.
Qed.

(** X9: while the corpus update keeps failing with an error other than
    [ErrSplit], the loop of [Run] stays in its retries: no number of
    retries ends the update, and no pass is ever completed, so no task is
    called a second time. *)
Theorem Run_stalls_while_sync_fails (b : Bot) :
  (forall s, exists err s', maintner.Sync corpus s = (Some err, s') /\
                            String.eqb err maintner.ErrSplit = false) ->
  (forall retries s log, sync_loop corpus retries s log = None)
  /\ (forall ticks retries s log,
        match cycles corpus (Datatypes.S ticks) retries b s log with
        | None => True
        | Some (e, _, _) => e <> Nil /\ forall err, e <> Error err
        end).
Proof.
  intros Hsync.
  assert (forall retries s log, sync_loop corpus retries s log = None) as Hloop.
  { induction retries as [|retries IH]; intros s log; simpl; [reflexivity|].
    destruct (Hsync s) as (err & s' & -> & ->). apply IH. }
  split; [exact Hloop|].
  intros ticks retries s log. cbn [cycles]. unfold cycle.
  destruct (doTasks corpus b s log) as [[e s1] log1].
  destruct e; rewrite ?Hloop; try exact I; split; congruence.
Qed.
End Bot_more.

Lemma Run_fatal_without_repo_witness :
  exists err s' log,
    Run empty_corpus 3 3 two_task_bot 0%nat = Some (Fatal err, s', log) /\ calls_of log = [].
Proof.
  apply (Run_fatal_without_repo empty_corpus 3 3 two_task_bot 0%nat).
  right. reflexivity.
Defined.

Lemma cycle_calls_each_task_once_witness :
  exists k, (k <= 2)%nat /\
    calls_of [Did 0; Logged "boom"; Logged "maintainerbot ran"; Logged "got corpus update"]
    = List.map Did (seq 0 k).
Proof.
  exact (cycle_calls_each_task_once still_corpus 1 two_task_bot 0%nat _ _ _ eq_refl).
Defined.

Lemma Run_stalls_while_sync_fails_witness :
  sync_loop offline_corpus 5 0%nat [] = None.
Proof.
  apply (Run_stalls_while_sync_fails offline_corpus two_task_bot).
  intros s. eexists _, _. split; reflexivity.
Defined.

(** ** Congratulator, continued *)

(** When every author of a live pull request is in the cache, the first
    loop changes nothing and finds no candidate. *)
Lemma ForeachIssue_scan_known l known :
  (forall gh, In gh l -> is_live_pr gh = true -> bool_at known (User_Login gh) = true) ->
  ForeachIssue scan_pr l (known, ∅) = (Nil, (known, ∅)).
Proof.
  induction l as [|g l IH]; intros H; cbn [ForeachIssue]; [done|].
  assert (scan_pr g (known, ∅) = (Nil, (known, ∅))) as ->.
  { unfold scan_pr. destruct (NotExist g || negb (PullRequest g)) eqn:E; [done|].
    rewrite (H g); [done|by left|].
    unfold is_live_pr. apply orb_false_elim in E as [-> E].
    by apply negb_false_iff in E as ->. }
  apply IH. intros gh Hin. apply H. by right.
Qed.

Section Congratulator_more.
Context {W : Type} (ghc : Client W).
Variable range_prs : gmap string GitHubIssue -> list (string * GitHubIssue).
Hypothesis range_prs_perm : forall prs, range_prs prs ≡ₚ map_to_list prs.

(** X10: the requests that [Congratulator.Do] sends are, for the
    candidates in the order of the iteration, the label request directly
    followed by the comment request: all of them when [Do] returns nil, an
    initial part of them when it returns an error. *)
Theorem Congratulator_label_then_comment (c : Congratulator) (repo : GitHubRepo)
    (net : Net W) :
  exists extra rest,
    sent (Congratulator_Do ghc range_prs c repo net).2 = (sent net ++ extra)%list /\
    flat_map (welcome_requests (message c) (ID repo)) (range_prs (scanned c repo).2)
    = (extra ++ rest)%list /\
    ((Congratulator_Do ghc range_prs c repo net).1.1 = Nil -> rest = []).
Proof.
  unfold Congratulator_Do, scanned.
  pose proof (ForeachIssue_scan_nil (issues repo) (knownContributors c, ∅)) as Hnil.
  destruct (ForeachIssue scan_pr (issues repo) (knownContributors c, ∅))
    as [e0 [known prs]]. simpl in Hnil. subst e0. simpl.
  destruct (welcome_all ghc (message c) (ID repo) (range_prs prs) (known, net))
    as [e [known' net']] eqn:E.
  apply welcome_all_sent in E as (extra & rest & Hs & Hr & Hn).
  exists extra, rest.
  destruct e; simpl; split_and!; try done; intros; by apply Hn.
Qed.

(** X11: [Congratulator.Do] only ever sends requests for pull requests of
    the snapshot that exist, are open and do not carry the
    "new-contributor" label: nothing is sent for an issue, a tombstone, a
    closed or an already labelled pull request. *)
Theorem Congratulator_targets_open_unlabelled (c : Congratulator) (repo : GitHubRepo)
    (net : Net W) :
  exists extra,
    sent (Congratulator_Do ghc range_prs c repo net).2 = (sent net ++ extra)%list /\
    forall call, In call extra ->
      exists gh, In gh (issues repo) /\ targets call (Number gh) = true /\
                 is_live_pr gh = true /\ Closed gh = false /\
                 hasNewContributorLabel gh = false.
Proof.
  destruct (Congratulator_Do ghc range_prs c repo net) as [[e c'] net'] eqn:HDo.
  unfold Congratulator_Do in HDo.
  pose proof (ForeachIssue_scan_ok (issues repo) [] (knownContributors c, ∅)) as Hok.
  pose proof (ForeachIssue_scan_live (issues repo) (knownContributors c, ∅)) as Hlive.
  destruct (ForeachIssue scan_pr (issues repo) (knownContributors c, ∅))
    as [e0 [known prs]]. simpl in Hok, Hlive.
  assert (scan_ok (issues repo) (known, prs)) as Hok'.
  { apply Hok. intros k gh Hk. simpl in Hk. by rewrite lookup_empty in Hk. }
  assert (forall k gh, prs !! k = Some gh -> is_live_pr gh = true) as Hlive'.
  { apply Hlive. intros k gh Hk. simpl in Hk. by rewrite lookup_empty in Hk. }
  clear Hok Hlive.
  destruct (welcome_all ghc (message c) (ID repo) (range_prs prs) (known, net))
    as [e2 [known2 net2]] eqn:Ew.
  apply welcome_all_sent in Ew as (extra & rest & Hs & Hr & _).
  assert (net' = net2) as -> by (destruct e2; by injection HDo as _ _ <-).
  exists extra. split; [exact Hs|]. intros call Hc.
  assert (In call (flat_map (welcome_requests (message c) (ID repo)) (range_prs prs))) as Hin.
  { rewrite Hr. apply in_or_app. by left. }
  apply in_flat_map in Hin as ([k gh] & Hentry & Hcall).
  apply list_elem_of_In in Hentry. rewrite range_prs_perm in Hentry.
  apply elem_of_map_to_list in Hentry.
  destruct (Hok' k gh Hentry) as (_ & _ & Hsnap). simpl in Hsnap.
  exists gh. unfold welcome_requests in Hcall. simpl in Hcall.
  destruct (Closed gh) eqn:Ec; [destruct Hcall|].
  destruct (hasNewContributorLabel gh) eqn:El; [destruct Hcall|]. simpl in Hcall.
  destruct (message c _); [|destruct Hcall].
  split_and!; try done; [|by apply (Hlive' k)].
  destruct Hcall as [ <- |[ <- |[]]]; simpl; apply Z.eqb_refl.
Qed.

(** X12: [Congratulator.Do] never takes an author out of the
    known-contributors cache and never changes the template, however it
    ends. *)
Theorem Congratulator_cache_grows (c : Congratulator) (repo : GitHubRepo) (net : Net W)
    (u : string) :
  bool_at (knownContributors c) u = true ->
  bool_at (knownContributors (Congratulator_Do ghc range_prs c repo net).1.2) u = true
  /\ message (Congratulator_Do ghc range_prs c repo net).1.2 = message c.
Proof.
  intros Hu. unfold Congratulator_Do.
  pose proof (ForeachIssue_scan_mono (issues repo) (knownContributors c, ∅) u Hu) as Hm.
  destruct (ForeachIssue scan_pr (issues repo) (knownContributors c, ∅))
    as [e0 [known prs]]. simpl in Hm.
  destruct (welcome_all ghc (message c) (ID repo) (range_prs prs) (known, net))
    as [e2 [known2 net2]] eqn:Ew.
  apply welcome_all_effect in Ew as (Hmono & _).
  destruct e2; simpl; split; try done; by apply Hmono.
Qed.

(** X13: after a pass that returned nil, the author of every live pull
    request of the snapshot is in the cache, and a second pass over the
    same snapshot sends no request and changes nothing. *)
Theorem Congratulator_second_pass_silent (c : Congratulator) (repo : GitHubRepo)
    (net : Net W) c' net' :
  Congratulator_Do ghc range_prs c repo net = (Nil, c', net') ->
  (forall gh, In gh (issues repo) -> is_live_pr gh = true ->
     bool_at (knownContributors c') (User_Login gh) = true)
  /\ Congratulator_Do ghc range_prs c' repo net' = (Nil, c', net').
Proof.
  intros HDo.
  assert (forall gh, In gh (issues repo) -> is_live_pr gh = true ->
            bool_at (knownContributors c') (User_Login gh) = true) as Hall.
  { unfold Congratulator_Do in HDo.
    pose proof (ForeachIssue_scan_covers (issues repo) [] (knownContributors c, ∅)) as Hcov.
    destruct (ForeachIssue scan_pr (issues repo) (knownContributors c, ∅))
      as [e0 [known prs]]. simpl in Hcov.
    destruct (welcome_all ghc (message c) (ID repo) (range_prs prs) (known, net))
      as [e2 [known2 net2]] eqn:Ew.
    pose proof (welcome_all_effect ghc _ _ _ _ _ _ _ _ Ew) as (Hmono & _).
    apply welcome_all_sent in Ew as (extra & rest & _ & _ & Hn).
    assert (e2 = Nil /\ c' = mkCongratulator (message c) known2) as [He2 Hc'].
    { destruct e2; try discriminate HDo. by injection HDo as _ <- _. }
    destruct (Hn He2) as [_ Hkeys]. rewrite Hc'. simpl.
    intros gh Hin Hlive.
    destruct (Hcov ltac:(intros ? []) gh Hin Hlive) as [Hk|[g Hg]]; [by apply Hmono|].
    apply Hkeys. apply elem_of_map_to_list in Hg. rewrite <- range_prs_perm in Hg.
    apply list_elem_of_In in Hg. apply in_map_iff. by exists (User_Login gh, g). }
  split; [exact Hall|].
  unfold Congratulator_Do.
  rewrite (ForeachIssue_scan_known (issues repo) (knownContributors c') Hall).
  assert (range_prs ∅ = []) as ->.
  { apply Permutation_nil. rewrite range_prs_perm. by rewrite map_to_list_empty. }
  simpl. by destruct c'.
Qed.
End Congratulator_more.

Lemma ForeachIssue_scan_other u l s :
  List.filter (live_by u) l = [] ->
  bool_at (ForeachIssue scan_pr l s).2.1 u = bool_at s.1 u /\
  (ForeachIssue scan_pr l s).2.2 !! u = s.2 !! u.
Proof.
  revert s. induction l as [|g l IH]; intros s H; simpl in *; [done|].
  destruct (live_by u g) eqn:El; [discriminate|].
  pose proof (scan_pr_nil g s) as Hn. pose proof (scan_pr_other u g s El) as [H1 H2].
  destruct (scan_pr g s) as [e s1]. simpl in Hn, H1, H2. subst e.
  destruct (IH s1 H) as [H3 H4]. by rewrite H3, H4.
Qed.

(** The only live pull request of an author who is not in the cache is
    the author's entry in [prs] after the first loop. *)
Lemma ForeachIssue_scan_single u gh l s :
  bool_at s.1 u = false -> s.2 !! u = None ->
  List.filter (live_by u) l = [gh] ->
  (ForeachIssue scan_pr l s).2.2 !! u = Some gh.
Proof.
  revert s. induction l as [|g l IH]; intros s Hk Hp H; simpl in *; [discriminate|].
  pose proof (scan_pr_nil g s) as Hn.
  destruct (live_by u g) eqn:El.
  - injection H as -> H.
    assert ((scan_pr gh s).2.2 !! u = Some gh) as Hs1.
    { destruct s as [known prs]. unfold live_by in El. unfold scan_pr. simpl in *.
      apply andb_prop in El as [El Hu]. apply andb_prop in El as [Hne Hpr].
      apply String.eqb_eq in Hu. subst u.
      destruct (NotExist gh); [discriminate|]. rewrite Hpr, Hk. simpl.
      unfold has_key. rewrite Hp. simpl. apply lookup_insert_eq. }
    destruct (scan_pr gh s) as [e s1]. simpl in Hn, Hs1. subst e.
    destruct (ForeachIssue_scan_other u l s1 H) as [_ ->]. exact Hs1.
  - pose proof (scan_pr_other u g s El) as [H1 H2].
    destruct (scan_pr g s) as [e s1]. simpl in Hn, H1, H2. subst e.
    apply IH; [by rewrite H1|by rewrite H2|exact H].
Qed.

Section Congratulator_first_pr.
Context {W : Type} (ghc : Client W).
Variable range_prs : gmap string GitHubIssue -> list (string * GitHubIssue).
Hypothesis range_prs_perm : forall prs, range_prs prs ≡ₚ map_to_list prs.

Lemma welcome_all_nil_rendered msg id entries (s s' : gmap string bool * Net W) k gh :
  welcome_all ghc msg id entries s = (Nil, s') ->
  In (k, gh) entries -> Closed gh = false -> hasNewContributorLabel gh = false ->
  exists text, msg {| Username := User_Login gh |} = Ok text.
Proof.
  revert s. induction entries as [|entry entries IH]; intros s H Hin Hc Hl; [destruct Hin|].
  cbn [welcome_all] in H.
  destruct (welcome ghc msg id entry s) as [e1 s1] eqn:E1.
  destruct e1; try discriminate H.
  destruct Hin as [->|Hin]; [|by apply (IH s1)].
  destruct s as [known net]. unfold welcome in E1. rewrite Hc, Hl in E1.
  destruct (msg _) as [text|err]; [by exists text|discriminate E1].
Qed.

(** X14: an author who is not in the cache and has exactly one live pull
    request in the snapshot, open and without the label, is welcomed by a
    pass that returns nil: the template rendered with the author's login
    is posted as a comment on that pull request, directly after the
    "new-contributor" label was added to it, and the author is in the
    cache afterwards. *)
Theorem Congratulator_welcomes_first_pr (c : Congratulator) (repo : GitHubRepo)
    (net : Net W) (u : string) (gh : GitHubIssue) c' net' :
  bool_at (knownContributors c) u = false ->
  List.filter (live_by u) (issues repo) = [gh] ->
  Closed gh = false -> hasNewContributorLabel gh = false ->
  Congratulator_Do ghc range_prs c repo net = (Nil, c', net') ->
  exists text before after,
    message c {| Username := u |} = Ok text /\
    sent net' = (sent net ++ before
                 ++ [AddLabelsToIssue (ID repo) (Number gh) ["new-contributor"];
                     CreateComment (ID repo) (Number gh) {| Body := text |}]
                 ++ after)%list /\
    bool_at (knownContributors c') u = true.
Proof.
  intros Hk Hone Hc Hl HDo. unfold Congratulator_Do in HDo.
  pose proof (ForeachIssue_scan_single u gh (issues repo) (knownContributors c, ∅)
                Hk (lookup_empty u) Hone) as Hentry.
  assert (User_Login gh = u) as Hu.
  { assert (In gh (List.filter (live_by u) (issues repo))) as Hin by (rewrite Hone; by left).
    apply filter_In in Hin as [_ Hlive]. unfold live_by in Hlive.
    apply andb_prop in Hlive as [_ Hlive]. by apply String.eqb_eq. }
  destruct (ForeachIssue scan_pr (issues repo) (knownContributors c, ∅))
    as [e0 [known prs]]. simpl in Hentry.
  destruct (welcome_all ghc (message c) (ID repo) (range_prs prs) (known, net))
    as [e2 [known2 net2]] eqn:Ew.
  assert (e2 = Nil /\ c' = mkCongratulator (message c) known2 /\ net' = net2)
    as (He2 & Hc' & Hnet).
  { destruct e2; try discriminate HDo. by injection HDo as _ <- <-. }
  subst e2 c' net'.
  assert (In (u, gh) (range_prs prs)) as Hin.
  { apply list_elem_of_In. rewrite range_prs_perm. by apply elem_of_map_to_list. }
  destruct (welcome_all_nil_rendered _ _ _ _ _ _ _ Ew Hin Hc Hl) as [text Htext].
  apply welcome_all_sent in Ew as (extra & rest & Hs & Hr & Hn).
  destruct (Hn eq_refl) as [-> Hkeys]. rewrite app_nil_r in Hr.
  apply in_split in Hin as (pre & post & Hsplit).
  rewrite Hsplit, flat_map_app in Hr. simpl in Hr.
  unfold welcome_requests at 2 in Hr. simpl in Hr. rewrite Hc, Hl, Htext in Hr. simpl in Hr.
  exists text, (flat_map (welcome_requests (message c) (ID repo)) pre),
    (flat_map (welcome_requests (message c) (ID repo)) post).
  split_and!.
  - by rewrite <- Hu.
  - by rewrite Hs, <- Hr.
  - simpl. apply Hkeys. rewrite Hsplit, map_app. apply in_or_app. right. by left.
Qed.
End Congratulator_first_pr.

Lemma Congratulator_targets_open_unlabelled_witness :
  exists extra,
    sent (Congratulator_Do github_accepts map_to_list congrats repo_alice_bob (tt, [])).2
    = (sent ((tt, []) : Net unit) ++ extra)%list /\
    forall call, In call extra ->
      exists gh, In gh (issues repo_alice_bob) /\ targets call (Number gh) = true /\
                 is_live_pr gh = true /\ Closed gh = false /\
                 hasNewContributorLabel gh = false.
Proof.
  exact (Congratulator_targets_open_unlabelled github_accepts map_to_list
           (fun _ => reflexivity _) congrats repo_alice_bob (tt, [])).
Defined.

Lemma Congratulator_cache_grows_witness :
  bool_at (knownContributors
             (Congratulator_Do github_accepts map_to_list
                (mkCongratulator (message congrats) {["carol" := true]})
                repo_alice_bob (tt, [])).1.2) "carol" = true.
Proof.
  exact (proj1 (Congratulator_cache_grows github_accepts map_to_list
                  (mkCongratulator (message congrats) {["carol" := true]})
                  repo_alice_bob (tt, []) "carol" eq_refl)).
Defined.

Lemma Congratulator_second_pass_silent_witness :
  let r := Congratulator_Do github_accepts map_to_list congrats repo_alice_bob (tt, []) in
  Congratulator_Do github_accepts map_to_list r.1.2 repo_alice_bob r.2 = (Nil, r.1.2, r.2).
Proof.
  intros r.
  refine (proj2 (Congratulator_second_pass_silent github_accepts map_to_list
                   (fun _ => reflexivity _) congrats repo_alice_bob (tt, []) r.1.2 r.2 _)).
  vm_compute. reflexivity.
Defined.

Lemma Congratulator_welcomes_first_pr_witness :
  let r := Congratulator_Do github_accepts map_to_list congrats repo_alice_bob (tt, []) in
  exists text before after,
    message congrats {| Username := "alice" |} = Ok text /\
    sent r.2 = (sent ((tt, []) : Net unit) ++ before
                ++ [AddLabelsToIssue rails 7 ["new-contributor"];
                    CreateComment rails 7 {| Body := text |}] ++ after)%list /\
    bool_at (knownContributors r.1.2) "alice" = true.
Proof.
  intros r.
  refine (Congratulator_welcomes_first_pr github_accepts map_to_list
            (fun _ => reflexivity _) congrats repo_alice_bob (tt, []) "alice" pr_alice
            r.1.2 r.2 _ _ _ _ _); reflexivity.
Defined.

(** ** CLA checker, continued *)

Section CLAChecker_more.
Context {W : Type} (ghc : Client W).

Lemma check_pr_skips id gh c (net : Net W) :
  to_check c gh = false -> check_pr ghc id gh (c, net) = (Nil, (c, net)).
Proof.
  unfold to_check, check_pr.
  destruct (NotExist gh); [done|]. destruct (PullRequest gh); [|done].
  destruct (Closed gh); [done|]. destruct (has_key _ _); [done|discriminate].
Qed.

(** X15: when the snapshot holds nothing to check (every issue is a
    tombstone, not a pull request, closed, or already in the signed-CLA
    cache), [CLAChecker.Do] returns nil without sending a request and
    without waiting for the contributor list, loaded or not. *)
Theorem CLAChecker_nothing_to_check (c : CLAChecker) (repo : GitHubRepo) (net : Net W) :
  Forall (fun gh => to_check c gh = false) (issues repo) ->
  CLAChecker_Do ghc c repo net = (Nil, (c, net)).
Proof.
  unfold CLAChecker_Do. induction 1 as [|gh l Hgh _ IH]; cbn [ForeachIssue]; [done|].
  by rewrite (check_pr_skips _ _ _ _ Hgh).
Qed.

(** X16: while nothing can be received from [contributorsLoaded] (the
    channel is nil because [StartFetch] was not called, or the first load
    has not come), [CLAChecker.Do] parks at the first pull request to
    check and has sent no request. *)
Theorem CLAChecker_waits_for_contributors (c : CLAChecker) (repo : GitHubRepo)
    (net : Net W) :
  chan_recv (contributorsLoaded c) = Parks ->
  Exists (fun gh => to_check c gh = true) (issues repo) ->
  CLAChecker_Do ghc c repo net = (Blocked, (c, net)).
Proof.
  intros Hch. unfold CLAChecker_Do. induction (issues repo) as [|gh l IH]; intros Hex.
  - inversion Hex.
  - cbn [ForeachIssue]. destruct (to_check c gh) eqn:E.
    + unfold to_check in E. unfold check_pr.
      destruct (NotExist gh); [discriminate|]. destruct (PullRequest gh); [|discriminate].
      destruct (Closed gh); [discriminate|]. destruct (has_key _ _); [discriminate|].
      simpl. by rewrite Hch.
    + rewrite (check_pr_skips _ _ _ _ E). apply IH.
      inversion Hex as [? ? Hbad|]; subst; [congruence|done].
Qed.

(** X17: a failure of one of the three reads ends [CLAChecker.Do] with
    that error right after the failed request: no status is posted for the
    pull request, the cache is left as it was and the pull requests after
    it are not visited in that pass. *)
Theorem CLAChecker_read_failure (c c1 : CLAChecker) (id : GithubRepoID)
    (before rest : list GitHubIssue) (gh : GitHubIssue) (net net1 : Net W)
    (ch : option Chan) :
  ForeachIssue (check_pr ghc id) before (c, net) = (Nil, (c1, net1)) ->
  to_check c1 gh = true ->
  chan_recv (contributorsLoaded c1) = Proceeds ch ->
  let repo := mkRepo id (before ++ gh :: rest) in
  let c2 := set_contributorsLoaded ch c1 in
  (forall err w1,
     PullRequests_Get ghc id (Number gh) net1.1 = (Err err, w1) ->
     CLAChecker_Do ghc c repo net
     = (Error err, (c2, (w1, (sent net1 ++ [Get id (Number gh)])%list))))
  /\
  (forall pr w1 err w2,
     PullRequests_Get ghc id (Number gh) net1.1 = (Ok pr, w1) ->
     PullRequests_ListFiles ghc id (Number gh) w1 = (Err err, w2) ->
     CLAChecker_Do ghc c repo net
     = (Error err, (c2, (w2, (sent net1 ++ [Get id (Number gh); ListFiles id (Number gh)])%list))))
  /\
  (forall pr w1 files w2 err w3,
     PullRequests_Get ghc id (Number gh) net1.1 = (Ok pr, w1) ->
     PullRequests_ListFiles ghc id (Number gh) w1 = (Ok files, w2) ->
     Repositories_ListStatuses ghc id (GetSHA pr) w2 = (Err err, w3) ->
     CLAChecker_Do ghc c repo net
     = (Error err, (c2, (w3, (sent net1 ++ reads id (Number gh) (GetSHA pr))%list)))).
Proof.
  intros Hbefore Hcheck Hch repo c2.
  assert (CLAChecker_Do ghc c repo net
          = match check_pr ghc id gh (c1, net1) with
            | (Nil, s') => ForeachIssue (check_pr ghc id) rest s'
            | stop => stop
            end) as HDo.
  { unfold CLAChecker_Do, repo. cbn [ID issues].
    rewrite (ForeachIssue_app _ _ _ _ _ Hbefore). cbn [ForeachIssue].
    destruct (check_pr ghc id gh (c1, net1)) as [[] ?]; reflexivity. }
  unfold to_check in Hcheck.
  destruct (NotExist gh) eqn:E1; [discriminate|].
  destruct (PullRequest gh) eqn:E2; [|discriminate].
  destruct (Closed gh) eqn:E3; [discriminate|].
  destruct (has_key (signedCLAPRs c1) (Number gh)) eqn:E4; [discriminate|].
  split_and!.
  - intros err w1 Hget. rewrite HDo. unfold check_pr, request.
    rewrite E1, E2, E3, E4, Hch. simpl. by rewrite Hget.
  - intros pr w1 err w2 Hget Hfiles. rewrite HDo. unfold check_pr, request.
    rewrite E1, E2, E3, E4, Hch. simpl. rewrite Hget. simpl. rewrite Hfiles.
    unfold sent. simpl. by rewrite <- app_assoc.
  - intros pr w1 files w2 err w3 Hget Hfiles Hst. rewrite HDo. unfold check_pr, request.
    rewrite E1, E2, E3, E4, Hch. simpl. rewrite Hget. simpl. rewrite Hfiles. simpl.
    rewrite Hst. unfold sent, reads. simpl. by rewrite <- !app_assoc.
Qed.
End CLAChecker_more.

Lemma CLAChecker_nothing_to_check_witness :
  CLAChecker_Do github_statuses (NewCLAChecker "https://example.com/cla")
    (mkRepo rails [mkIssue 3 false false false "dave" []; mkIssue 4 false true true "erin" []])
    ([], [])
  = (Nil, (NewCLAChecker "https://example.com/cla", ([], []))).
Proof.
  apply (CLAChecker_nothing_to_check github_statuses). repeat constructor.
Defined.

Lemma CLAChecker_waits_for_contributors_witness :
  CLAChecker_Do github_statuses (NewCLAChecker "https://example.com/cla")
    (mkRepo rails [pr_alice]) ([], [])
  = (Blocked, (NewCLAChecker "https://example.com/cla", ([], []))).
Proof.
  apply (CLAChecker_waits_for_contributors github_statuses); [reflexivity|].
  apply Exists_cons_hd. reflexivity.
Defined.

Lemma CLAChecker_read_failure_witness :
  CLAChecker_Do github_down checker_ready (mkRepo rails [pr_alice; pr_mallory]) ([], [])
  = (Error "502 Bad Gateway",
     (set_contributorsLoaded (Some (mkChan 1 0 true)) checker_ready, ([], [Get rails 7]))).
Proof.
  refine (proj1 (CLAChecker_read_failure github_down checker_ready checker_ready rails
                   [] [pr_mallory] pr_alice ([], []) ([], []) (Some (mkChan 1 0 true))
                   eq_refl eq_refl eq_refl) "502 Bad Gateway" [] eq_refl).
Defined.

Lemma build_status_wire c state sr :
  build_status c state = Some sr ->
  Context sr = Some "cla-bot" /\
  ((State sr = Some "success" /\ TargetURL sr = None) \/
   (State sr = Some "failure" /\ TargetURL sr = Some (claURL c))).
Proof.
  unfold build_status.
  destruct (String.eqb state "failure") eqn:E1.
  { apply String.eqb_eq in E1 as ->. intros [= <-]. simpl. tauto. }
  destruct (String.eqb state "unnecessary") eqn:E2.
  { intros [= <-]. simpl. tauto. }
  destruct (String.eqb state "success") eqn:E3; [|discriminate].
  apply String.eqb_eq in E3 as ->. intros [= <-]. simpl. tauto.
Qed.

Section CLAChecker_requests.
Context {W : Type} (ghc : Client W).

(** What one call of [postStatus] on the head of [pr] adds to the
    requests sent: nothing when it panics, else one status. *)
Lemma post_at_head_sent c id pr state (net : Net W) o net' :
  post_at_head ghc c id pr state net = (o, net') ->
  sent net' = sent net \/
  exists sha sr, Head_SHA pr = Some sha /\ build_status c state = Some sr /\
                 sent net' = (sent net ++ [CreateStatus id sha sr])%list.
Proof.
  unfold post_at_head, postStatus.
  destruct (Head_SHA pr) as [sha|]; [|intros [= _ <-]; by left].
  destruct (build_status c state) as [sr|] eqn:Eb; [|intros [= _ <-]; by left].
  destruct (request _ _ net) as [r net1] eqn:Er. apply request_sent in Er as [Er _].
  intros [= _ <-]. right. by exists sha, sr.
Qed.

(** The effect of the policy on the checker and on the requests sent. *)
Lemma apply_policy_effect c id gh ok pr files statuses (net : Net W) e c' net' :
  apply_policy ghc c id gh ok pr files statuses net = (e, (c', net')) ->
  (c' = c \/ c' = set_signedCLAPRs (<[Number gh := true]> (signedCLAPRs c)) c) /\
  (sent net' = sent net \/
   exists sha state sr, Head_SHA pr = Some sha /\ build_status c state = Some sr /\
                        sent net' = (sent net ++ [CreateStatus id sha sr])%list).
Proof.
  unfold apply_policy.
  set (state := if match CanSkipCLA c with None => false | Some can => can pr files end
                then "unnecessary" else "success").
  assert (forall st o n1 (k : error -> ending),
            post_at_head ghc c id pr st net = (o, n1) ->
            match o with
            | Returns (Err err) => (k err, (c, n1))
            | Returns (Ok _) => (Nil, (c, n1))
            | Panics msg => (Panic msg, (c, n1))
            end = (e, (c', net')) ->
            (c' = c \/ c' = set_signedCLAPRs (<[Number gh := true]> (signedCLAPRs c)) c) /\
            (sent net' = sent net \/
             exists sha state sr, Head_SHA pr = Some sha /\ build_status c state = Some sr /\
                                  sent net' = (sent net ++ [CreateStatus id sha sr])%list))
    as Hpost.
  { intros st o n1 k Hp Heq. apply post_at_head_sent in Hp.
    assert (c' = c /\ net' = n1) as [-> ->].
    { destruct o as [[?|?]|?]; by injection Heq as _ <- <-. }
    split; [by left|]. destruct Hp as [Hp|(sha & sr & Hh & Hb & Hp)]; [by left|].
    right. by exists sha, st, sr. }
  destruct (ok || _).
  - assert (forall l, signed_loop ghc c id gh pr state l net = Some (e, (c', net')) ->
              (c' = c \/ c' = set_signedCLAPRs (<[Number gh := true]> (signedCLAPRs c)) c) /\
              (sent net' = sent net \/
               exists sha state sr, Head_SHA pr = Some sha /\ build_status c state = Some sr /\
                 sent net' = (sent net ++ [CreateStatus id sha sr])%list)) as Hloop.
    { induction l as [|st l IH]; simpl; [discriminate|].
      destruct (String.eqb (GetContext st) "cla-bot"); [|exact IH].
      destruct (String.eqb (GetState st) "success").
      - intros [= <- <- <-]. split; [by right|by left].
      - destruct (post_at_head ghc c id pr state net) as [o n1] eqn:Ep.
        intros Heq. apply (Hpost state o n1 Error Ep).
        destruct o as [[?|?]|?]; by injection Heq as <- <- <-. }
    destruct (signed_loop ghc c id gh pr state statuses net) as [ret|] eqn:El.
    + intros ->. by apply (Hloop statuses).
    + destruct (post_at_head ghc c id pr state net) as [o n1] eqn:Ep.
      intros Heq. apply (Hpost state o n1 Error Ep).
      destruct o as [[?|?]|?]; exact Heq.
  - destruct (foundStatus statuses).
    + intros [= <- <- <-]. split; by left.
    + destruct (post_at_head ghc c id pr "failure" net) as [o n1] eqn:Ep.
      intros Heq. apply (Hpost "failure" o n1 Fatal Ep).
      destruct o as [[?|?]|?]; exact Heq.
Qed.

(** One visit of [Do]: the fields other than the cache and the channel
    are kept, the cache gains at most the number of the pull request, and
    the requests sent are those of a visit to this pull request. *)
Lemma check_pr_effect id gh c (net : Net W) e c' net' :
  check_pr ghc id gh (c, net) = (e, (c', net')) ->
  contributors c' = contributors c /\ claURL c' = claURL c /\
  CanSkipCLA c' = CanSkipCLA c /\
  (signedCLAPRs c' = signedCLAPRs c \/
   (signedCLAPRs c' = <[Number gh := true]> (signedCLAPRs c) /\ to_check c gh = true)) /\
  exists extra,
    sent net' = (sent net ++ extra)%list /\ visit_requests c id gh extra.
Proof.
  assert (forall (n : Net W), exists extra : list Call,
            sent n = (sent n ++ extra)%list /\ visit_requests c id gh extra)
    as Hsame.
  { intros n. exists []. rewrite app_nil_r. split; [done|by left]. }
  destruct (to_check c gh) eqn:Et.
  2:{ rewrite (check_pr_skips ghc _ _ _ _ Et). intros [= <- <- <-].
      split_and!; [done|done|done|by left|apply Hsame]. }
  assert (open_live_pr gh = true) as Hopen.
  { unfold to_check in Et. unfold open_live_pr. by apply andb_prop in Et as [-> _]. }
  pose proof Et as Et'. unfold to_check in Et'. unfold check_pr.
  destruct (NotExist gh); [discriminate|]. destruct (PullRequest gh); [|discriminate].
  destruct (Closed gh); [discriminate|].
  destruct (has_key (signedCLAPRs c) (Number gh)); [discriminate|].
  simpl. clear Et'.
  destruct (chan_recv (contributorsLoaded c)) as [ch| |msg];
    [|intros [= <- <- <-]; (split_and!; [done|done|done|by left|apply Hsame])..].
  destruct (request (Get _ _) _ net) as [r1 net1] eqn:E1.
  apply request_sent in E1 as [E1 _].
  destruct r1 as [pr|err].
  2:{ intros [= <- <- <-]. split_and!; [done|done|done|by left|].
      exists [Get id (Number gh)]. split; [done|]. right. split; [done|]. by left. }
  destruct (request (ListFiles _ _) _ net1) as [r2 net2] eqn:E2.
  apply request_sent in E2 as [E2 _]. rewrite E1, <- app_assoc in E2.
  destruct r2 as [files|err].
  2:{ intros [= <- <- <-]. split_and!; [done|done|done|by left|].
      eexists. split; [exact E2|]. right. split; [done|]. right. by left. }
  destruct (request (ListStatuses _ _) _ net2) as [r3 net3] eqn:E3.
  apply request_sent in E3 as [E3 _]. rewrite E2, <- app_assoc in E3.
  destruct r3 as [statuses|err].
  2:{ intros [= <- <- <-]. split_and!; [done|done|done|by left|].
      eexists. split; [exact E3|]. right. split; [done|]. right. right.
      exists (GetSHA pr). by left. }
  intros Hp. apply apply_policy_effect in Hp as (Hc & Hs).
  assert (contributors c' = contributors c /\ claURL c' = claURL c /\
          CanSkipCLA c' = CanSkipCLA c /\
          (signedCLAPRs c' = signedCLAPRs c \/
           signedCLAPRs c' = <[Number gh := true]> (signedCLAPRs c) /\ true = true))
    as (H1 & H2 & H3 & H4).
  { destruct Hc as [-> | ->]; simpl; split_and!; try done; [by left|by right]. }
  split_and!; [done|done|done|exact H4|].
  destruct Hs as [Hs|(sha & state & sr & Hh & Hb & Hs)].
  - eexists. split; [by rewrite Hs, E3|]. right. split; [done|]. right. right.
    exists (GetSHA pr). by left.
  - eexists. split; [by rewrite Hs, E3, <- app_assoc|].
    right. split; [done|]. right. right. exists sha. right. exists sr.
    split; [by apply build_status_wire in Hb|].
    unfold GetSHA. by rewrite Hh.
Qed.

(** X18: [CLAChecker.Do] never changes the contributor list, the CLA URL or
    the exemption predicate of the checker, never takes a number out of
    the signed-CLA cache, and only adds to it numbers of pull requests of
    the snapshot that exist and are open. *)
Theorem CLAChecker_cache_grows (c : CLAChecker) (repo : GitHubRepo) (net : Net W) :
  let c' := (CLAChecker_Do ghc c repo net).2.1 in
  contributors c' = contributors c /\ claURL c' = claURL c /\
  CanSkipCLA c' = CanSkipCLA c /\
  (forall n, has_key (signedCLAPRs c) n = true -> has_key (signedCLAPRs c') n = true) /\
  (forall n, has_key (signedCLAPRs c') n = true ->
     has_key (signedCLAPRs c) n = true \/
     exists gh, In gh (issues repo) /\ Number gh = n /\ open_live_pr gh = true).
Proof.
  unfold CLAChecker_Do. generalize (issues repo) as l. intros l. revert c net.
  induction l as [|gh l IH]; intros c net; cbn [ForeachIssue].
  - simpl. split_and!; try done. intros n Hn. by left.
  - destruct (check_pr ghc (ID repo) gh (c, net)) as [e [c1 net1]] eqn:E.
    apply check_pr_effect in E as (H1 & H2 & H3 & H4 & _).
    assert ((forall n, has_key (signedCLAPRs c) n = true -> has_key (signedCLAPRs c1) n = true) /\
            (forall n, has_key (signedCLAPRs c1) n = true ->
               has_key (signedCLAPRs c) n = true \/ (Number gh = n /\ open_live_pr gh = true)))
      as [Hgrow Hnew].
    { destruct H4 as [-> | [-> Hto]]; [split; intros; tauto|]. split.
      - intros n Hn. unfold has_key in *. destruct (decide (Number gh = n)) as [<-|Hne].
        + by rewrite lookup_insert_eq.
        + by rewrite lookup_insert_ne.
      - intros n Hn. unfold has_key in Hn. destruct (decide (Number gh = n)) as [<-|Hne].
        + right. split; [done|]. unfold to_check in Hto. unfold open_live_pr.
          by apply andb_prop in Hto as [-> _].
        + rewrite lookup_insert_ne in Hn by done. by left. }
    assert (forall e0 : ending,
              let c' := (e0, (c1, net1)).2.1 in
              contributors c' = contributors c /\ claURL c' = claURL c /\
              CanSkipCLA c' = CanSkipCLA c /\
              (forall n, has_key (signedCLAPRs c) n = true ->
                         has_key (signedCLAPRs c') n = true) /\
              (forall n, has_key (signedCLAPRs c') n = true ->
                 has_key (signedCLAPRs c) n = true \/
                 exists g, In g (gh :: l) /\ Number g = n /\ open_live_pr g = true)) as Hstop.
    { intros e0. simpl. split_and!; try done. intros n Hn.
      destruct (Hnew n Hn) as [?|[? ?]]; [by left|]. right. exists gh. split_and!; [by left|done..]. }
    destruct e; try apply Hstop.
    destruct (IH c1 net1) as (I1 & I2 & I3 & I4 & I5).
    split_and!; try congruence.
    + intros n Hn. by apply I4, Hgrow.
    + intros n Hn. destruct (I5 n Hn) as [Hold|(g & Hg & Hnum & Hopen)].
      * destruct (Hnew n Hold) as [?|[? ?]]; [by left|]. right. exists gh.
        split_and!; [by left|done..].
      * right. exists g. split_and!; [by right|done..].
Qed.

(** X19: the requests of one call of [CLAChecker.Do] are, in the order of
    the snapshot, those of its visits to the pull requests.  A visit sends
    nothing for an issue, a tombstone or a closed pull request; for an
    open pull request it sends at most the read of the pull request, of
    its files and of the statuses of a commit, in this order, and then at
    most one status, posted on that same commit, of context "cla-bot" and
    of state "success", or "failure" with the CLA URL as target.  So [Do]
    never adds a label or a comment and posts at most one status per open
    pull request. *)
Theorem CLAChecker_requests_bounded (c : CLAChecker) (repo : GitHubRepo) (net : Net W) :
  exists segs,
    sent (CLAChecker_Do ghc c repo net).2.2 = (sent net ++ concat segs)%list /\
    Forall2 (visit_requests c (ID repo)) (issues repo) segs.
Proof.
  unfold CLAChecker_Do. generalize (issues repo) as l. intros l.
  assert (forall c0 : CLAChecker, claURL c0 = claURL c ->
            forall net0 : Net W, exists segs,
              sent (ForeachIssue (check_pr ghc (ID repo)) l (c0, net0)).2.2
              = (sent net0 ++ concat segs)%list /\
              Forall2 (visit_requests c (ID repo)) l segs) as Hgen.
  2:{ by apply Hgen. }
  assert (forall l0 : list GitHubIssue,
            Forall2 (visit_requests c (ID repo)) l0 (List.map (fun _ => []) l0)
            /\ concat (List.map (fun _ : GitHubIssue => @nil Call) l0) = []) as Hquiet.
  { induction l0 as [|g l0 [IH1 IH2]]; simpl; [by split; [constructor|]|].
    split; [|done]. constructor; [by left|done]. }
  induction l as [|gh l IH]; intros c0 Hurl net0; cbn [ForeachIssue].
  - exists []. simpl. rewrite app_nil_r. split; [done|constructor].
  - destruct (check_pr ghc (ID repo) gh (c0, net0)) as [e [c1 net1]] eqn:E.
    apply check_pr_effect in E as (_ & Hurl1 & _ & _ & seg & Hs1 & Hvisit).
    assert (visit_requests c (ID repo) gh seg) as Hvisit'.
    { unfold visit_requests, cla_status in *. by rewrite <- Hurl. }
    assert (forall e0 : ending, exists segs,
              sent (e0, (c1, net1)).2.2 = (sent net0 ++ concat segs)%list /\
              Forall2 (visit_requests c (ID repo)) (gh :: l) segs) as Hstop.
    { intros e0. exists (seg :: List.map (fun _ => []) l).
      destruct (Hquiet l) as [Hq1 Hq2]. simpl. rewrite Hq2, app_nil_r.
      split; [done|by constructor]. }
    destruct e; try apply Hstop.
    destruct (IH c1 ltac:(congruence) net1) as (segs & Hs2 & Hall).
    exists (seg :: segs). simpl. split; [by rewrite Hs2, Hs1, <- app_assoc|].
    by constructor.
Qed.
End CLAChecker_requests.

Section CLAChecker_passing.
Context {W : Type} (ghc : Client W).

(** The status posted on the passing branch of the policy. *)
Lemma post_passing c id ch pr sha files (net : Net W) :
  Head_SHA pr = Some sha ->
  let c1 := set_contributorsLoaded ch c in
  let state := if exempt c pr files then "unnecessary" else "success" in
  let posted := if exempt c pr files then cla_unnecessary else cla_success in
  exists r w',
    post_at_head ghc c1 id pr state net
    = (Returns r, (w', (sent net ++ [CreateStatus id sha posted])%list)).
Proof.
  intros Hsha. unfold post_at_head, postStatus, request. rewrite Hsha. simpl.
  destruct (exempt c pr files); simpl;
    match goal with
    | |- context [Repositories_CreateStatus ghc id sha ?sr net.1] =>
        destruct (Repositories_CreateStatus ghc id sha sr net.1) as [r w']; by exists r, w'
    end.
Qed.

(** X20: a pull request of a signed or exempt author whose newest
    "cla-bot" status does not read "success" (the author has just signed)
    gets exactly one new status in the visit, of state "success", after
    the three reads; the pull request is not yet put in the cache. *)
Theorem CLAChecker_status_updated c id gh (net : Net W) ch pr sha files statuses
    before st rest w1 w2 w3 :
  to_check c gh = true ->
  chan_recv (contributorsLoaded c) = Proceeds ch ->
  has_key (contributors c) (User_Login gh) || exempt c pr files = true ->
  PullRequests_Get ghc id (Number gh) net.1 = (Ok pr, w1) ->
  Head_SHA pr = Some sha ->
  PullRequests_ListFiles ghc id (Number gh) w1 = (Ok files, w2) ->
  Repositories_ListStatuses ghc id sha w2 = (Ok statuses, w3) ->
  statuses = (before ++ st :: rest)%list ->
  Forall (fun s => ~ is_cla_bot s) before ->
  is_cla_bot st -> GetState st <> "success" ->
  exists e c' net',
    check_pr ghc id gh (c, net) = (e, (c', net')) /\
    sent net' = (sent net ++ reads id (Number gh) sha
                 ++ [CreateStatus id sha
                       (if exempt c pr files then cla_unnecessary else cla_success)])%list /\
    signedCLAPRs c' = signedCLAPRs c.
Proof.
  intros Hto Hch Hok Hget Hsha Hfiles Hst -> Hbefore Hctx Hstate.
  assert (GetSHA pr = sha) as Hgs by (unfold GetSHA; by rewrite Hsha).
  rewrite <- Hgs in Hst. unfold to_check in Hto.
  destruct (NotExist gh) eqn:E1; [discriminate|].
  destruct (PullRequest gh) eqn:E2; [|discriminate].
  destruct (Closed gh) eqn:E3; [discriminate|].
  destruct (has_key (signedCLAPRs c) (Number gh)) eqn:E4; [discriminate|].
  rewrite (check_pr_fetches ghc _ _ _ _ _ _ _ _ _ _ _ E1 E2 E3 E4 Hch Hget Hfiles Hst).
  unfold apply_policy. fold (exempt (set_contributorsLoaded ch c) pr files).
  change (exempt (set_contributorsLoaded ch c) pr files) with (exempt c pr files).
  rewrite Hok. rewrite signed_loop_skips by exact Hbefore. cbn [signed_loop].
  unfold is_cla_bot in Hctx. rewrite Hctx. simpl.
  apply String.eqb_neq in Hstate. rewrite Hstate.
  destruct (post_passing c id ch pr sha files
              (w3, (sent net ++ reads id (Number gh) (GetSHA pr))%list) Hsha)
    as (r & w' & ->).
  rewrite Hgs.
  destruct r as [posted|err]; eexists _, _, _; (split; [reflexivity|]);
    unfold sent; simpl; by rewrite <- app_assoc.
Qed.

(** X21: a pull request that the exemption predicate accepts passes,
    whether or not its author is in the contributor list: with no
    "cla-bot" status yet, the visit posts one status of state "success"
    with the description "Changes do not require CLA submission"; and once
    its newest "cla-bot" status reads "success" the visit records it in
    the signed-CLA cache like a signed one. *)
Theorem CLAChecker_exempt_passes c id gh (net : Net W) ch pr sha files statuses w1 w2 w3 :
  to_check c gh = true ->
  chan_recv (contributorsLoaded c) = Proceeds ch ->
  exempt c pr files = true ->
  PullRequests_Get ghc id (Number gh) net.1 = (Ok pr, w1) ->
  Head_SHA pr = Some sha ->
  PullRequests_ListFiles ghc id (Number gh) w1 = (Ok files, w2) ->
  Repositories_ListStatuses ghc id sha w2 = (Ok statuses, w3) ->
  (Forall (fun s => ~ is_cla_bot s) statuses ->
   exists e c' net',
     check_pr ghc id gh (c, net) = (e, (c', net')) /\
     sent net' = (sent net ++ reads id (Number gh) sha
                  ++ [CreateStatus id sha cla_unnecessary])%list)
  /\
  (forall before st rest,
     statuses = (before ++ st :: rest)%list ->
     Forall (fun s => ~ is_cla_bot s) before ->
     is_cla_bot st -> GetState st = "success" ->
     exists c' net',
       check_pr ghc id gh (c, net) = (Nil, (c', net')) /\
       sent net' = (sent net ++ reads id (Number gh) sha)%list /\
       has_key (signedCLAPRs c') (Number gh) = true).
Proof.
  intros Hto Hch Hex Hget Hsha Hfiles Hst.
  assert (GetSHA pr = sha) as Hgs by (unfold GetSHA; by rewrite Hsha).
  rewrite <- Hgs in Hst. unfold to_check in Hto.
  destruct (NotExist gh) eqn:E1; [discriminate|].
  destruct (PullRequest gh) eqn:E2; [|discriminate].
  destruct (Closed gh) eqn:E3; [discriminate|].
  destruct (has_key (signedCLAPRs c) (Number gh)) eqn:E4; [discriminate|].
  rewrite (check_pr_fetches ghc _ _ _ _ _ _ _ _ _ _ _ E1 E2 E3 E4 Hch Hget Hfiles Hst).
  unfold apply_policy. fold (exempt (set_contributorsLoaded ch c) pr files).
  change (exempt (set_contributorsLoaded ch c) pr files) with (exempt c pr files).
  pose proof (post_passing c id ch pr sha files
                (w3, (sent net ++ reads id (Number gh) (GetSHA pr))%list) Hsha)
    as (r & w' & Hpost).
  rewrite Hex in *. rewrite orb_true_r. split.
  - intros Hnone. rewrite signed_loop_none by exact Hnone.
    rewrite Hpost, Hgs.
    destruct r as [posted|err]; eexists _, _, _; (split; [reflexivity|]);
      unfold sent; simpl; by rewrite <- app_assoc.
  - intros before st rest -> Hbefore Hctx Hstate.
    rewrite signed_loop_skips by exact Hbefore. cbn [signed_loop].
    unfold is_cla_bot in Hctx. rewrite Hctx, Hstate. simpl.
    eexists _, _. split; [reflexivity|]. rewrite Hgs. split; [reflexivity|].
    unfold has_key. simpl. by rewrite lookup_insert_eq.
Qed.
End CLAChecker_passing.

Lemma CLAChecker_status_updated_witness :
  exists e c' net',
    check_pr github_statuses rails pr_alice
      (checker_ready, ([cla_failure checker_ready], []))
    = (e, (c', net')) /\
    sent net' = (reads rails 7 "abc123" ++ [CreateStatus rails "abc123" cla_success])%list.
Proof.
  destruct (CLAChecker_status_updated github_statuses checker_ready rails pr_alice
              ([cla_failure checker_ready], []) (Some (mkChan 1 0 true))
              (mkPR (Some "abc123") "a change") "abc123"
              [mkCommitFile "main.go" 100 20] [cla_failure checker_ready]
              [] (cla_failure checker_ready) []
              [cla_failure checker_ready] [cla_failure checker_ready]
              [cla_failure checker_ready])
    as (e & c' & net' & Hvisit & Hsent & _); try reflexivity; try constructor.
  - discriminate.
  - by exists e, c', net'.
Defined.

Lemma CLAChecker_exempt_passes_witness :
  exists e c' net',
    check_pr github_statuses rails pr_mallory (checker_lenient, ([], []))
    = (e, (c', net')) /\
    sent net' = (reads rails 11 "abc123"
                 ++ [CreateStatus rails "abc123" cla_unnecessary])%list.
Proof.
  destruct (CLAChecker_exempt_passes github_statuses checker_lenient rails pr_mallory
              ([], []) (Some (mkChan 1 0 true)) (mkPR (Some "abc123") "a change") "abc123"
              [mkCommitFile "main.go" 100 20] [] [] [] [])
    as [Hnone _]; try reflexivity.
  apply Hnone. constructor.
Defined.

(** ** The contributor list, continued *)

Lemma contributorMap_fold cs (m : gmap string bool) u :
  has_key (fold_left (fun m login => <[login := true]> m) cs m) u
  = has_key m u || in_list u cs.
Proof.
  revert m. induction cs as [|c cs IH]; intros m; simpl.
  - by rewrite orb_false_r.
  - rewrite IH. unfold has_key. destruct (String.eqb u c) eqn:E.
    + apply String.eqb_eq in E as ->. rewrite lookup_insert_eq. simpl.
      by rewrite orb_true_r.
    + apply String.eqb_neq in E. rewrite lookup_insert_ne by done. by simpl.
Qed.

(** X22: the map that [loadContributors] builds from a fetched list
    contains exactly the names of the list: a lookup succeeds if and only
    if the name occurs in it, however often. *)
Theorem contributorMap_member (cs : list string) (u : string) :
  has_key (contributorMap cs) u = true <-> In u cs.
Proof.
  unfold contributorMap. rewrite contributorMap_fold. unfold has_key at 1.
  rewrite lookup_empty. simpl. unfold in_list. rewrite existsb_exists. split.
  - intros (x & Hx & Heq). apply String.eqb_eq in Heq. by subst.
  - intros Hin. exists u. split; [done|apply String.eqb_refl].
Qed.

Lemma lookup_audit_emit es e : lookup_audit (es ++ [e]) = audit_step (lookup_audit es) e.
Proof. unfold lookup_audit. by rewrite fold_left_app. Qed.

Lemma sys_step_audit ch s :
  contributors (checker s) = contributorMap (lookup_audit (events s)).1 ->
  (lookup_audit (events s)).2 = true ->
  contributors (checker (sys_step ch s)) = contributorMap (lookup_audit (events (sys_step ch s))).1
  /\ (lookup_audit (events (sys_step ch s))).2 = true.
Proof.
  intros Hc Ha. destruct ch as [fetched cancelled|login]; simpl.
  - unfold loader_step.
    destruct (lpc s) as [ |cs| | | | | | | ]; simpl; try done.
    + destruct fetched as [[cs|err]|msg]; simpl; done.
    + unfold emit. rewrite lookup_audit_emit. simpl. done.
    + destruct (chan_send _); simpl; try done.
      unfold emit. rewrite lookup_audit_emit. simpl. done.
    + destruct (chan_close _); simpl; try done.
      unfold emit. rewrite lookup_audit_emit. simpl. done.
  - unfold checker_step.
    assert (forall pc : loader_pc,
              let r := match cpc s with
                       | CRecv =>
                           match chan_recv (contributorsLoaded (checker s)) with
                           | Proceeds ch =>
                               Some (mkSystem (set_contributorsLoaded ch (checker s)) pc
                                       (sentContributors s) CRead (events s))
                           | _ => None
                           end
                       | CRead =>
                           Some (mkSystem (checker s) pc (sentContributors s) CRecv
                                   (emit (Consulted login
                                            (has_key (contributors (checker s)) login)) s))
                       end in
              contributors (checker (default s r))
              = contributorMap (lookup_audit (events (default s r))).1
              /\ (lookup_audit (events (default s r))).2 = true) as Hgen.
    { intros pc. destruct (cpc s); simpl.
      - destruct (chan_recv _); simpl; done.
      - unfold emit. rewrite lookup_audit_emit. simpl. split; [done|].
        rewrite Ha. simpl. rewrite Hc. unfold contributorMap at 1.
        rewrite contributorMap_fold. unfold has_key at 1. rewrite lookup_empty. simpl.
        by destruct (in_list login _). }
    destruct (lpc s); try apply Hgen. simpl. done.
Qed.

(** X23: in every interleaving the contributor map is the one built from
    the list stored last (a store replaces the map, it does not merge; a
    fetch that failed, or whose list is not stored yet, leaves the map as
    it is), and every lookup of [Do] answered whether the login was in the
    list stored last before it. *)
Theorem contributors_follow_last_store (claURL : string) (schedule : list Choice) :
  let s := sys_run schedule (sys_init claURL) in
  contributors (checker s) = contributorMap (lookup_audit (events s)).1
  /\ (lookup_audit (events s)).2 = true.
Proof.
  unfold sys_run.
  assert (forall s0,
            contributors (checker s0) = contributorMap (lookup_audit (events s0)).1 ->
            (lookup_audit (events s0)).2 = true ->
            let s := fold_left (fun s ch => sys_step ch s) schedule s0 in
            contributors (checker s) = contributorMap (lookup_audit (events s)).1
            /\ (lookup_audit (events s)).2 = true) as Hgen.
  { induction schedule as [|ch schedule IH]; intros s0 Hc Ha; simpl; [done|].
    destruct (sys_step_audit ch s0 Hc Ha) as [Hc' Ha']. by apply IH. }
  apply Hgen; reflexivity.
Qed.

Lemma loader_step_no_crash fetched cancelled s s' :
  reachable_shape s -> lpc s <> LCrashed ->
  fetch_panics (Loader fetched cancelled) = false ->
  loader_step fetched cancelled s = Some s' -> lpc s' <> LCrashed.
Proof.
  intros Hs Hl Hf Hstep. unfold loader_step in Hstep.
  destruct (lpc s) as [ |cs| | | | | | | ] eqn:El; try done.
  - destruct fetched as [[cs|err]|msg]; try discriminate Hf; by injection Hstep as <-.
  - injection Hstep as <-. simpl. by destruct (sentContributors s).
  - destruct Hs as [HA | [HB | [HC | HD]]].
    + destruct HA as (_ & _ & _ & _ & Hidle & _). rewrite El in Hidle. destruct Hidle.
    + destruct HB as (_ & Hch & _). rewrite Hch in Hstep. simpl in Hstep.
      by injection Hstep as <-.
    + destruct HC as (_ & _ & _ & Hl'). congruence.
    + destruct HD as (_ & _ & [[_ Hl'] | [_ Hidle]]); [congruence|].
      rewrite El in Hidle. destruct Hidle.
  - destruct Hs as [HA | [HB | [HC | HD]]].
    + destruct HA as (_ & _ & _ & _ & Hidle & _). rewrite El in Hidle. destruct Hidle.
    + destruct HB as (_ & _ & _ & _ & Hl'). congruence.
    + destruct HC as (_ & (q & Hch) & _). rewrite Hch in Hstep. simpl in Hstep.
      by injection Hstep as <-.
    + destruct HD as (_ & _ & [[_ Hl'] | [_ Hidle]]); [congruence|].
      rewrite El in Hidle. destruct Hidle.
  - by injection Hstep as <-.
  - injection Hstep as <-. simpl. by destruct cancelled.
  - by injection Hstep as <-.
Qed.

Lemma checker_step_lpc login s s' : checker_step login s = Some s' -> lpc s' = lpc s.
Proof.
  unfold checker_step. destruct (lpc s) eqn:El; try discriminate;
    (destruct (cpc s); [destruct (chan_recv _); try discriminate|]);
    intros [= <-]; done.
Qed.

(** X24: [loadContributors] never panics on its channel: in every
    interleaving in which no fetch panics, the goroutine is never brought
    down, so it never sends on a closed channel and never closes the
    channel twice. *)
Theorem loader_never_panics_on_channel (claURL : string) (schedule : list Choice) :
  Forall (fun ch => fetch_panics ch = false) schedule ->
  lpc (sys_run schedule (sys_init claURL)) <> LCrashed.
Proof.
  intros Hsched. unfold sys_run.
  assert (forall s0, reachable_shape s0 -> lpc s0 <> LCrashed ->
            lpc (fold_left (fun s ch => sys_step ch s) schedule s0) <> LCrashed) as Hgen.
  { induction Hsched as [|ch schedule Hch _ IH]; intros s0 Hs Hl; simpl; [done|].
    apply IH.
    - apply (sys_run_shape [ch] s0 Hs).
    - destruct ch as [fetched cancelled|login]; simpl.
      + destruct (loader_step fetched cancelled s0) as [s1|] eqn:E; [|done].
        by apply (loader_step_no_crash fetched cancelled s0).
      + destruct (checker_step login s0) as [s1|] eqn:E; [|done].
        simpl. by rewrite (checker_step_lpc _ _ _ E). }
  apply Hgen; [apply sys_init_shape|discriminate].
Qed.

(** X25: [Do] waits exactly for the first load: as long as nothing has
    been stored its receive parks, and once [sentContributors] is set its
    receive and its lookup always proceed. *)
Theorem checker_parks_until_first_load (claURL : string) (schedule : list Choice)
    (login : string) :
  let s := sys_run schedule (sys_init claURL) in
  (events s = [] -> checker_step login s = None)
  /\ (sentContributors s = true -> lpc s <> LCrashed ->
      exists s', checker_step login s = Some s').
Proof.
  intros s.
  pose proof (sys_run_shape schedule _ (sys_init_shape claURL)) as Hshape. fold s in Hshape.
  unfold checker_step.
  destruct Hshape as [HA | [HB | [HC | HD]]].
  - destruct HA as (_ & Hch & Hcp & Hsent & _). rewrite Hch, Hcp, Hsent. split.
    + intros _. by destruct (lpc s).
    + discriminate.
  - destruct HB as ((cs & Hev) & _ & _ & Hsent & _). rewrite Hev, Hsent. split; discriminate.
  - destruct HC as ((cs & rest & Hev & _) & _ & Hsent & _). rewrite Hev, Hsent.
    split; discriminate.
  - destruct HD as ((cs & rest & Hev & _) & (q & Hch) & _). rewrite Hev, Hch.
    split; [discriminate|]. intros _ Hl.
    destruct (lpc s); try done; destruct (cpc s); destruct q; simpl; eauto.
Qed.

(** ** The sgbot command *)

Lemma split_first_byte s ch :
  match split_first s (String ch EmptyString) with
  | Some (a, b) => s = (a ++ String ch b)%string /\ ~ has_byte ch a
  | None => ~ has_byte ch s
  end.
Proof.
  unfold has_byte. induction s as [|c s IH]; simpl; [tauto|].
  destruct (ascii_dec ch c) as [->|Hne].
  - destruct s; simpl; tauto.
  - destruct (split_first s (String ch EmptyString)) as [[a b]|].
    + destruct IH as [-> Ha]. split; [done|]. simpl. intros [Heq|Hin]; [congruence|tauto].
    + simpl. intros [Heq|Hin]; [congruence|tauto].
Qed.

Lemma split_first_append a b ch :
  ~ has_byte ch a ->
  split_first (a ++ String ch b)%string (String ch EmptyString) = Some (a, b).
Proof.
  unfold has_byte. induction a as [|c a IH]; simpl; intros Ha.
  - destruct (ascii_dec ch ch); [|done]. by destruct b.
  - destruct (ascii_dec ch c) as [->|Hne]; [tauto|].
    rewrite IH; [done|tauto].
Qed.

(** X26: [getGithubToken] prefers the environment: a set GITHUB_TOKEN is
    returned as it is, even empty, whatever the file holds.  Otherwise it
    returns a token exactly when the file, as Go's [TrimSpace] leaves it,
    has the form user:token with a non-empty user that has no colon and a
    non-empty token, and the token is everything after the first colon,
    colons included.  Nothing is assumed of [TrimSpace]. *)
Theorem getGithubToken_form (L : strings.Lib) (quote : string -> string) :
  (forall token file, getGithubToken L (Some token) file quote = Ok token)
  /\
  (forall slurp token,
     getGithubToken L None (Ok slurp) quote = Ok token <->
     exists user,
       strings.TrimSpace L slurp = (user ++ String ":" token)%string /\
       user <> EmptyString /\ ~ has_byte ":" user /\ token <> EmptyString)
  /\
  (forall err, getGithubToken L None (Err err) quote = Err err).
Proof.
  split_and!; [done| |done].
  intros slurp token. unfold getGithubToken, SplitN_2.
  pose proof (split_first_byte (strings.TrimSpace L slurp) ":") as Hsplit.
  destruct (split_first (strings.TrimSpace L slurp) ":") as [[a b]|] eqn:E; split.
  - destruct Hsplit as [Heq Ha].
    destruct (String.eqb a EmptyString) eqn:Ea; [discriminate|].
    destruct (String.eqb b EmptyString) eqn:Eb; [discriminate|].
    intros [= <-]. exists a. apply String.eqb_neq in Ea, Eb. done.
  - intros (user & Heq & Hu & Hnc & Ht).
    rewrite Heq, (split_first_append user token ":" Hnc) in E. injection E as <- <-.
    apply String.eqb_neq in Hu, Ht. by rewrite Hu, Ht.
  - discriminate.
  - intros (user & Heq & _ & Hnc & _).
    rewrite Heq, (split_first_append user token ":" Hnc) in E. discriminate.
Qed.

(** X27: the [-repo] flag is accepted exactly when it has the form
    owner/name with a non-empty name; the owner is what precedes the first
    slash and may be empty, the name is everything after it. *)
Theorem split_repo_form (githubRepo owner name : string) :
  split_repo githubRepo = Ok (owner, name) <->
  githubRepo = (owner ++ String "/" name)%string /\ ~ has_byte "/" owner
  /\ name <> EmptyString.
Proof.
  unfold split_repo, SplitN_2.
  pose proof (split_first_byte githubRepo "/") as Hsplit.
  destruct (split_first githubRepo "/") as [[a b]|] eqn:E; split.
  - destruct Hsplit as [Heq Ha].
    destruct (String.eqb b EmptyString) eqn:Eb; [discriminate|].
    intros [= <- <-]. apply String.eqb_neq in Eb. done.
  - intros (Heq & Hnc & Ht).
    rewrite Heq, (split_first_append owner name "/" Hnc) in E. injection E as <- <-.
    apply String.eqb_neq in Ht. by rewrite Ht.
  - discriminate.
  - intros (Heq & Hnc & _).
    rewrite Heq, (split_first_append owner name "/" Hnc) in E. discriminate.
Qed.

Lemma HasSuffix_spec s suffix :
  HasSuffix s suffix = true <-> exists stem, s = (stem ++ suffix)%string.
Proof.
  induction s as [|c s IH]; cbn [HasSuffix].
  - rewrite orb_false_r, String.eqb_eq. split.
    + intros <-. by exists EmptyString.
    + intros ([|? ?] & H); simpl in H; [done|discriminate].
  - rewrite orb_true_iff, String.eqb_eq, IH. split.
    + intros [<-|(stem & ->)]; [by exists EmptyString|by exists (String c stem)].
    + intros ([|c' stem] & H); simpl in H; [by left|].
      injection H as <- ->. right. by exists stem.
Qed.

Lemma hasOnlyMarkdownFiles_spec files :
  hasOnlyMarkdownFiles files = true <->
  Forall (fun f => exists stem, Filename f = (stem ++ ".md")%string) files.
Proof.
  induction files as [|f files IH]; simpl.
  - split; [constructor|done].
  - destruct (HasSuffix (Filename f) ".md") eqn:E; simpl.
    + rewrite IH. split.
      * intros H. constructor; [by apply HasSuffix_spec|done].
      * by inversion 1.
    + split; [discriminate|]. inversion 1 as [|? ? Hf]; subst.
      apply HasSuffix_spec in Hf. congruence.
Qed.

(** X28: the exemption that sgbot installs panics when the pull request
    or the slice of files is nil.  Otherwise it returns, and holds exactly
    when the added and deleted lines, summed in Go's [int], are at most
    15, or every changed file has a name ending in ".md"; in particular a
    pull request with an empty slice of files is exempt whatever its line
    counts. *)
Theorem sgbot_CanSkipCLA_spec (GetAdditions GetDeletions : PullRequest_ -> Z) :
  (forall files,
     sgbot_CanSkipCLA GetAdditions GetDeletions None files
     = Panicked "nil PR or nil files in CanSkipCLA check; can't compare")
  /\
  (forall pr,
     sgbot_CanSkipCLA GetAdditions GetDeletions pr None
     = Panicked "nil PR or nil files in CanSkipCLA check; can't compare")
  /\
  (forall pr files, exists b,
     sgbot_CanSkipCLA GetAdditions GetDeletions (Some pr) (Some files) = Value b /\
     (b = true <->
      wrap_int (GetAdditions pr + GetDeletions pr) <= 15 \/
      Forall (fun f => exists stem, Filename f = (stem ++ ".md")%string) files))
  /\
  (forall pr,
     sgbot_CanSkipCLA GetAdditions GetDeletions (Some pr) (Some []) = Value true).
Proof.
  split_and!.
  - done.
  - by intros [pr|].
  - intros pr files. unfold sgbot_CanSkipCLA.
    destruct (wrap_int (GetAdditions pr + GetDeletions pr) <=? 15) eqn:E.
    + exists true. split; [done|]. split; [intros _; left; lia|done].
    + exists (hasOnlyMarkdownFiles files). split; [done|].
      rewrite hasOnlyMarkdownFiles_spec. split; [by right|]. intros [H|H]; [lia|done].
  - intros pr. unfold sgbot_CanSkipCLA. simpl.
    by destruct (wrap_int (GetAdditions pr + GetDeletions pr) <=? 15).
Qed.

Lemma loader_never_panics_on_channel_witness :
  lpc (sys_run [Loader (Returns (Err "timeout")) false; Loader (Returns (Ok [])) false;
                Loader (Returns (Ok ["alice"])) false; Checker "alice";
                Loader (Returns (Ok [])) false; Loader (Returns (Ok [])) false;
                Loader (Returns (Ok [])) false; Loader (Returns (Ok [])) true]
         (sys_init "https://example.com/cla")) <> LCrashed.
Proof.
  apply loader_never_panics_on_channel. repeat constructor.
Defined.
